(** * mcSIM lattice pattern engine: a shallow embedding of [dmd_patterns.py]

    The development follows [src/mcsim/analysis/dmd_patterns.py].
    Conventions of the embedding:

    - Python [int]s are [Z]; loop counters coming from [range] are [nat].
    - Integer valued float arrays (lattice vectors after [reduce_basis],
      cell values) are kept in [Z], and the quotients that the membership
      test and the tiling ranges form from them are exact rationals [Q]:
      NumPy carries out this arithmetic without error, and the rounding
      [np.round(x, 12)] of the membership test changes no comparison, as
      long as the components of the vectors stay below about [10^6] in
      absolute value ([float_safe]).
    - Where the outcome of a float computation depends on rounding errors
      (the rounding of [mu] in [reduce_basis], the inverse matrix and the
      floors of [reduce2cell]) it is a field of [float_ops], which the
      functions take as an argument; the theorems hold for every
      [float_ops], or say which property of it they need.
    - The Farey search of [find_rational_approx_angle] works on float64
      numbers with the operations of IEEE 754 ([PrimFloat]); the calls to
      [np.mod] and [np.tan] are the fields of an [angle_lib].
    - Gray values of [binarize] are rationals [Q]: every finite float is
      one, and rounding to the nearest integer and the multiples of 1/16
      and 1/48 are followed without rounding error.
    - A float cell that may hold [NaN] is a [cellval].
    - Exceptions are the constructors of [error]; a function that may raise
      returns a [result]. *)

From Stdlib Require Import ZArith QArith Qround Qabs Qminmax Lia String Bool.
From Stdlib Require Import Uint63 Floats.
From stdpp Require Import base list.

Local Open Scope Z_scope.

(** ** Errors and the result monad *)

Inductive error : Type :=
| PatternValuesOutOfRange   (* ValueError("pattern values must be in [0, 1]") *)
| InvalidMode               (* ValueError("mode must be ...") *)
| BinomialProbability       (* ValueError raised by np.random.binomial *)
| InvalidBasisNotInteger    (* ValueError("... cannot be interpreted as an integer") *)
| InvalidBasisDependent     (* ValueError("vec_a and vec_b are linearly dependent.") *)
| PhaseDivisibilityError    (* ValueError("... vec_b was not divisible by nphases") *)
| PhaseCellMismatch         (* ValueError("Cell does not have appropriate number of 'on' pixels") *)
| DegenerateReciprocalBasis (* ValueError("... reciprocal vectors could not be computed.") *)
| DisallowedAngle           (* ValueError('disallowed angle') *)
| ShapeMismatch             (* ValueError raised by NumPy on incompatible shapes *)
| EmptyReduction            (* ValueError raised by np.min on an empty array *)
| NegativeDimensions        (* ValueError raised by np.zeros on a negative size *)
| SingularMatrix            (* LinAlgError raised by np.linalg.inv *)
| AssertionError
| IndexError
| UnboundLocalError
| TypeError
| ZeroDivisionError.

Inductive result (A : Type) : Type :=
| Ok (a : A)
| Raise (e : error).
Arguments Ok {A} a.
Arguments Raise {A} e.

Global Instance result_ret : MRet result := fun A a => Ok a.
Global Instance result_bind : MBind result := fun A B k r =>
  match r with
  | Ok a => k a
  | Raise e => Raise e
  end.

Definition is_ok {A : Type} (r : result A) : bool :=
  match r with Ok _ => true | Raise _ => false end.

(** [for x in xs: body], threading the state and stopping at the first
    exception. *)
Fixpoint for_each {S X : Type} (xs : list X) (body : X -> S -> result S) (s : S)
  : result S :=
  match xs with
  | [] => Ok s
  | x :: xs' => s' ← body x s; for_each xs' body s'
  end.

(** ** Numeric helpers *)

(** [np.round] on a scalar: round half to even. *)
Definition np_round (q : Q) : Z :=
  let f := Qfloor q in
  match Qcompare (q - inject_Z f) (1 # 2) with
  | Lt => f
  | Gt => f + 1
  | Eq => if Z.even f then f else f + 1
  end.

(** [a < b] on floats. *)
Definition Qlt_bool (a b : Q) : bool := negb (Qle_bool b a).

(** [float(v).is_integer()] *)
Definition is_integer (q : Q) : bool := Qeq_bool q (inject_Z (Qfloor q)).

(** Conversion of a float to [int] ([dtype=int], [int(..)]): truncation
    towards zero. *)
Definition trunc (q : Q) : Z := Z.quot (Qnum q) (Z.pos (Qden q)).

(** Python [range(a, b)] on integers. *)
Definition rangeZ (a b : Z) : list Z := seqZ a (b - a).

(** ** Arrays *)

(** A float entry of a cell or of a pattern under construction.  The
    numbers stored are sums of zeros and ones, hence integers. *)
Inductive cellval : Type :=
| NaN
| Val (v : Z).

Definition is_nan (c : cellval) : bool :=
  match c with NaN => true | Val _ => false end.

(** Float addition: NaN is absorbing. *)
Definition cv_add (a b : cellval) : cellval :=
  match a, b with
  | Val x, Val y => Val (x + y)
  | _, _ => NaN
  end.

(** [np.nansum] of two entries stacked along a new axis: NaN counts as 0. *)
Definition cv_nansum (a b : cellval) : cellval :=
  match a, b with
  | Val x, Val y => Val (x + y)
  | Val x, NaN => Val x
  | NaN, Val y => Val y
  | NaN, NaN => Val 0
  end.

(** A 2D array as the list of its rows; [shape] is [(rows, columns)].  An
    array without rows is taken to have no columns. *)
Definition shape0 {A : Type} (a : list (list A)) : Z := Z.of_nat (length a).
Definition shape1 {A : Type} (a : list (list A)) : Z :=
  match a with
  | [] => 0
  | r :: _ => Z.of_nat (length r)
  end.

(** A slice bound [i] of a sequence of length [len], as Python normalises
    it: negative bounds count from the end, and the result is clipped. *)
Definition slice_bound (len i : Z) : Z :=
  if i <? 0 then Z.max 0 (len + i) else Z.min i len.

(** [l[a:b]] *)
Definition py_slice {A : Type} (l : list A) (a b : Z) : list A :=
  let len := Z.of_nat (length l) in
  let a' := slice_bound len a in
  let b' := slice_bound len b in
  take (Z.to_nat (b' - a')) (drop (Z.to_nat a') l).

(** The length of [l[a:b]] for a sequence of length [len]. *)
Definition slice_len (len a b : Z) : Z :=
  Z.max 0 (slice_bound len b - slice_bound len a).

(** [arr[y0:y1, x0:x1]] *)
Definition slice2 {A : Type} (arr : list (list A)) (y0 y1 x0 x1 : Z)
  : list (list A) :=
  map (fun r => py_slice r x0 x1) (py_slice arr y0 y1).

(** [l[a:a + len(blk)] = blk] for a block that fits. *)
Definition assign_slice {A : Type} (l : list A) (a : nat) (blk : list A) : list A :=
  take a l ++ blk ++ drop (a + length blk) l.

(** [arr[y0:y0 + h, x0:x0 + w] = blk] for an [h] by [w] block that fits. *)
Definition assign_slice2 {A : Type} (arr : list (list A)) (y0 x0 : nat)
    (blk : list (list A)) : list (list A) :=
  assign_slice arr y0
    (zip_with (fun r b => assign_slice r x0 b) (take (length blk) (drop y0 arr)) blk).

(** [arr[y0:y1, x0:x1] = blk] for an array of shape [(H, W)] and a block of
    the shape of the slice. *)
Definition update_slice2 {A : Type} (arr : list (list A)) (H W y0 x0 : Z)
    (blk : list (list A)) : list (list A) :=
  assign_slice2 arr (Z.to_nat (slice_bound H y0)) (Z.to_nat (slice_bound W x0)) blk.

(** [l[i]] for a Python integer [i]: negative indices count from the end. *)
Definition py_index {A : Type} (l : list A) (i : Z) : result A :=
  let len := Z.of_nat (length l) in
  let k := if i <? 0 then len + i else i in
  if (0 <=? k) && (k <? len) then
    match l !! Z.to_nat k with
    | Some v => Ok v
    | None => Raise IndexError
    end
  else Raise IndexError.

(** Entry [(i, j)] of a 2D array. *)
Definition get2 {A : Type} (arr : list (list A)) (i j : nat) : option A :=
  arr !! i ≫= fun r => r !! j.

(** [np.min] of a 1D integer array; NumPy raises a [ValueError] on an empty
    one. *)
Definition np_min (l : list Z) : result Z :=
  match l with
  | [] => Raise EmptyReduction
  | x :: l' => Ok (foldr Z.min x l')
  end.


(** ** Binarization of gray scale patterns *)

Module Binarize.

(** A 2D float array as the list of its rows. *)
Definition garray := list (list Q).

Definition shape0 (a : garray) : nat := length a.
Definition shape1 (a : garray) : nat := length (default [] (head a)).

(** [np.any(a)]: some entry is non zero. *)
Definition np_any (a : garray) : bool :=
  existsb (fun r => existsb (fun v => negb (Qeq_bool v 0)) r) a.

(** A Python [bool] used in an arithmetic comparison is the integer 0 or 1. *)
Definition bool_to_Z (b : bool) : Z := if b then 1 else 0.

(** The guard [np.any(pattern_gray) > 1 or np.any(pattern_gray) < 0]. *)
Definition range_guard (a : garray) : bool :=
  (bool_to_Z (np_any a) >? 1) || (bool_to_Z (np_any a) <? 0).

(** [a[i, j]] for non negative indices. *)
Definition aget (a : garray) (i j : nat) : result Q :=
  match a !! i with
  | Some r => match r !! j with
              | Some v => Ok v
              | None => Raise IndexError
              end
  | None => Raise IndexError
  end.

(** [a[i, j] += e] *)
Definition aadd (a : garray) (i j : nat) (e : Q) : result garray :=
  match a !! i with
  | Some r => match r !! j with
              | Some v => Ok (<[i := <[j := (v + e)%Q]> r]> a)
              | None => Raise IndexError
              end
  | None => Raise IndexError
  end.

Definition barray := list (list bool).

Definition bset (b : barray) (i j : nat) (v : bool) : barray :=
  match b !! i with
  | Some r => <[i := <[j := v]> r]> b
  | None => b
  end.

(** [np.zeros(pattern_gray.shape, dtype=bool)] *)
Definition bzeros (a : garray) : barray := map (map (fun _ => false)) a.

(** Assigning the float [np.round(g)] to a [bool] entry stores its truth
    value. *)
Definition quantize (g : Q) : bool := negb (np_round g =? 0).

Definition bool_to_Q (b : bool) : Q := if b then 1%Q else 0%Q.

(** When [c] holds run [k], else leave the state alone. *)
Definition when {S : Type} (c : bool) (k : S -> result S) (s : S) : result S :=
  if c then k s else Ok s.

(** Body of the inner loop of the ["floyd-steinberg"] branch.  The guard of
    the last update compares [jj] with [ny - 1], as the source does. *)
Definition fs_step (ny nx ii jj : nat) (st : garray * barray)
  : result (garray * barray) :=
  let '(g, b) := st in
  v ← aget g ii jj;
  let bit := quantize v in
  let b := bset b ii jj bit in
  let err := (v - bool_to_Q bit)%Q in
  g ← when (jj <? nx - 1)%nat (fun g => aadd g ii (jj + 1) (err * 7 / 16)%Q) g;
  g ← when (ii <? ny - 1)%nat (fun g =>
         g ← when (0 <? jj)%nat
                (fun g => aadd g (ii + 1) (jj - 1) (err * 3 / 16)%Q) g;
         g ← aadd g (ii + 1) jj (err * 5 / 16)%Q;
         when (jj <? ny - 1)%nat
           (fun g => aadd g (ii + 1) (jj + 1) (err * 1 / 16)%Q) g) g;
  Ok (g, b).

Definition floyd_steinberg (a : garray) : result barray :=
  let ny := shape0 a in
  let nx := shape1 a in
  '(_, b) ← for_each (seq 0 ny) (fun ii =>
               for_each (seq 0 nx) (fun jj => fs_step ny nx ii jj))
             (a, bzeros a);
  Ok b.

(** The ["jjn"] branch.  The block for row [ii + 2] sits after the inner
    loop in the source, so it runs once per row with the values [jj] and
    [err] left by the last inner iteration; both are unbound until the inner
    loop has run once. *)
Record jjn_state := {
  jjn_gray : garray;
  jjn_bin : barray;
  jjn_last : option (nat * Q)  (* the Python locals [jj] and [err] *)
}.

Definition jjn_inner (ny nx ii jj : nat) (st : jjn_state) : result jjn_state :=
  let g := jjn_gray st in
  v ← aget g ii jj;
  let bit := quantize v in
  let b := bset (jjn_bin st) ii jj bit in
  let err := (v - bool_to_Q bit)%Q in
  g ← when (jj <? nx - 1)%nat (fun g => aadd g ii (jj + 1) (err * 7 / 48)%Q) g;
  g ← when (jj <? nx - 2)%nat (fun g => aadd g ii (jj + 2) (err * 5 / 48)%Q) g;
  g ← when (ii <? ny - 1)%nat (fun g =>
         g ← when (1 <? jj)%nat
                (fun g => aadd g (ii + 1) (jj - 2) (err * 3 / 48)%Q) g;
         g ← when (0 <? jj)%nat
                (fun g => aadd g (ii + 1) (jj - 1) (err * 5 / 48)%Q) g;
         g ← aadd g (ii + 1) jj (err * 7 / 48)%Q;
         g ← when (jj <? ny - 1)%nat
                (fun g => aadd g (ii + 1) (jj + 1) (err * 5 / 48)%Q) g;
         when (jj <? ny - 2)%nat
           (fun g => aadd g (ii + 1) (jj + 2) (err * 3 / 48)%Q) g) g;
  Ok {| jjn_gray := g; jjn_bin := b; jjn_last := Some (jj, err) |}.

Definition jjn_tail (ny ii : nat) (st : jjn_state) : result jjn_state :=
  if (ii <? ny - 2)%nat then
    match jjn_last st with
    | None => Raise UnboundLocalError
    | Some (jj, err) =>
        g ← when (1 <? jj)%nat
               (fun g => aadd g (ii + 2) (jj - 2) (err * 1 / 48)%Q) (jjn_gray st);
        g ← when (0 <? jj)%nat
               (fun g => aadd g (ii + 2) (jj - 1) (err * 3 / 48)%Q) g;
        g ← aadd g (ii + 2) jj (err * 5 / 48)%Q;
        g ← when (jj <? ny - 1)%nat
               (fun g => aadd g (ii + 2) (jj + 1) (err * 3 / 48)%Q) g;
        g ← when (jj <? ny - 2)%nat
               (fun g => aadd g (ii + 2) (jj + 2) (err * 1 / 48)%Q) g;
        Ok {| jjn_gray := g; jjn_bin := jjn_bin st; jjn_last := jjn_last st |}
    end
  else Ok st.

Definition jjn (a : garray) : result barray :=
  let ny := shape0 a in
  let nx := shape1 a in
  st ← for_each (seq 0 ny) (fun ii st =>
          st ← for_each (seq 0 nx) (fun jj => jjn_inner ny nx ii jj) st;
          jjn_tail ny ii st)
        {| jjn_gray := a; jjn_bin := bzeros a; jjn_last := None |};
  Ok (jjn_bin st).

(** [np.random.binomial(1, p)] draws one Bernoulli sample per entry; the
    draws are supplied by [draw].  NumPy rejects a probability outside
    [0, 1]. *)
Definition random_dither (draw : nat -> nat -> bool) (a : garray) : result barray :=
  if forallb (forallb (fun p => Qle_bool 0 p && Qle_bool p 1)) a
  then Ok (imap (fun i r => imap (fun j _ => draw i j) r) a)
  else Raise BinomialProbability.

Definition round_mode (a : garray) : barray := map (map quantize) a.

Definition binarize (draw : nat -> nat -> bool) (pattern_gray : garray)
  (mode : string) : result barray :=
  if range_guard pattern_gray then Raise PatternValuesOutOfRange
  else if String.eqb mode "floyd-steinberg" then floyd_steinberg pattern_gray
  else if String.eqb mode "jjn" then jjn pattern_gray
  else if String.eqb mode "random" then random_dither draw pattern_gray
  else if String.eqb mode "round" then Ok (round_mode pattern_gray)
  else Raise InvalidMode.

(** The error diffusion kernel as the specification words it: raster order,
    weights 7/16, 3/16, 5/16 and 1/16, every term whose target lies inside
    the [ny] by [nx] array applied, the others omitted. *)
Definition fs_step_spec (ny nx ii jj : nat) (st : garray * barray)
  : result (garray * barray) :=
  let '(g, b) := st in
  v ← aget g ii jj;
  let bit := quantize v in
  let b := bset b ii jj bit in
  let err := (v - bool_to_Q bit)%Q in
  g ← when (jj + 1 <? nx)%nat (fun g => aadd g ii (jj + 1) (err * 7 / 16)%Q) g;
  g ← when ((ii + 1 <? ny) && (0 <? jj))%nat
         (fun g => aadd g (ii + 1) (jj - 1) (err * 3 / 16)%Q) g;
  g ← when (ii + 1 <? ny)%nat (fun g => aadd g (ii + 1) jj (err * 5 / 16)%Q) g;
  g ← when ((ii + 1 <? ny) && (jj + 1 <? nx))%nat
         (fun g => aadd g (ii + 1) (jj + 1) (err * 1 / 16)%Q) g;
  Ok (g, b).

Definition floyd_steinberg_spec (a : garray) : result barray :=
  let ny := shape0 a in
  let nx := shape1 a in
  '(_, b) ← for_each (seq 0 ny) (fun ii =>
               for_each (seq 0 nx) (fun jj => fs_step_spec ny nx ii jj))
             (a, bzeros a);
  Ok b.

End Binarize.


(** ** Rational approximation of an angle (Farey mediant search) *)

Module RationalApprox.

(** A fraction is the Python list [[num, denom]]. *)
Definition fraction := (Z * Z)%type.

(** The float64 of a Python [int] of absolute value below [2^63]; the
    conversion is exact below [2^53], and the integers of the search stay
    below [nmax]. *)
Definition float_of_int (z : Z) : float :=
  match z with
  | Z0 => PrimFloat.zero
  | Zpos _ => PrimFloat.of_uint63 (Uint63.of_Z z)
  | Zneg _ => PrimFloat.opp (PrimFloat.of_uint63 (Uint63.of_Z (- z)))
  end.

(** [num / denom] on two Python [int]s: the correctly rounded quotient. *)
Definition frac (f : fraction) : float :=
  (float_of_int (fst f) / float_of_int (snd f))%float.

(** [np.abs(num / denom - slope)] *)
Definition dist (slope : float) (f : fraction) : float :=
  PrimFloat.abs (frac f - slope)%float.

Record farey_state := {
  fr_lb : fraction;
  fr_ub : fraction;
  approximate_seq : list fraction
}.

(** "compare new bound to last best estimate": the new bound is recorded
    when the sequence is empty or when the float test
    [np.abs(current_est - slope) <= np.abs(best_est - slope)] holds. *)
Definition record_bound (slope : float) (sq : list fraction) (f : fraction)
  : list fraction :=
  match last sq with
  | None => sq ++ [f]
  | Some best =>
      if (dist slope f <=? dist slope best)%float then sq ++ [f] else sq
  end.

(** One pass through the body of the [while True] loop, after the test of
    the denominator.  The [if mediant == slope] block is followed by the
    [if mediant > slope ... else ...] statement, which runs in every case. *)
Definition farey_step (slope : float) (st : farey_state) : farey_state :=
  let mediant_num := fst (fr_lb st) + fst (fr_ub st) in
  let mediant_denom := snd (fr_lb st) + snd (fr_ub st) in
  let m := (mediant_num, mediant_denom) in
  let st1 :=
    if (frac m =? slope)%float
    then {| fr_lb := m; fr_ub := m; approximate_seq := approximate_seq st ++ [m] |}
    else st in
  if (slope <? frac m)%float
  then {| fr_lb := fr_lb st1; fr_ub := m;
          approximate_seq := record_bound slope (approximate_seq st1) m |}
  else {| fr_lb := m; fr_ub := fr_ub st1;
          approximate_seq := record_bound slope (approximate_seq st1) m |}.

(** The loop; [None] when the fuel is used up before the [break]. *)
Fixpoint farey_loop (fuel : nat) (slope : float) (nmax : Z) (st : farey_state)
  : option farey_state :=
  match fuel with
  | O => None
  | S fuel' =>
      if snd (fr_lb st) + snd (fr_ub st) >=? nmax then Some st
      else farey_loop fuel' slope nmax (farey_step slope st)
  end.

Definition farey_init : farey_state :=
  {| fr_lb := (0, 1); fr_ub := (1, 1); approximate_seq := [] |}.

(** The sequence recorded by the search for [slope]. *)
Definition farey_search (fuel : nat) (slope : float) (nmax : Z)
  : option (list fraction) :=
  approximate_seq <$> farey_loop fuel slope nmax farey_init.

(** The two calls into the mathematical library, whose float results are
    not fixed by IEEE 754: [np.mod(angle, 2 * np.pi)] and [np.tan]. *)
Record angle_lib := {
  np_mod : float -> float -> float;
  np_tan : float -> float
}.

(** [np.pi] *)
Definition np_pi : float := 0x1.921fb54442d18p+1%float.

(** The four cases of the reduction of the angle to the first quadrant. *)
Inductive angle_case := Case1 | Case2 | Case3 | Case4.

(** The chain of tests on [angle_2p]: the case and [angle_pos], or the
    [ValueError('disallowed angle')] when no test holds. *)
Definition reduce_angle (angle_2p : float) : result (angle_case * float) :=
  if (angle_2p <=? np_pi / 2)%float then Ok (Case1, angle_2p)
  else if (np_pi / 2 <? angle_2p)%float && (angle_2p <=? np_pi)%float
  then Ok (Case2, (np_pi - angle_2p)%float)
  else if (np_pi <? angle_2p)%float && (angle_2p <=? 3 * np_pi / 2)%float
  then Ok (Case3, (angle_2p - np_pi)%float)
  else if (3 * np_pi / 2 <? angle_2p)%float && (angle_2p <=? 2 * np_pi)%float
  then Ok (Case4, (2 * np_pi - angle_2p)%float)
  else Raise DisallowedAngle.

(** [np.flip(s)] *)
Definition flip (s : fraction) : fraction := (snd s, fst s).

Definition orient (c : angle_case) (s : fraction) : Z * Z :=
  match c with
  | Case1 => (- fst s, snd s)
  | Case2 => (- fst s, - snd s)
  | Case3 => (fst s, - snd s)
  | Case4 => (fst s, snd s)
  end.

(** [find_rational_approx_angle].  The outer [option] is [None] when the
    fuel does not suffice; [vecs[-1]] on an empty list is the
    [IndexError]. *)
Definition find_rational_approx_angle (lib : angle_lib) (fuel : nat)
    (angle : float) (nmax : Z) : option (result (Z * Z * list (Z * Z))) :=
  let angle_2p := np_mod lib angle (2 * np_pi)%float in
  match reduce_angle angle_2p with
  | Raise e => Some (Raise e)
  | Ok (c, angle_pos) =>
      let slope := np_tan lib angle_pos in
      let slope_inverted := (1 <? slope)%float in
      let slope := if slope_inverted then (1 / slope)%float else slope in
      sq ← farey_search fuel slope nmax;
      let sq := if slope_inverted then map flip sq else sq in
      let vecs := map (orient c) sq in
      Some (match last vecs with
            | None => Raise IndexError
            | Some v => Ok (fst v, snd v, vecs)
            end)
  end.

(** The library as it answers for one angle of [[0, 2 pi)]: [np.mod]
    returns such an angle unchanged, and [t] is the value of [np.tan] at
    the reduced angle. *)
Definition lib_with_tan (t : float) : angle_lib :=
  {| np_mod := fun a _ => a; np_tan := fun _ => t |}.

(** [g] was recorded after [f]: it passed the float test of
    [record_bound] against [f], or it is equal to [slope] as a float. *)
Definition at_least_as_close (slope : float) (f g : fraction) : Prop :=
  (dist slope g <=? dist slope f)%float = true \/ (frac g =? slope)%float = true.

(** Successive entries get no farther from [slope]. *)
Definition closer_chain (slope : float) (sq : list fraction) : Prop :=
  forall (i : nat) f g, sq !! i = Some f -> sq !! S i = Some g ->
    at_least_as_close slope f g.

End RationalApprox.

(** ** Integer lattice vectors and Lagrange-Gauss basis reduction *)

Module Basis.

(** A lattice vector [(dx, dy)]. *)
Definition vec := (Z * Z)%type.

Definition vadd (a b : vec) : vec := (fst a + fst b, snd a + snd b).
Definition vsub (a b : vec) : vec := (fst a - fst b, snd a - snd b).
Definition vscale (k : Z) (a : vec) : vec := (k * fst a, k * snd a).

(** [np.vdot] / [np.inner] of two 2-vectors. *)
Definition vdot (a b : vec) : Z := fst a * fst b + snd a * snd b.

(** [np.cross] of two 2-vectors. *)
Definition cross (a b : vec) : Z := fst a * snd b - snd a * fst b.

(** [np.linalg.norm(v) ** 2] *)
Definition norm2 (v : vec) : Z := vdot v v.

(** *** Float64 outcomes

    Three computations of the source are carried out in float64 with an
    outcome that depends on rounding errors: the integer [np.round(mu)] of
    [reduce_basis], where the quotient [mu] can fall on either side of a
    half-integer; the entries of [np.linalg.inv] in [get_reciprocal_vects];
    and the integer [floor(np.round(np.vdot(point, r), 12))] of
    [reduce2cell].  The embedding does not fix these outcomes: they are the
    fields of a [float_ops], every function that depends on them takes one,
    and a theorem that names no particular [float_ops] holds for all of
    them, hence for the float64 arithmetic of NumPy.

    Everything else is integer arithmetic, or float arithmetic on integers
    that NumPy carries out without error as long as the numbers stay far
    below [2^53]. *)
Record float_ops := {
  (** [np.round(p / Ba)] for the dot product [p] and the float [Ba] that
      stands for the squared norm [q] *)
  round_quotient : Z -> Z -> Z;
  (** the two columns of [np.linalg.inv] of the matrix of rows [va], [vb] *)
  inv_columns : vec -> vec -> (Q * Q) * (Q * Q);
  (** [int(np.floor(np.round(np.vdot(point, r), 12)))] *)
  floor_dot : vec -> Q * Q -> Z
}.

(** [np.vdot(point, r)] without rounding error. *)
Definition qdot (p : vec) (r : Q * Q) : Q :=
  (inject_Z (fst p) * fst r + inject_Z (snd p) * snd r)%Q.

(** The float operations carried out without rounding error. *)
Definition exact_ops : float_ops :=
  {| round_quotient p q := np_round (inject_Z p / inject_Z q);
     inv_columns va vb :=
       let d := inject_Z (cross va vb) in
       ((inject_Z (snd vb) / d, inject_Z (- fst vb) / d)%Q,
        (inject_Z (- snd va) / d, inject_Z (fst va) / d)%Q);
     floor_dot p r := Qfloor (qdot p r) |}.

(** [mu = np.vdot(va, vb) / Ba; vb - np.round(mu) * va] *)
Definition size_reduce (fl : float_ops) (va vb : vec) (Ba : Z) : vec :=
  vsub vb (vscale (round_quotient fl (vdot va vb) Ba) va).

(** What [reduce_basis] hands back: a pair of vectors, or arrays holding
    NaN when a division by a zero norm occurred. *)
Inductive reduced : Type :=
| Reduced (va vb : vec)
| NotANumber.

(** The state of the [while Bb < Ba] loop. *)
Record reduce_state := {
  rs_va : vec;
  rs_vb : vec;
  rs_Ba : Z;
  rs_Bb : Z;
  rs_swapped : Z
}.

(** The loop [while Bb < Ba]; the outer [None] means that the fuel ran out,
    the inner one that a NaN appeared.  [Ba] and [Bb] are the floats
    [np.linalg.norm(v) ** 2]; for squared norms below [2^50] they compare as
    the integers do. *)
Fixpoint reduce_loop (fl : float_ops) (fuel : nat) (st : reduce_state)
  : option (option reduce_state) :=
  match fuel with
  | O => None
  | S fuel' =>
      if rs_Bb st <? rs_Ba st then
        let va := rs_vb st in
        let vb := rs_va st in
        let swapped := rs_swapped st * -1 in
        let Ba := rs_Bb st in
        if Ba =? 0 then Some None
        else
          let vb := size_reduce fl va vb Ba in
          reduce_loop fl fuel'
            {| rs_va := va; rs_vb := vb; rs_Ba := Ba; rs_Bb := norm2 vb;
               rs_swapped := swapped |}
      else Some (Some st)
  end.

(** The state on entry of the loop. *)
Definition reduce_init (fl : float_ops) (va vb : vec) : option reduce_state :=
  let Ba := norm2 va in
  if Ba =? 0 then None
  else
    let vb := size_reduce fl va vb Ba in
    Some {| rs_va := va; rs_vb := vb; rs_Ba := Ba; rs_Bb := norm2 vb;
            rs_swapped := -1 |}.

(** [if swapped == 1: va, vb = vb, va] *)
Definition reduce_finish (st : reduce_state) : reduced :=
  if rs_swapped st =? 1 then Reduced (rs_vb st) (rs_va st)
  else Reduced (rs_va st) (rs_vb st).

Definition reduce_basis (fl : float_ops) (fuel : nat) (va vb : vec)
  : option reduced :=
  match reduce_init fl va vb with
  | None => Some NotANumber
  | Some st0 =>
      match reduce_loop fl fuel st0 with
      | None => None
      | Some None => Some NotANumber
      | Some (Some st) => Some (reduce_finish st)
      end
  end.

(** Vectors with components of absolute value at most [10^6]: for them the
    dot products, cross products and squared norms formed below stay under
    [2^42], where float64 arithmetic on integers is exact, float norms
    compare as the integers do, and the rounding to 12 decimals of
    [test_in_cell] changes no comparison. *)
Definition float_safe (v : vec) : Prop :=
  Z.abs (fst v) <= 1000000 /\ Z.abs (snd v) <= 1000000.

(** The lattice spanned by [va] and [vb]. *)
Definition in_lattice (va vb p : vec) : Prop :=
  exists n m : Z, p = vadd (vscale n va) (vscale m vb).

Definition same_lattice (va vb va' vb' : vec) : Prop :=
  forall p, in_lattice va vb p <-> in_lattice va' vb' p.

End Basis.

(** ** Unit cells *)

Module UnitCell.
Import Basis.

(** A lattice vector as it is passed in: a list or array of Python numbers. *)
Definition qvec := (Q * Q)%type.

(** [np.array(v, dtype=int)] *)
Definition to_int_vec (v : qvec) : vec := (trunc (fst v), trunc (snd v)).

Definition of_int_vec (v : vec) : qvec := (inject_Z (fst v), inject_Z (snd v)).

Definition cell_array := list (list cellval).

(** The local function [line] of [test_in_cell]: the height at [x] of the
    line through [p1] and [p2]. *)
Definition line (x : Z) (p1 p2 : vec) : Q :=
  (inject_Z ((snd p2 - snd p1) * x + snd p1 * fst p2 - fst p1 * snd p2)
   / inject_Z (fst p2 - fst p1))%Q.

(** The four comparisons of a point with the pair of parallel lines
    [0 -> v] and [w -> v + w].  The source rounds the heights of the lines
    to 12 decimals before it compares them; two heights that differ do so
    by at least [1 / |v_x|], so for vectors that are [float_safe] the
    rounding changes no comparison and is left out. *)
Definition side_tests (x y : Z) (v w : vec) : bool * bool * bool * bool :=
  if negb (fst v =? 0) then
    (Qlt_bool (inject_Z y) (line x (0, 0) v),
     Qeq_bool (line x (0, 0) v) (inject_Z y),
     Qlt_bool (inject_Z y) (line x w (vadd v w)),
     Qeq_bool (line x w (vadd v w)) (inject_Z y))
  else
    (x >? 0, x =? 0, x >? fst w, x =? fst w).

Definition in_strip (x y : Z) (v w : vec) : bool :=
  let '(gthan_1, eq_1, gthan_2, eq_2) := side_tests x y v w in
  (xorb gthan_1 gthan_2 || eq_1) && negb eq_2.

(** [test_in_cell] at the point [(x, y)]. *)
Definition test_in_cell (p : vec) (va vb : vec) : bool :=
  let in_cell_a := in_strip (fst p) (snd p) va vb in
  let in_cell_b := in_strip (fst p) (snd p) vb va in
  in_cell_a && in_cell_b.

(** The coordinates of a cell along one axis: [range(d)], moved so that the
    origin is covered. *)
Definition cell_coords (a b : Z) : list Z :=
  let d := Z.abs a + Z.abs b in
  let x := seqZ 0 d in
  if (a <? 0) && (b >=? 0) then (fun t => t + a + 1) <$> x
  else if (a >=? 0) && (b <? 0) then (fun t => t + b + 1) <$> x
  else if (a <? 0) && (b <? 0) then (fun t => t + a + b + 1) <$> x
  else x.

Definition count_non_nan (cell : cell_array) : Z :=
  Z.of_nat (length (filter (fun c => is_nan c = false) (concat cell))).

(** The test of the components at the head of [get_unit_cell]: the outer
    loop runs over [vec_a] and [vec_b], the inner one over [vec_a] both
    times. *)
Definition check_integer_components (vec_a vec_b : qvec) : result unit :=
  for_each [vec_a; vec_b] (fun vecs =>
    for_each [fst vec_a; snd vec_a] (fun v _ =>
      if negb (is_integer v) then Raise InvalidBasisNotInteger else Ok tt)) tt.

Definition get_unit_cell (vec_a vec_b : qvec)
  : result (cell_array * list Z * list Z) :=
  _ ← check_integer_components vec_a vec_b;
  let vec_a := to_int_vec vec_a in
  let vec_b := to_int_vec vec_b in
  if cross vec_a vec_b =? 0 then Raise InvalidBasisDependent
  else
    let x := cell_coords (fst vec_a) (fst vec_b) in
    let y := cell_coords (snd vec_a) (snd vec_b) in
    let cell_volume := Z.abs (fst vec_a * snd vec_b - snd vec_a * fst vec_b) in
    let cell :=
      (fun yy => (fun xx =>
         if test_in_cell (xx, yy) vec_a vec_b then Val 0 else NaN) <$> x) <$> y in
    if count_non_nan cell =? cell_volume then Ok (cell, x, y)
    else Raise AssertionError.



(** [np.nansum(concatenate((a[:, :, None], b[:, :, None]), axis=2), axis=2)]
    for two blocks of the shapes given. *)
Definition nansum_stack (sa sb : Z * Z) (a b : cell_array) : result cell_array :=
  if (fst sa =? fst sb) && (snd sa =? snd sb)
  then Ok (zip_with (zip_with cv_nansum) a b)
  else Raise ShapeMismatch.




End UnitCell.

(** ** Tiling a unit cell over the canvas *)

Module Tiler.
Import Basis UnitCell.

(** [reduce_basis] with the fuel that always suffices (the squared norm of
    the shorter vector decreases at every pass of the loop). *)
Definition reduce_basis_run (fl : float_ops) (va vb : vec) : reduced :=
  default NotANumber (reduce_basis fl (S (Z.to_nat (norm2 va))) va vb).

(** [get_reciprocal_vects] in ['frequency'] mode: the columns of the float
    inverse of the matrix of rows [vec_a], [vec_b]. *)
Definition get_reciprocal_vects (fl : float_ops) (vec_a vec_b : vec)
  : result (qvec * qvec) :=
  if cross vec_a vec_b =? 0 then Raise DegenerateReciprocalBasis
  else Ok (inv_columns fl vec_a vec_b).

Definition reduce2cell (fl : float_ops) (point va vb : vec)
  : result (vec * Z * Z) :=
  '(ra, rb) ← get_reciprocal_vects fl va vb;
  let na_out := floor_dot fl point ra in
  let nb_out := floor_dot fl point rb in
  let point_red := vsub point (vadd (vscale na_out va) (vscale nb_out vb)) in
  if test_in_cell point_red va vb then Ok (point_red, na_out, nb_out)
  else Raise AssertionError.

(** [arr[i, j] += v] for indices produced by [range]. *)
Definition add2 (arr : cell_array) (i j : nat) (v : cellval) : result cell_array :=
  match arr !! i with
  | Some r => match r !! j with
              | Some c => Ok (<[i := <[j := cv_add c v]> r]> arr)
              | None => Raise IndexError
              end
  | None => Raise IndexError
  end.

Definition lookup_range (l : list Z) (i : nat) : result Z :=
  match l !! i with
  | Some v => Ok v
  | None => Raise IndexError
  end.

Definition convert_cell (fl : float_ops) (cell1 : cell_array) (x1 y1 : list Z)
    (va1 vb1 va2 vb2 : vec) : result (cell_array * list Z * list Z) :=
  '(cell2, x2, y2) ← get_unit_cell (of_int_vec va2) (of_int_vec vb2);
  y1min ← np_min y1;
  x1min ← np_min x1;
  cell2 ← for_each (seq 0 (Z.to_nat (shape0 cell2))) (fun ii =>
             for_each (seq 0 (Z.to_nat (shape1 cell2))) (fun jj cell2 =>
               xj ← lookup_range x2 jj;
               yi ← lookup_range y2 ii;
               '(p1, _, _) ← reduce2cell fl (xj, yi) va1 vb1;
               row ← py_index cell1 (snd p1 - y1min);
               v ← py_index row (fst p1 - x1min);
               add2 cell2 ii jj v)) cell2;
  Ok (cell2, x2, y2).

(** A vector holding NaN fails the integrality test at the head of
    [convert_cell]. *)
Definition get_minimal_cell (fl : float_ops) (cell : cell_array) (x y : list Z)
    (va vb : vec) : result (cell_array * list Z * list Z * vec * vec) :=
  match reduce_basis_run fl va vb with
  | NotANumber => Raise InvalidBasisNotInteger
  | Reduced va_m vb_m =>
      '(cell_m, x_m, y_m) ← convert_cell fl cell x y va vb va_m vb_m;
      Ok (cell_m, x_m, y_m, va_m, vb_m)
  end.

Definition Qmin4 (a b c d : Q) : Q := Qmin (Qmin (Qmin a b) c) d.
Definition Qmax4 (a b c d : Q) : Q := Qmax (Qmax (Qmax a b) c) d.

(** The multiples [n] and [m] at which the corner [(cx, cy)], taken
    relative to the start coordinate, sits: [mat.dot(corner)]. *)
Definition corner_n (va vb : vec) (cx cy : Z) : Q :=
  (inject_Z (snd vb * cx - fst vb * cy) / inject_Z (cross va vb))%Q.
Definition corner_m (va vb : vec) (cx cy : Z) : Q :=
  (inject_Z (- snd va * cx + fst va * cy) / inject_Z (cross va vb))%Q.

Record tile_range := {
  na_min : Z; na_max : Z; nb_min : Z; nb_max : Z
}.

Definition tile_ranges (nx ny : Z) (va vb start : vec) : tile_range :=
  let '(sx, sy) := start in
  let n1 := corner_n va vb (nx - sx) (ny - sy) in
  let n2 := corner_n va vb (0 - sx) (ny - sy) in
  let n3 := corner_n va vb (nx - sx) (0 - sy) in
  let n4 := corner_n va vb (0 - sx) (0 - sy) in
  let m1 := corner_m va vb (nx - sx) (ny - sy) in
  let m2 := corner_m va vb (0 - sx) (ny - sy) in
  let m3 := corner_m va vb (nx - sx) (0 - sy) in
  let m4 := corner_m va vb (0 - sx) (0 - sy) in
  {| na_min := Qfloor (Qmin4 n1 n2 n3 n4);
     na_max := Qceiling (Qmax4 n1 n2 n3 n4);
     nb_min := Qfloor (Qmin4 m1 m2 m3 m4);
     nb_max := Qceiling (Qmax4 m1 m2 m3 m4) |}.

(** The body of the two nested loops over [n] and [m]: paste the cell,
    clipped to the canvas, at [n va + m vb + start]. *)
Definition paste (nx ny : Z) (va vb start : vec) (cell : cell_array)
    (x_cell y_cell : list Z) (n m : Z) (pattern : cell_array)
  : result cell_array :=
  let dy := shape0 cell in
  let dx := shape1 cell in
  let xzero := fst va * n + fst vb * m + fst start in
  let yzero := snd va * n + snd vb * m + snd start in
  xmin ← np_min x_cell;
  let xstart := xzero + xmin in
  ymin ← np_min y_cell;
  let ystart := yzero + ymin in
  let xend := xstart + dx in
  let yend := ystart + dy in
  if (xend <? 0) || (yend <? 0) || (xstart >? nx) || (ystart >? ny)
  then Ok pattern
  else
    let xstart_cell := if xstart <? 0 then - xstart else 0 in
    let xstart := if xstart <? 0 then 0 else xstart in
    let xend := if xend >? nx then nx else xend in
    let xend_cell := xstart_cell + (xend - xstart) in
    let ystart_cell := if ystart <? 0 then - ystart else 0 in
    let ystart := if ystart <? 0 then 0 else ystart in
    let yend := if yend >? ny then ny else yend in
    let yend_cell := ystart_cell + (yend - ystart) in
    summed ← nansum_stack
      (slice_len ny ystart yend, slice_len nx xstart xend)
      (slice_len dy ystart_cell yend_cell, slice_len dx xstart_cell xend_cell)
      (slice2 pattern ystart yend xstart xend)
      (slice2 cell ystart_cell yend_cell xstart_cell xend_cell);
    Ok (update_slice2 pattern ny nx ystart xstart summed).

(** [assert not np.any(np.isnan(pattern))] and the cast to [bool]. *)
Definition finish_pattern (pattern : cell_array) : result (list (list bool)) :=
  if existsb (existsb is_nan) pattern then Raise AssertionError
  else Ok (map (map (fun c => match c with Val v => negb (v =? 0) | NaN => true end))
             pattern).

(** [np.zeros((ny, nx)) * np.nan] *)
Definition nan_array (ny nx : Z) : cell_array :=
  replicate (Z.to_nat ny) (replicate (Z.to_nat nx) NaN).

(** The [else] branch of [tile_pattern]: tile directly. *)
Definition tile_direct (nx ny : Z) (va vb start : vec) (cell : cell_array)
    (x_cell y_cell : list Z) : result (list (list bool)) :=
  if (nx <? 0) || (ny <? 0) then Raise NegativeDimensions
  else if cross va vb =? 0 then Raise SingularMatrix
  else
    let r := tile_ranges nx ny va vb start in
    pattern ← for_each (rangeZ (na_min r) (na_max r + 1)) (fun n =>
                 for_each (rangeZ (nb_min r) (nb_max r + 1)) (fun m =>
                   paste nx ny va vb start cell x_cell y_cell n m))
               (nan_array ny nx);
    finish_pattern pattern.

(** The base case of [double_cell] ([na = 1], [nb = 0]): a cell twice as
    large along [vec_a]. *)
Definition double_cell_once (cell : cell_array) (x y : list Z) (vec_a vec_b : vec)
  : result (cell_array * list Z * list Z) :=
  let dyc := shape0 cell in
  let dxc := shape1 cell in
  let v2 := vscale 2 vec_a in
  let v4 := vadd (vscale 2 vec_a) vec_b in
  let corner (f : vec -> Z) := [f (0, 0); f v2; f vec_b; f v4] in
  let xlo := foldr Z.min 0 (corner fst) in
  let xhi := foldr Z.max 0 (corner fst) in
  let ylo := foldr Z.min 0 (corner snd) in
  let yhi := foldr Z.max 0 (corner snd) in
  let xs := rangeZ xlo (xhi + 1) in
  let ys := rangeZ ylo (yhi + 1) in
  let dx := Z.of_nat (length xs) in
  let dy := Z.of_nat (length ys) in
  big_cell ← for_each [0; 1] (fun n big_cell =>
      let xzero := fst vec_a * n in
      let yzero := snd vec_a * n in
      xsmin ← np_min xs;
      xmin ← np_min x;
      let istart_x := xzero - xsmin + xmin in
      ysmin ← np_min ys;
      ymin ← np_min y;
      let istart_y := yzero - ysmin + ymin in
      if (slice_len dy istart_y (istart_y + dyc) =? dyc)
         && (slice_len dx istart_x (istart_x + dxc) =? dxc)
      then
        let view := slice2 big_cell istart_y (istart_y + dyc)
                      istart_x (istart_x + dxc) in
        Ok (update_slice2 big_cell dy dx istart_y istart_x
              (zip_with (zip_with (fun b c => if is_nan c then b else c)) view cell))
      else Raise IndexError)
    (nan_array dy dx);
  Ok (big_cell, xs, ys).

Definition double_cell (cell : cell_array) (x y : list Z) (vec_a vec_b : vec)
    (na nb : Z) : result (cell_array * list Z * list Z) :=
  if negb ((na =? 1) && (nb =? 0)) then
    st ← for_each (rangeZ 0 na) (fun ii '(big_cell, xs, ys) =>
           double_cell_once big_cell xs ys (vscale (2 ^ ii) vec_a) vec_b)
         (cell, x, y);
    for_each (rangeZ 0 nb) (fun jj '(big_cell, xs, ys) =>
      double_cell_once big_cell xs ys (vscale (2 ^ jj) vec_b) (vscale (2 ^ na) vec_a))
      st
  else double_cell_once cell x y vec_a vec_b.

(** [np.max([int(np.round(np.floor(np.log2(k)) / 2)), 1])] *)
Definition doublings (k : Z) : Z :=
  Z.max (np_round (inject_Z (Z.log2 k) / 2)) 1.

(** [tile_pattern] after the optional reduction of the cell.  The recursive
    call has [do_cell_reduction=False]; the outer [None] means that the fuel
    ran out. *)
Fixpoint tile_core (fuel : nat) (nx ny : Z) (va vb start : vec) (cell : cell_array)
    (x_cell y_cell : list Z) : option (result (list (list bool))) :=
  match fuel with
  | O => None
  | S fuel' =>
      if (nx <? 0) || (ny <? 0) then Some (Raise NegativeDimensions)
      else if cross va vb =? 0 then Some (Raise SingularMatrix)
      else
        let r := tile_ranges nx ny va vb start in
        let niterations := (na_max r - na_min r) * (nb_max r - nb_min r) in
        if niterations >? 1000 then
          let na_doublings := doublings (na_max r - na_min r) in
          let nb_doublings := doublings (nb_max r - nb_min r) in
          match double_cell cell x_cell y_cell va vb na_doublings nb_doublings with
          | Raise e => Some (Raise e)
          | Ok (large_pattern, xp, yp) =>
              tile_core fuel' nx ny (vscale (2 ^ na_doublings) va)
                (vscale (2 ^ nb_doublings) vb) start large_pattern xp yp
          end
        else Some (tile_direct nx ny va vb start cell x_cell y_cell)
  end.

Definition tile_pattern (fl : float_ops) (fuel : nat) (dmd_size : Z * Z)
    (vec_a vec_b start_coord : vec)
    (cell : cell_array) (x_cell y_cell : list Z) (do_cell_reduction : bool)
  : option (result (list (list bool))) :=
  let '(nx, ny) := dmd_size in
  if do_cell_reduction then
    match get_minimal_cell fl cell x_cell y_cell vec_a vec_b with
    | Raise e => Some (Raise e)
    | Ok (cell, x_cell, y_cell, vec_a, vec_b) =>
        tile_core fuel nx ny vec_a vec_b start_coord cell x_cell y_cell
    end
  else tile_core fuel nx ny vec_a vec_b start_coord cell x_cell y_cell.


End Tiler.

(** ** The checkerboard calibration pattern *)

Module Checkerboard.

(** [np.zeros((h, w))] *)
Definition zeros (h w : Z) : list (list Z) :=
  replicate (Z.to_nat h) (replicate (Z.to_nat w) 0).

(** [np.tile(cell, [ry, rx])]; NumPy rejects a negative number of
    repetitions with a [ValueError]. *)
Definition np_tile (cell : list (list Z)) (ry rx : Z) : result (list (list Z)) :=
  if (ry <? 0) || (rx <? 0) then Raise NegativeDimensions
  else Ok (concat (replicate (Z.to_nat ry)
                     (map (fun r => concat (replicate (Z.to_nat rx) r)) cell))).

(** [checkerboard]; [n_off=None] stands for [n_off = n_on].  The division
    of the two Python integers raises when the cell is empty. *)
Definition checkerboard (dmd_size : Z * Z) (n_on : Z) (n_off : option Z)
  : result (list (list Z)) :=
  let n_off := default n_on n_off in
  let '(nx, ny) := dmd_size in
  let n_cell := n_on + n_off in
  if n_cell <? 0 then Raise NegativeDimensions
  else
    let k := slice_len n_cell 0 n_on in
    let cell := update_slice2 (zeros n_cell n_cell) n_cell n_cell 0 0
                  (replicate (Z.to_nat k) (replicate (Z.to_nat k) 1)) in
    if n_cell =? 0 then Raise ZeroDivisionError
    else
      let nx_tiles := Qceiling (inject_Z nx / inject_Z n_cell) in
      let ny_tiles := Qceiling (inject_Z ny / inject_Z n_cell) in
      mask ← np_tile cell ny_tiles nx_tiles;
      Ok (slice2 mask 0 ny 0 nx).

End Checkerboard.
(** ** Generic facts about [result] *)

Section ResultFacts.
Context {A B : Type}.

Lemma bind_ok (r : result A) (k : A -> result B) (b : B) :
    (r ≫= k) = Ok b -> exists a, r = Ok a /\ k a = Ok b.
Proof. destruct r as [a|e]; simpl; [eauto | discriminate]. Qed.

Lemma bind_never (e : error) (r : result A) (k : A -> result B) :
    r <> Raise e -> (forall a, k a <> Raise e) -> (r ≫= k) <> Raise e.
Proof. destruct r as [a|e']; simpl; [auto | congruence]. Qed.
End ResultFacts.

Lemma for_each_never {S X : Type} (e : error) (xs : list X)
    (body : X -> S -> result S) :
  (forall x s, body x s <> Raise e) ->
  forall s, for_each xs body s <> Raise e.
Proof.
  intros Hb. induction xs as [|x xs IH]; intros s; simpl; [discriminate|].
  apply bind_never; auto.
Qed.

Lemma for_each_ext {S X : Type} (xs : list X) (f g : X -> S -> result S) :
  (forall x s, x ∈ xs -> f x s = g x s) ->
  forall s, for_each xs f s = for_each xs g s.
Proof.
  induction xs as [|x xs IH]; intros Hfg s; simpl; [reflexivity|].
  rewrite Hfg by constructor.
  destruct (g x s) as [s'|]; simpl; [|reflexivity].
  apply IH. intros y t Hy. apply Hfg. now constructor.
Qed.


(** ** Arrays: slices, block assignment and entries *)

Lemma py_slice_in_range {A : Type} (l : list A) (a b : Z) :
  0 <= a <= b -> b <= Z.of_nat (length l) ->
  py_slice l a b = take (Z.to_nat (b - a)) (drop (Z.to_nat a) l).
Proof.
  intros Hab Hb. unfold py_slice, slice_bound.
  destruct (Z.ltb_spec a 0), (Z.ltb_spec b 0); try lia.
  rewrite !Z.min_l by lia. reflexivity.
Qed.

Lemma lookup_py_slice {A : Type} (l : list A) (a b : Z) (i : nat) :
  0 <= a <= b -> b <= Z.of_nat (length l) ->
  py_slice l a b !! i
  = if decide (Z.of_nat i < b - a) then l !! (Z.to_nat a + i)%nat else None.
Proof.
  intros Hab Hb. rewrite py_slice_in_range by assumption.
  case_decide.
  - rewrite lookup_take_lt by lia. apply lookup_drop.
  - apply lookup_take_ge. lia.
Qed.

Lemma lookup_assign_slice {A : Type} (l : list A) (a : nat) (blk : list A) (i : nat) :
  (a + length blk <= length l)%nat ->
  assign_slice l a blk !! i
  = if decide (a <= i < a + length blk)%nat then blk !! (i - a)%nat else l !! i.
Proof.
  intros Hfit. unfold assign_slice.
  destruct (decide (i < a)%nat) as [Hlt|Hge].
  - rewrite lookup_app_l by (rewrite length_take; lia).
    rewrite lookup_take_lt by lia. rewrite decide_False by lia. reflexivity.
  - rewrite lookup_app_r by (rewrite length_take; lia).
    rewrite length_take, Nat.min_l by lia.
    destruct (decide (i < a + length blk)%nat) as [Hin|Hout].
    + rewrite lookup_app_l by lia. rewrite decide_True by lia. reflexivity.
    + rewrite lookup_app_r by lia. rewrite lookup_drop.
      rewrite decide_False by lia. f_equal. lia.
Qed.

Lemma length_assign_slice {A : Type} (l : list A) (a : nat) (blk : list A) :
  (a + length blk <= length l)%nat -> length (assign_slice l a blk) = length l.
Proof.
  intros Hfit. unfold assign_slice.
  rewrite !length_app, length_take, length_drop. lia.
Qed.


Section ArrayFacts.
Context {A : Type}.
Implicit Types (arr blk : list (list A)) (l : list A).

(** [arr] has [H] rows of [W] entries. *)
Definition rect (H W : nat) arr : Prop :=
  length arr = H /\ Forall (fun r => length r = W) arr.

Lemma rect_row H W arr i r : rect H W arr -> arr !! i = Some r -> length r = W.
Proof.
  intros [_ Hall] Hi. rewrite Forall_forall in Hall.
  apply Hall. eapply list_elem_of_lookup_2; eauto.
Qed.

Lemma get2_Some_lt H W arr i j v :
  rect H W arr -> get2 arr i j = Some v -> (i < H)%nat /\ (j < W)%nat.
Proof.
  intros Hr Hg. unfold get2 in Hg.
  destruct (arr !! i) as [r|] eqn:Hi; simpl in Hg; [|discriminate].
  pose proof (rect_row _ _ _ _ _ Hr Hi) as Hlen.
  apply lookup_lt_Some in Hi, Hg. destruct Hr as [<- _]. lia.
Qed.

Lemma get2_is_Some H W arr i j :
  rect H W arr -> (i < H)%nat -> (j < W)%nat -> is_Some (get2 arr i j).
Proof.
  intros Hr Hi Hj. unfold get2.
  destruct (lookup_lt_is_Some_2 arr i) as [r Hrow]; [destruct Hr; lia|].
  rewrite Hrow. simpl. apply lookup_lt_is_Some_2.
  rewrite (rect_row _ _ _ _ _ Hr Hrow). exact Hj.
Qed.

Lemma rect_ext H W a b :
  rect H W a -> rect H W b ->
  (forall i j, (i < H)%nat -> (j < W)%nat -> get2 a i j = get2 b i j) ->
  a = b.
Proof.
  intros Ha Hb Hget. apply list_eq. intros i.
  destruct (decide (i < H)%nat) as [Hi|Hi].
  - destruct (lookup_lt_is_Some_2 a i) as [ra Hra]; [destruct Ha; lia|].
    destruct (lookup_lt_is_Some_2 b i) as [rb Hrb]; [destruct Hb; lia|].
    rewrite Hra, Hrb. f_equal. apply list_eq. intros j.
    pose proof (rect_row _ _ _ _ _ Ha Hra) as La.
    pose proof (rect_row _ _ _ _ _ Hb Hrb) as Lb.
    destruct (decide (j < W)%nat) as [Hj|Hj].
    + specialize (Hget i j Hi Hj). unfold get2 in Hget.
      rewrite Hra, Hrb in Hget. exact Hget.
    + rewrite !lookup_ge_None_2 by lia. reflexivity.
  - rewrite !lookup_ge_None_2 by (destruct Ha, Hb; lia). reflexivity.
Qed.

Lemma slice_len_in_range (len a b : Z) :
  0 <= a <= b -> b <= len -> slice_len len a b = b - a.
Proof.
  intros Hab Hb. unfold slice_len, slice_bound.
  destruct (Z.ltb_spec a 0), (Z.ltb_spec b 0); lia.
Qed.

Lemma slice_bound_in_range (len a : Z) : 0 <= a <= len -> slice_bound len a = a.
Proof. intros Ha. unfold slice_bound. destruct (Z.ltb_spec a 0); lia. Qed.

Lemma rect_slice2 H W arr (y0 y1 x0 x1 : Z) :
  rect H W arr ->
  0 <= y0 <= y1 -> y1 <= Z.of_nat H -> 0 <= x0 <= x1 -> x1 <= Z.of_nat W ->
  rect (Z.to_nat (y1 - y0)) (Z.to_nat (x1 - x0)) (slice2 arr y0 y1 x0 x1).
Proof.
  intros Hr Hy Hy1 Hx Hx1. pose proof Hr as [Hlen Hall]. unfold slice2. split.
  - rewrite length_map, py_slice_in_range, length_take, length_drop by lia. lia.
  - apply Forall_forall. intros r Hin.
    change (map ?f ?l) with (f <$> l) in Hin.
    apply list_elem_of_fmap in Hin as (r0 & -> & Hr0).
    rewrite py_slice_in_range in Hr0 by lia.
    apply list_elem_of_lookup in Hr0 as [i Hr0].
    apply lookup_take_Some in Hr0 as [Hr0 _]. rewrite lookup_drop in Hr0.
    pose proof (rect_row _ _ _ _ _ Hr Hr0) as Hlen0.
    rewrite py_slice_in_range, length_take, length_drop by lia. lia.
Qed.

Lemma get2_slice2 H W arr (y0 y1 x0 x1 : Z) (i j : nat) :
  rect H W arr ->
  0 <= y0 <= y1 -> y1 <= Z.of_nat H -> 0 <= x0 <= x1 -> x1 <= Z.of_nat W ->
  Z.of_nat i < y1 - y0 -> Z.of_nat j < x1 - x0 ->
  get2 (slice2 arr y0 y1 x0 x1) i j
  = get2 arr (Z.to_nat y0 + i) (Z.to_nat x0 + j).
Proof.
  intros Hr Hy Hy1 Hx Hx1 Hi Hj. pose proof Hr as [Hlen Hall].
  unfold get2, slice2.
  change (map ?f ?l) with (f <$> l). rewrite list_lookup_fmap.
  rewrite lookup_py_slice by lia. rewrite decide_True by lia.
  destruct (arr !! (Z.to_nat y0 + i)%nat) as [r|] eqn:Hrow; simpl; [|reflexivity].
  pose proof (rect_row _ _ _ _ _ Hr Hrow) as Hlenr.
  rewrite lookup_py_slice by lia. rewrite decide_True by lia. reflexivity.
Qed.

Lemma rect_assign_slice2 H W h w arr blk (y0 x0 : nat) :
  rect H W arr -> rect h w blk ->
  (y0 + h <= H)%nat -> (x0 + w <= W)%nat ->
  rect H W (assign_slice2 arr y0 x0 blk).
Proof.
  intros Hr Hb Hy Hx. pose proof Hr as [Hlen Hall]. pose proof Hb as [Hlenb Hallb].
  unfold assign_slice2.
  assert (Hzl : length (zip_with (fun r b => assign_slice r x0 b)
                          (take (length blk) (drop y0 arr)) blk) = h).
  { rewrite length_zip_with, length_take, length_drop. lia. }
  split.
  - rewrite length_assign_slice; [exact Hlen | rewrite Hzl; lia].
  - apply Forall_forall. intros r Hin.
    apply list_elem_of_lookup in Hin as [i Hi].
    rewrite lookup_assign_slice in Hi by (rewrite Hzl; lia).
    case_decide as Hc.
    + apply lookup_zip_with_Some in Hi as (r0 & b & -> & Hr0 & Hb0).
      rewrite lookup_take_lt in Hr0 by (apply lookup_lt_Some in Hb0; lia).
      rewrite lookup_drop in Hr0.
      rewrite length_assign_slice;
        rewrite (rect_row _ _ _ _ _ Hr Hr0), ?(rect_row _ _ _ _ _ Hb Hb0); lia.
    + eapply rect_row; eauto.
Qed.

Lemma get2_assign_slice2 H W h w arr blk (y0 x0 i j : nat) :
  rect H W arr -> rect h w blk ->
  (y0 + h <= H)%nat -> (x0 + w <= W)%nat ->
  (i < H)%nat -> (j < W)%nat ->
  get2 (assign_slice2 arr y0 x0 blk) i j
  = if decide ((y0 <= i < y0 + h)%nat /\ (x0 <= j < x0 + w)%nat)
    then get2 blk (i - y0) (j - x0) else get2 arr i j.
Proof.
  intros Hr Hb Hy Hx Hi Hj. pose proof Hr as [Hlen Hall]. pose proof Hb as [Hlenb Hallb].
  unfold get2 at 1. unfold assign_slice2.
  assert (Hzl : length (zip_with (fun r b => assign_slice r x0 b)
                          (take (length blk) (drop y0 arr)) blk) = h).
  { rewrite length_zip_with, length_take, length_drop. lia. }
  rewrite lookup_assign_slice by (rewrite Hzl; lia). rewrite Hzl.
  destruct (decide (y0 <= i < y0 + h)%nat) as [Hin|Hout].
  - destruct (lookup_lt_is_Some_2 blk (i - y0)) as [b Hb0]; [lia|].
    destruct (lookup_lt_is_Some_2 arr i) as [r Hr0]; [lia|].
    rewrite lookup_zip_with, lookup_take_lt, lookup_drop by lia.
    replace (y0 + (i - y0))%nat with i by lia. rewrite Hr0, Hb0. simpl.
    pose proof (rect_row _ _ _ _ _ Hr Hr0). pose proof (rect_row _ _ _ _ _ Hb Hb0).
    rewrite lookup_assign_slice by lia.
    unfold get2. rewrite Hb0, Hr0. simpl.
    repeat case_decide; try lia; reflexivity.
  - rewrite decide_False by lia. reflexivity.
Qed.

End ArrayFacts.

Lemma get2_zip_with2 {A B C : Type} (f : A -> B -> C) a b i j :
  get2 (zip_with (zip_with f) a b) i j
  = x ← get2 a i j; y ← get2 b i j; Some (f x y).
Proof.
  unfold get2. rewrite lookup_zip_with.
  destruct (a !! i) as [ra|]; simpl; [|reflexivity].
  destruct (b !! i) as [rb|]; simpl.
  - rewrite lookup_zip_with. reflexivity.
  - destruct (ra !! j); reflexivity.
Qed.

Lemma rect_zip_with2 {A B C : Type} (f : A -> B -> C) H W a b :
  rect H W a -> rect H W b -> rect H W (zip_with (zip_with f) a b).
Proof.
  intros [Ha Hra] [Hb Hrb]. split.
  - rewrite length_zip_with. lia.
  - apply Forall_forall. intros r Hin. apply list_elem_of_lookup in Hin as [i Hi].
    apply lookup_zip_with_Some in Hi as (ra & rb & -> & H1 & H2).
    rewrite length_zip_with.
    rewrite Forall_forall in Hra. rewrite Forall_forall in Hrb.
    rewrite (Hra ra), (Hrb rb) by (eapply list_elem_of_lookup_2; eauto). lia.
Qed.

Lemma rect_fmap2 {A B : Type} (f : A -> B) H W a :
  rect H W a -> rect H W (map (map f) a).
Proof.
  intros [Ha Hra]. split; [now rewrite length_map|].
  apply Forall_forall. intros r Hin.
  change (map ?g ?l) with (g <$> l) in Hin.
  apply list_elem_of_fmap in Hin as (r0 & -> & Hr0).
  rewrite length_map. rewrite Forall_forall in Hra. auto.
Qed.

Lemma get2_fmap2 {A B : Type} (f : A -> B) a i j :
  get2 (map (map f) a) i j = f <$> get2 a i j.
Proof.
  unfold get2. change (map (map f) a) with (map f <$> a).
  rewrite list_lookup_fmap. destruct (a !! i) as [r|]; simpl; [|reflexivity].
  change (map f r) with (f <$> r). apply list_lookup_fmap.
Qed.
(** ** Binarization: the range guard and the error diffusion kernel *)

Module BinarizeFacts.
Import Binarize.

Lemma range_guard_false (a : garray) : range_guard a = false.
Proof. unfold range_guard. destruct (np_any a); reflexivity. Qed.

Lemma aget_never e a i j : e <> IndexError -> aget a i j <> Raise e.
Proof.
  intros He. unfold aget.
  destruct (a !! i) as [r|]; [destruct (r !! j)|]; congruence.
Qed.

Lemma aadd_never e a i j q : e <> IndexError -> aadd a i j q <> Raise e.
Proof.
  intros He. unfold aadd.
  destruct (a !! i) as [r|]; [destruct (r !! j)|]; congruence.
Qed.

Lemma when_never {S : Type} e c (k : S -> result S) s :
  (forall s, k s <> Raise e) -> when c k s <> Raise e.
Proof. intros Hk. unfold when. destruct c; [apply Hk | discriminate]. Qed.

Create HintDb never.
#[local] Hint Resolve aget_never aadd_never : never.
#[local] Ltac never_tac :=
  repeat first
    [ apply bind_never; [|intros ?]
    | apply when_never; intros ?
    | solve [auto with never]
    | discriminate ].

Lemma fs_step_never e ny nx ii jj st :
  e <> IndexError -> fs_step ny nx ii jj st <> Raise e.
Proof. intros He. unfold fs_step. destruct st as [g b]. never_tac. Qed.

Lemma floyd_steinberg_never e a :
  e <> IndexError -> floyd_steinberg a <> Raise e.
Proof.
  intros He. unfold floyd_steinberg.
  apply bind_never.
  - apply for_each_never. intros ii s.
    apply for_each_never. intros jj s'. now apply fs_step_never.
  - intros [g b]. discriminate.
Qed.

Lemma jjn_inner_never e ny nx ii jj st :
  e <> IndexError -> jjn_inner ny nx ii jj st <> Raise e.
Proof. intros He. unfold jjn_inner. never_tac. Qed.

Lemma jjn_tail_never e ny ii st :
  e <> IndexError -> e <> UnboundLocalError -> jjn_tail ny ii st <> Raise e.
Proof.
  intros He He'. unfold jjn_tail.
  destruct (ii <? ny - 2)%nat; [|discriminate].
  destruct (jjn_last st) as [[jj err]|]; [|congruence].
  never_tac.
Qed.

Lemma jjn_never e a :
  e <> IndexError -> e <> UnboundLocalError -> jjn a <> Raise e.
Proof.
  intros He He'. unfold jjn.
  apply bind_never; [|discriminate].
  apply for_each_never. intros ii s.
  apply bind_never.
  - apply for_each_never. intros jj s'. now apply jjn_inner_never.
  - intros s'. now apply jjn_tail_never.
Qed.

(** On a square array the guards of the source agree with the kernel of the
    specification. *)
Lemma fs_step_square n ii jj st :
  fs_step n n ii jj st = fs_step_spec n n ii jj st.
Proof.
  unfold fs_step, fs_step_spec. destruct st as [g b].
  destruct (aget g ii jj) as [v|]; simpl; [|reflexivity].
  replace (jj <? n - 1)%nat with (jj + 1 <? n)%nat
    by (destruct (Nat.ltb_spec (jj + 1) n), (Nat.ltb_spec jj (n - 1)); lia).
  replace (ii <? n - 1)%nat with (ii + 1 <? n)%nat
    by (destruct (Nat.ltb_spec (ii + 1) n), (Nat.ltb_spec ii (n - 1)); lia).
  set (err := (v - bool_to_Q (quantize v))%Q).
  destruct (when (jj + 1 <? n)%nat _ g) as [g1|]; simpl; [|reflexivity].
  destruct (ii + 1 <? n)%nat; simpl; [|reflexivity].
  destruct (when (0 <? jj)%nat _ g1) as [g2|]; simpl; [|reflexivity].
  destruct (aadd g2 (ii + 1) jj _) as [g3|]; simpl; [|reflexivity].
  reflexivity.
Qed.

Lemma floyd_steinberg_square (a : garray) :
  shape0 a = shape1 a -> floyd_steinberg a = floyd_steinberg_spec a.
Proof.
  intros Hsq. unfold floyd_steinberg, floyd_steinberg_spec. rewrite <- Hsq.
  f_equal. apply for_each_ext. intros ii s _.
  apply for_each_ext. intros jj s' _. apply fs_step_square.
Qed.

(** A 2 by 3 and a 3 by 2 gray scale pattern; every entry and every error
    term is a dyadic rational, so the float computation is exact. *)
Definition wide_pattern : garray :=
  [[0; 1 # 2; 0]; [0; 0; 5 # 16]]%Q.
Definition tall_pattern : garray :=
  [[1 # 2; 1 # 2]; [1 # 2; 1 # 2]; [1 # 2; 1 # 2]]%Q.

(** C9 (the source departs from the claim): on the 2 by 3 pattern the pixel
    (0, 1) has its lower right neighbour (1, 2) inside the array, yet the
    source guards that term with [jj < ny - 1] and drops it, so the result
    differs from the Floyd-Steinberg kernel of the claim; on the 3 by 2
    pattern the same guard lets the term through for a neighbour outside
    the array and the call ends in an [IndexError]. *)
Theorem C9_floyd_steinberg_lower_right_guard :
  floyd_steinberg wide_pattern
    = Ok [[false; false; false]; [false; false; false]] /\
  floyd_steinberg_spec wide_pattern
    = Ok [[false; false; false]; [false; false; true]] /\
  floyd_steinberg tall_pattern = Raise IndexError /\
  floyd_steinberg_spec tall_pattern
    = Ok [[false; true]; [true; false]; [false; true]].
Proof. repeat split; vm_compute; reflexivity. Qed.

(** C10: the guard of [binarize] is false for every array, so the
    out-of-range error is never raised, whatever the mode and the values. *)
Theorem C10_binarize_never_rejects_values draw (pattern_gray : garray) mode :
  range_guard pattern_gray = false /\
  binarize draw pattern_gray mode <> Raise PatternValuesOutOfRange.
Proof.
  split; [apply range_guard_false|].
  unfold binarize. rewrite range_guard_false.
  destruct (String.eqb mode "floyd-steinberg");
    [apply floyd_steinberg_never; discriminate|].
  destruct (String.eqb mode "jjn"); [apply jjn_never; discriminate|].
  destruct (String.eqb mode "random").
  { unfold random_dither. destruct (forallb _ _); discriminate. }
  destruct (String.eqb mode "round"); discriminate.
Qed.

Example binarize_accepts_out_of_range draw :
  binarize draw [[2; -3]]%Q "round" = Ok [[true; true]].
Proof. reflexivity. Qed.

End BinarizeFacts.

(** ** Rational approximation: the recorded sequence *)

Module RationalApproxFacts.
Import RationalApprox.

Lemma closer_chain_nil slope : closer_chain slope [].
Proof. intros i f g Hf. rewrite lookup_nil in Hf. discriminate. Qed.

Lemma closer_chain_snoc slope sq g :
  closer_chain slope sq ->
  (forall best, last sq = Some best -> at_least_as_close slope best g) ->
  closer_chain slope (sq ++ [g]).
Proof.
  intros Hc Hlast i f g' Hf Hg.
  destruct (decide (S i < length sq)%nat) as [Hlt|Hge].
  - rewrite lookup_app_l in Hf by lia. rewrite lookup_app_l in Hg by lia.
    eapply Hc; eauto.
  - assert (Hi : S i = length sq).
    { apply lookup_lt_Some in Hg. rewrite length_app in Hg. simpl in Hg. lia. }
    rewrite lookup_app_l in Hf by lia.
    rewrite lookup_app_r in Hg by lia.
    rewrite Hi, Nat.sub_diag in Hg. simpl in Hg. injection Hg as <-.
    apply Hlast. rewrite last_lookup, <- Hi. exact Hf.
Qed.

Lemma record_bound_chain slope sq f :
  closer_chain slope sq -> closer_chain slope (record_bound slope sq f).
Proof.
  intros Hc. unfold record_bound.
  destruct (last sq) as [best|] eqn:Hl.
  - destruct (dist slope f <=? dist slope best)%float eqn:Hle; [|exact Hc].
    apply closer_chain_snoc; [exact Hc|].
    intros b Hb. rewrite Hl in Hb. injection Hb as <-. now left.
  - apply closer_chain_snoc; [exact Hc|]. intros b Hb. congruence.
Qed.

Lemma record_bound_Forall (P : fraction -> Prop) slope sq f :
  Forall P sq -> P f -> Forall P (record_bound slope sq f).
Proof.
  intros Hsq Hf. unfold record_bound.
  destruct (last sq); [destruct (_ <=? _)%float|]; auto;
    apply Forall_app; auto.
Qed.

(** The invariant of the loop: both bounds are fractions in [0, 1] with a
    positive denominator, every recorded fraction has a denominator below
    [nmax], and the recorded sequence gets no farther from [slope]. *)
Record farey_inv (slope : float) (nmax : Z) (st : farey_state) : Prop := {
  inv_lb : 0 <= fst (fr_lb st) <= snd (fr_lb st) /\ 1 <= snd (fr_lb st);
  inv_ub : 0 <= fst (fr_ub st) <= snd (fr_ub st) /\ 1 <= snd (fr_ub st);
  inv_seq : Forall (fun f => 0 <= fst f <= snd f /\ snd f < nmax)
              (approximate_seq st);
  inv_chain : closer_chain slope (approximate_seq st)
}.

Lemma farey_init_inv slope nmax : farey_inv slope nmax farey_init.
Proof.
  split; simpl; try lia; [constructor | apply closer_chain_nil].
Qed.

Lemma farey_step_inv slope nmax st :
  farey_inv slope nmax st ->
  snd (fr_lb st) + snd (fr_ub st) < nmax ->
  farey_inv slope nmax (farey_step slope st).
Proof.
  intros [Hlb Hub Hseq Hch] Hlt. unfold farey_step.
  set (m := (fst (fr_lb st) + fst (fr_ub st), snd (fr_lb st) + snd (fr_ub st))).
  assert (Hm : 0 <= fst m <= snd m /\ snd m < nmax) by (simpl; lia).
  destruct (frac m =? slope)%float eqn:Heq.
  - assert (Hch1 : closer_chain slope (approximate_seq st ++ [m])).
    { apply closer_chain_snoc; [exact Hch|]. intros best _. now right. }
    assert (Hseq1 : Forall (fun f => 0 <= fst f <= snd f /\ snd f < nmax)
              (approximate_seq st ++ [m])) by (apply Forall_app; auto).
    destruct (slope <? frac m)%float; split; simpl; try lia;
      auto using record_bound_Forall, record_bound_chain.
  - destruct (slope <? frac m)%float; split; simpl; try lia;
      auto using record_bound_Forall, record_bound_chain.
Qed.

Lemma farey_step_denominators slope nmax st :
  farey_inv slope nmax st ->
  snd (fr_lb st) + snd (fr_ub st) + 1
    <= snd (fr_lb (farey_step slope st)) + snd (fr_ub (farey_step slope st)).
Proof.
  intros [Hlb Hub _ _]. unfold farey_step.
  destruct (_ =? slope)%float, (slope <? _)%float; simpl; lia.
Qed.

Lemma farey_loop_inv slope nmax fuel : forall st st',
  farey_inv slope nmax st ->
  farey_loop fuel slope nmax st = Some st' ->
  farey_inv slope nmax st'.
Proof.
  induction fuel as [|fuel IH]; intros st st' Hinv Hrun; simpl in Hrun;
    [discriminate|].
  destruct (Z.geb_spec (snd (fr_lb st) + snd (fr_ub st)) nmax) as [Hge|Hlt].
  - injection Hrun as <-. exact Hinv.
  - eapply IH; [|exact Hrun]. now apply farey_step_inv.
Qed.

(** The loop stops: the denominator of the mediant grows at every pass. *)
Lemma farey_loop_terminates slope nmax fuel : forall st,
  farey_inv slope nmax st ->
  (Z.to_nat (nmax - (snd (fr_lb st) + snd (fr_ub st))) < fuel)%nat ->
  exists st', farey_loop fuel slope nmax st = Some st'.
Proof.
  induction fuel as [|fuel IH]; intros st Hinv Hfuel; [lia|]. simpl.
  destruct (Z.geb_spec (snd (fr_lb st) + snd (fr_ub st)) nmax) as [Hge|Hlt];
    [eauto|].
  apply IH; [now apply farey_step_inv|].
  pose proof (farey_step_denominators slope nmax st Hinv). lia.
Qed.

Lemma record_bound_nonempty slope sq f : record_bound slope sq f <> [].
Proof.
  unfold record_bound. destruct (last sq) as [best|] eqn:Hl.
  - assert (sq <> []) by (intros ->; discriminate).
    destruct (_ <=? _)%float; [|assumption].
    intros E. now apply app_eq_nil in E as [_ ?].
  - intros E. now apply app_eq_nil in E as [_ ?].
Qed.

Lemma farey_step_nonempty slope st : approximate_seq (farey_step slope st) <> [].
Proof.
  unfold farey_step.
  destruct (slope <? _)%float; simpl; apply record_bound_nonempty.
Qed.

Lemma farey_loop_nonempty slope nmax fuel : forall st st',
  approximate_seq st <> [] ->
  farey_loop fuel slope nmax st = Some st' -> approximate_seq st' <> [].
Proof.
  induction fuel as [|fuel IH]; intros st st' Hne; [discriminate|]. simpl.
  destruct (_ >=? nmax); [now intros [= <-]|].
  apply IH. apply farey_step_nonempty.
Qed.





(** The run of the search: with a fuel above [nmax] it stops, recording
    nothing exactly when [nmax <= 2]. *)
Lemma farey_search_run fuel slope nmax :
  (Z.to_nat nmax < fuel)%nat ->
  exists sq, farey_search fuel slope nmax = Some sq /\
    Forall (fun f => 0 <= fst f <= snd f /\ snd f < nmax) sq /\
    closer_chain slope sq /\
    (sq = [] <-> nmax <= 2).
Proof.
  intros Hfuel. unfold farey_search.
  destruct (farey_loop_terminates slope nmax fuel farey_init
              (farey_init_inv slope nmax)) as [st Hst]; [simpl; lia|].
  pose proof (farey_loop_inv _ _ _ _ _ (farey_init_inv slope nmax) Hst)
    as [_ _ Hseq Hch].
  rewrite Hst. simpl. eexists. split; [reflexivity|].
  split; [exact Hseq|]. split; [exact Hch|].
  destruct fuel as [|fuel]; [lia|]. simpl in Hst.
  destruct (Z.geb_spec (1 + 1) nmax) as [Hge|Hlt].
  - injection Hst as <-. simpl. split; [lia | reflexivity].
  - split; [|lia]. intros E. exfalso.
    eapply farey_loop_nonempty; [|exact Hst|exact E].
    apply farey_step_nonempty.
Qed.





End RationalApproxFacts.

(** ** Basis reduction: termination, determinant and lattice *)

Module BasisFacts.
Import Basis.

Lemma cross_size_reduce fl va vb Ba :
  cross va (size_reduce fl va vb Ba) = cross va vb.
Proof. unfold size_reduce, cross, vsub, vscale. simpl. ring. Qed.

Lemma cross_swap a b : cross b a = - cross a b.
Proof. unfold cross. ring. Qed.

Lemma norm2_nonneg v : 0 <= norm2 v.
Proof. unfold norm2, vdot. nia. Qed.

Lemma norm2_zero v : norm2 v = 0 -> v = (0, 0).
Proof.
  destruct v as [x y]. unfold norm2, vdot. simpl. intros H.
  assert (x = 0) by nia. assert (y = 0) by nia. congruence.
Qed.

Lemma norm2_zero_cross_l a b : norm2 a = 0 -> cross a b = 0.
Proof. intros H. rewrite (norm2_zero _ H). unfold cross. simpl. ring. Qed.

Lemma norm2_zero_cross_r a b : norm2 b = 0 -> cross a b = 0.
Proof. intros H. rewrite (norm2_zero _ H). unfold cross. simpl. ring. Qed.

Lemma vec_eq (a b : vec) : fst a = fst b -> snd a = snd b -> a = b.
Proof. destruct a, b. simpl. congruence. Qed.

Lemma in_lattice_swap va vb p : in_lattice va vb p <-> in_lattice vb va p.
Proof.
  split; intros (n & m & ->); exists m, n; apply vec_eq; simpl; ring.
Qed.

Lemma in_lattice_shear va vb k p :
  in_lattice va (vsub vb (vscale k va)) p <-> in_lattice va vb p.
Proof.
  split; intros (n & m & ->).
  - exists (n - m * k), m. apply vec_eq; simpl; ring.
  - exists (n + m * k), m. apply vec_eq; simpl; ring.
Qed.

Lemma same_lattice_refl va vb : same_lattice va vb va vb.
Proof. intros p. reflexivity. Qed.

Lemma same_lattice_trans a b a' b' a'' b'' :
  same_lattice a b a' b' -> same_lattice a' b' a'' b'' -> same_lattice a b a'' b''.
Proof. intros H1 H2 p. rewrite (H1 p). apply H2. Qed.

(** What the loop maintains, for the input pair [va0], [vb0]. *)
Record reduce_inv (va0 vb0 : vec) (st : reduce_state) : Prop := {
  ri_Ba : rs_Ba st = norm2 (rs_va st);
  ri_Bb : rs_Bb st = norm2 (rs_vb st);
  ri_swapped : rs_swapped st = 1 \/ rs_swapped st = -1;
  ri_cross : cross (rs_va st) (rs_vb st) = - rs_swapped st * cross va0 vb0;
  ri_lattice : same_lattice va0 vb0 (rs_va st) (rs_vb st)
}.

Lemma reduce_init_inv fl va vb :
  cross va vb <> 0 ->
  exists st, reduce_init fl va vb = Some st /\ reduce_inv va vb st /\
             rs_Ba st = norm2 va.
Proof.
  intros Hc. unfold reduce_init.
  destruct (Z.eqb_spec (norm2 va) 0) as [H0|H0].
  { exfalso. apply Hc. now apply norm2_zero_cross_l. }
  eexists. split; [reflexivity|]. split; [|reflexivity].
  split; simpl; auto.
  - rewrite cross_size_reduce. ring.
  - intros p. symmetry. apply in_lattice_shear.
Qed.

Lemma reduce_loop_total fl va0 vb0 (Hc : cross va0 vb0 <> 0) fuel : forall st,
  reduce_inv va0 vb0 st ->
  (Z.to_nat (rs_Ba st) < fuel)%nat ->
  exists st', reduce_loop fl fuel st = Some (Some st') /\
              reduce_inv va0 vb0 st' /\ rs_Ba st' <= rs_Bb st'.
Proof.
  induction fuel as [|fuel IH]; intros st Hinv Hfuel; [lia|].
  destruct Hinv as [HBa HBb Hsw Hcr Hlat]. simpl.
  destruct (Z.ltb_spec (rs_Bb st) (rs_Ba st)) as [Hlt|Hge].
  - assert (Hnz : rs_Bb st <> 0).
    { intros H0. rewrite HBb in H0.
      apply (norm2_zero_cross_r (rs_va st)) in H0. rewrite Hcr in H0.
      destruct Hsw as [Hs | Hs]; rewrite Hs in H0; lia. }
    destruct (Z.eqb_spec (rs_Bb st) 0) as [?|_]; [contradiction|].
    apply IH.
    + split; simpl; auto.
      * lia.
      * rewrite cross_size_reduce, cross_swap, Hcr. ring.
      * eapply same_lattice_trans; [exact Hlat|].
        intros p. unfold size_reduce. rewrite in_lattice_shear.
        apply in_lattice_swap.
    + cbn [rs_Ba]. pose proof (norm2_nonneg (rs_vb st)). lia.
  - exists st. split; [reflexivity|]. split; [split; auto | lia].
Qed.

(** The outcome of the loop does not depend on the fuel. *)
Lemma reduce_loop_fuel fl f1 : forall f2 s r1 r2,
  reduce_loop fl f1 s = Some r1 -> reduce_loop fl f2 s = Some r2 -> r1 = r2.
Proof.
  induction f1 as [|f1 IH]; intros f2 s r1 r2 H1 H2; [discriminate|].
  destruct f2 as [|f2]; [discriminate|]. simpl in H1, H2.
  destruct (rs_Bb s <? rs_Ba s); [|congruence].
  destruct (rs_Bb s =? 0); [congruence|]. eapply IH; eauto.
Qed.

Lemma reduce_finish_cross va0 vb0 st va' vb' :
  reduce_inv va0 vb0 st -> reduce_finish st = Reduced va' vb' ->
  cross va' vb' = cross va0 vb0 /\ same_lattice va0 vb0 va' vb'.
Proof.
  intros [_ _ Hsw Hcr Hlat]. unfold reduce_finish.
  destruct Hsw as [Hs | Hs]; rewrite Hs in *; simpl; intros [= <- <-].
  - split; [rewrite cross_swap, Hcr; ring|].
    intros p. rewrite (Hlat p). apply in_lattice_swap.
  - split; [rewrite Hcr; ring | exact Hlat].
Qed.

(** The run of [reduce_basis] on a pair with nonzero cross product: the
    state [st0] on entry of the loop, the state [st] at its exit, reached
    with any fuel above the squared norm of [va], and the pair returned. *)
Lemma reduce_basis_exit fl va vb :
  cross va vb <> 0 ->
  exists st0 st,
    reduce_init fl va vb = Some st0 /\
    (forall fuel, (Z.to_nat (norm2 va) < fuel)%nat ->
       reduce_loop fl fuel st0 = Some (Some st) /\
       reduce_basis fl fuel va vb = Some (reduce_finish st)) /\
    reduce_inv va vb st /\ reduce_inv va vb st0 /\
    norm2 (rs_va st) <= norm2 (rs_vb st).
Proof.
  intros Hc.
  destruct (reduce_init_inv fl va vb Hc) as (st0 & Hinit & Hinv0 & HBa0).
  destruct (reduce_loop_total fl va vb Hc (S (Z.to_nat (norm2 va))) st0 Hinv0)
    as (st & Hloop & Hinv & Hord); [rewrite HBa0; lia|].
  exists st0, st. split; [exact Hinit|]. split; [|split; [exact Hinv|split]].
  - intros fuel Hfuel.
    destruct (reduce_loop_total fl va vb Hc fuel st0 Hinv0) as (st1 & Hloop1 & _);
      [rewrite HBa0; lia|].
    pose proof (reduce_loop_fuel fl _ _ _ _ _ Hloop Hloop1) as [= <-].
    split; [exact Hloop1|]. unfold reduce_basis. now rewrite Hinit, Hloop1.
  - exact Hinv0.
  - destruct Hinv as [HBa HBb _ _ _]. now rewrite <- HBa, <- HBb.
Qed.

(** C1 (as amended): for a pair with nonzero cross product and components
    of absolute value at most [10^6], and whatever the rounding of [mu]
    gives, the loop stops (any fuel above the squared norm of [va]
    suffices) in a state [st] whose first vector is no longer than the
    second.  The returned pair has the determinant of the input and spans
    the same lattice; it is the pair of [st] when the flag [swapped] is
    [-1] at the exit, and then [|va'| <= |vb'|], and the exchanged pair
    when the flag is [1], and then [|vb'| <= |va'|]. *)
Theorem C1_reduce_basis_terminates_same_lattice fl va vb :
  cross va vb <> 0 -> float_safe va -> float_safe vb ->
  exists st0 st va' vb',
    reduce_init fl va vb = Some st0 /\
    (forall fuel, (Z.to_nat (norm2 va) < fuel)%nat ->
       reduce_loop fl fuel st0 = Some (Some st) /\
       reduce_basis fl fuel va vb = Some (Reduced va' vb')) /\
    cross va' vb' = cross va vb /\
    same_lattice va vb va' vb' /\
    norm2 (rs_va st) <= norm2 (rs_vb st) /\
    (rs_swapped st = -1 /\ va' = rs_va st /\ vb' = rs_vb st /\
     norm2 va' <= norm2 vb'
     \/
     rs_swapped st = 1 /\ va' = rs_vb st /\ vb' = rs_va st /\
     norm2 vb' <= norm2 va').
Proof.
  intros Hc _ _.
  destruct (reduce_basis_exit fl va vb Hc)
    as (st0 & st & Hinit & Hrun & Hinv & _ & Hord).
  destruct (reduce_finish st) as [va' vb'|] eqn:Hfin;
    [|unfold reduce_finish in Hfin; destruct (rs_swapped st =? 1); discriminate].
  destruct (reduce_finish_cross va vb st va' vb' Hinv Hfin) as [Hcr Hlat].
  exists st0, st, va', vb'.
  split; [exact Hinit|]. split; [|split; [exact Hcr|split; [exact Hlat|split]]].
  - intros fuel Hfuel. destruct (Hrun fuel Hfuel) as [Hloop Hres]. auto.
  - exact Hord.
  - destruct Hinv as [_ _ Hsw _ _]. unfold reduce_finish in Hfin.
    destruct Hsw as [Hs|Hs]; rewrite Hs in Hfin; simpl in Hfin;
      injection Hfin as <- <-; [right | left]; auto.
Qed.

Lemma C1_reduce_basis_terminates_same_lattice_witness :
  exists st0 st va' vb',
    reduce_init exact_ops (3, 3) (-9, 9) = Some st0 /\
    (forall fuel, (Z.to_nat (norm2 (3, 3)%Z) < fuel)%nat ->
       reduce_loop exact_ops fuel st0 = Some (Some st) /\
       reduce_basis exact_ops fuel (3, 3) (-9, 9) = Some (Reduced va' vb')) /\
    cross va' vb' = cross (3, 3) (-9, 9) /\
    same_lattice (3, 3) (-9, 9) va' vb' /\
    norm2 (rs_va st) <= norm2 (rs_vb st) /\
    (rs_swapped st = -1 /\ va' = rs_va st /\ vb' = rs_vb st /\
     norm2 va' <= norm2 vb'
     \/
     rs_swapped st = 1 /\ va' = rs_vb st /\ vb' = rs_va st /\
     norm2 vb' <= norm2 va').
Proof.
  apply (C1_reduce_basis_terminates_same_lattice exact_ops (3, 3) (-9, 9)).
  - vm_compute. discriminate.
  - unfold float_safe. simpl. lia.
  - unfold float_safe. simpl. lia.
Defined.

(** C1 as stated fails: for [va = (2, 0)], [vb = (0, 1)] the quotient [mu]
    is 0 at both reductions, the loop runs once, the final test exchanges
    the pair back, and the first returned vector is the longer one. *)
Lemma C1_first_vector_can_be_longer :
  reduce_basis exact_ops 10 (2, 0) (0, 1) = Some (Reduced (2, 0) (0, 1)) /\
  cross (2, 0) (0, 1) <> 0 /\
  ~ norm2 (2, 0) <= norm2 (0, 1).
Proof.
  split; [reflexivity|]. split; [discriminate|].
  unfold norm2, vdot. simpl. lia.
Qed.

End BasisFacts.

(** ** Unit cells: the membership test in integer terms *)

Module UnitCellFacts.
Import Basis UnitCell.

(** Comparisons of an integer with a quotient of integers. *)
Lemma Qlt_bool_div (y n d : Z) :
  d <> 0 ->
  Qlt_bool (inject_Z y) (inject_Z n / inject_Z d)
  = if 0 <? d then y * d <? n else n <? y * d.
Proof.
  intros Hd. unfold Qlt_bool, Qle_bool, Qdiv, Qinv, Qmult, inject_Z. simpl.
  destruct d as [|d|d]; [contradiction| |]; simpl; rewrite ?Pos.mul_1_l;
    repeat match goal with
      | |- context [Z.leb ?a ?b] => destruct (Z.leb_spec a b)
      | |- context [Z.ltb ?a ?b] => destruct (Z.ltb_spec a b)
      end; simpl; auto; lia.
Qed.

Lemma Qeq_bool_div (y n d : Z) :
  d <> 0 ->
  Qeq_bool (inject_Z n / inject_Z d) (inject_Z y) = (n =? y * d).
Proof.
  intros Hd. unfold Qeq_bool, Qdiv, Qinv, Qmult, inject_Z. simpl.
  destruct d as [|d|d]; [contradiction| |]; simpl; rewrite ?Pos.mul_1_l;
    repeat match goal with
      | |- context [Z.eqb ?a ?b] => destruct (Z.eqb_spec a b)
      end; simpl; auto; lia.
Qed.

(** [s] lies between 0 (included) and [D] (excluded), on the side of [D]. *)
Definition half_open (D s : Z) : Prop := 0 <= s < D \/ D < s <= 0.

Lemma half_open_scale k D s : 0 < k -> half_open (k * D) (k * s) <-> half_open D s.
Proof. intros Hk. unfold half_open. split; intros [H|H]; [left|right|left|right]; nia. Qed.

Lemma half_open_neg D s : half_open (- D) (- s) <-> half_open D s.
Proof. unfold half_open. lia. Qed.

Lemma in_strip_spec x y v w :
  cross v w <> 0 ->
  in_strip x y v w = true <-> half_open (cross v w) (cross v (x, y)).
Proof.
  intros HD. unfold in_strip, side_tests, half_open, cross in *. simpl in *.
  destruct (Z.eqb_spec (fst v) 0) as [Hv|Hv]; simpl.
  - rewrite Hv in *.
    destruct (Z.gtb_spec x 0), (Z.eqb_spec x 0), (Z.gtb_spec x (fst w)),
      (Z.eqb_spec x (fst w)); simpl; split; intros Hgoal; try discriminate;
      try reflexivity; try nia.
  - unfold line. simpl.
    replace (fst v - 0) with (fst v) by ring.
    replace (fst v + fst w - fst w) with (fst v) by ring.
    rewrite !Qlt_bool_div, !Qeq_bool_div by lia.
    replace ((snd v - 0) * x + 0 * fst v - 0 * snd v) with (snd v * x) by ring.
    replace ((snd v + snd w - snd w) * x + snd w * (fst v + fst w)
             - fst w * (snd v + snd w))
      with (snd v * x + (fst v * snd w - snd v * fst w)) by ring.
    replace (fst v * y - snd v * x) with (y * fst v - snd v * x) by ring.
    generalize dependent (fst v * snd w - snd v * fst w).
    generalize (snd v * x) (y * fst v). intros A B D HD.
    destruct (Z.ltb_spec 0 (fst v));
      repeat match goal with
        | |- context [Z.ltb ?a ?b] => destruct (Z.ltb_spec a b)
        | |- context [Z.eqb ?a ?b] => destruct (Z.eqb_spec a b)
        end; simpl; split; intros Hgoal; try discriminate; try reflexivity; lia.
Qed.

Lemma test_in_cell_spec p va vb :
  cross va vb <> 0 ->
  test_in_cell p va vb = true <->
  half_open (cross va vb) (cross va p) /\ half_open (cross va vb) (cross p vb).
Proof.
  intros HD. unfold test_in_cell. rewrite andb_true_iff.
  assert (HD' : cross vb va <> 0) by (rewrite BasisFacts.cross_swap; lia).
  destruct p as [x y]. cbn [fst snd].
  rewrite (in_strip_spec x y va vb HD), (in_strip_spec x y vb va HD').
  rewrite (BasisFacts.cross_swap va vb), (BasisFacts.cross_swap (x, y) vb).
  rewrite half_open_neg. reflexivity.
Qed.

Lemma test_in_cell_comm p va vb : test_in_cell p va vb = test_in_cell p vb va.
Proof. unfold test_in_cell. apply andb_comm. Qed.

(** The first coordinate covered by a cell along one axis. *)
Definition coords_low (a b : Z) : Z :=
  if (a <? 0) && (b >=? 0) then a + 1
  else if (a >=? 0) && (b <? 0) then b + 1
  else if (a <? 0) && (b <? 0) then a + b + 1
  else 0.

Lemma cell_coords_seqZ a b :
  cell_coords a b = seqZ (coords_low a b) (Z.abs a + Z.abs b).
Proof.
  unfold cell_coords, coords_low.
  assert (Hshift : forall k n, (fun t => t + k) <$> seqZ 0 n = seqZ k n).
  { intros k n. replace (seqZ k n) with (seqZ (k + 0) n) by (f_equal; lia).
    rewrite <- fmap_add_seqZ. apply list_fmap_ext. intros _ t _. lia. }
  destruct ((a <? 0) && (b >=? 0)).
  { rewrite <- (Hshift (a + 1)). apply list_fmap_ext. intros _ t _. lia. }
  destruct ((a >=? 0) && (b <? 0)).
  { rewrite <- (Hshift (b + 1)). apply list_fmap_ext. intros _ t _. lia. }
  destruct ((a <? 0) && (b <? 0)); [|reflexivity].
  rewrite <- (Hshift (a + b + 1)). apply list_fmap_ext. intros _ t _. lia.
Qed.

Lemma elem_of_cell_coords a b x :
  x ∈ cell_coords a b <->
  coords_low a b <= x < coords_low a b + (Z.abs a + Z.abs b).
Proof. rewrite cell_coords_seqZ. apply elem_of_seqZ. Qed.

Lemma cell_coords_NoDup a b : NoDup (cell_coords a b).
Proof. rewrite cell_coords_seqZ. apply NoDup_seqZ. Qed.

Lemma cell_coords_comm a b : cell_coords a b = cell_coords b a.
Proof.
  rewrite !cell_coords_seqZ. f_equal; [|lia].
  unfold coords_low.
  destruct (Z.ltb_spec a 0), (Z.geb_spec b 0), (Z.ltb_spec b 0), (Z.geb_spec a 0);
    simpl; lia.
Qed.

(** A point whose coordinates along [A] and [B] lie in [0, 1) is covered by
    the coordinates of the cell. *)
Lemma coords_cover A B D t u X :
  0 < D -> 0 <= t < D -> 0 <= u < D -> D * X = t * A + u * B ->
  A <> 0 \/ B <> 0 ->
  X ∈ cell_coords A B.
Proof.
  intros HD Ht Hu HX HAB. apply elem_of_cell_coords. unfold coords_low.
  assert (Hprod : forall s C, 0 <= s < D ->
            Z.min 0 ((D - 1) * C) <= s * C <= Z.max 0 ((D - 1) * C)).
  { intros s C Hs. destruct (Z.le_gt_cases 0 C).
    - assert (0 <= s * C) by nia. assert (s * C <= (D - 1) * C) by nia. lia.
    - assert (s * C <= 0) by nia. assert ((D - 1) * C <= s * C) by nia. lia. }
  pose proof (Hprod t A Ht) as HtA. pose proof (Hprod u B Hu) as HuB.
  assert (Hlow : forall L, D * L < D * X -> L < X) by (intros; nia).
  assert (Hhigh : forall L, D * X < D * L -> X < L) by (intros; nia).
  destruct (Z.ltb_spec A 0), (Z.geb_spec B 0), (Z.ltb_spec B 0), (Z.geb_spec A 0);
    simpl; try lia;
    rewrite ?(Z.abs_eq A), ?(Z.abs_neq A), ?(Z.abs_eq B), ?(Z.abs_neq B) by lia;
    (split;
     [match goal with |- ?l <= X => enough (l - 1 < X) by lia; apply Hlow end
     | apply Hhigh]); lia.
Qed.

(** The points of the bounding box, row after row. *)
Definition grid (xs ys : list Z) : list vec :=
  ys ≫= (fun yy => (fun xx => (xx, yy)) <$> xs).

Lemma elem_of_grid xs ys p : p ∈ grid xs ys <-> fst p ∈ xs /\ snd p ∈ ys.
Proof.
  unfold grid. rewrite list_elem_of_bind. split.
  - intros (yy & Hp & Hy). apply list_elem_of_fmap in Hp as (xx & -> & Hx). auto.
  - intros [Hx Hy]. exists (snd p). split; [|exact Hy].
    apply list_elem_of_fmap. exists (fst p). split; [now destruct p | exact Hx].
Qed.

Lemma NoDup_grid xs ys : NoDup xs -> NoDup ys -> NoDup (grid xs ys).
Proof.
  intros Hxs Hys. unfold grid. apply NoDup_bind; [| |exact Hys].
  - intros y1 y2 p _ _ H1 H2.
    apply list_elem_of_fmap in H1 as (x1 & -> & _).
    apply list_elem_of_fmap in H2 as (x2 & Heq & _). congruence.
  - intros yy _. apply NoDup_fmap_2; [|exact Hxs]. intros x1 x2. congruence.
Qed.

Lemma length_bind_const {A B : Type} (f : A -> list B) (n : nat) (l : list A) :
  (forall x, x ∈ l -> length (f x) = n) -> length (l ≫= f) = (length l * n)%nat.
Proof.
  induction l as [|x l IH]; intros Hf; [reflexivity|].
  rewrite bind_cons, length_app, Hf, IH by (try intros; try apply Hf; now constructor).
  simpl. lia.
Qed.

(** Counting the entries that are not NaN is counting the points of the
    grid that pass the test. *)
Lemma count_non_nan_grid (f : vec -> bool) xs ys :
  count_non_nan
    ((fun yy => (fun xx => if f (xx, yy) then Val 0 else NaN) <$> xs) <$> ys)
  = Z.of_nat (length (filter (fun p => f p = true) (grid xs ys))).
Proof.
  unfold count_non_nan, grid. f_equal.
  induction ys as [|yy ys IH]; [reflexivity|].
  rewrite bind_cons, fmap_cons. simpl concat.
  rewrite !filter_app, !length_app, IH. f_equal.
  clear IH. induction xs as [|xx xs IH]; [reflexivity|].
  rewrite !fmap_cons, !filter_cons.
  destruct (f (xx, yy)) eqn:Hf; simpl;
    repeat case_decide; try congruence; try discriminate; simpl; now rewrite IH.
Qed.

(** The vector identity behind the bounding box: [D p = t va + u vb]. *)
Lemma cross_decompose va vb p :
  cross va vb * fst p = cross p vb * fst va + cross va p * fst vb /\
  cross va vb * snd p = cross p vb * snd va + cross va p * snd vb.
Proof. unfold cross. split; ring. Qed.

Lemma in_cell_in_grid va vb p :
  0 < cross va vb ->
  0 <= cross va p < cross va vb -> 0 <= cross p vb < cross va vb ->
  p ∈ grid (cell_coords (fst va) (fst vb)) (cell_coords (snd va) (snd vb)).
Proof.
  intros HD Hu Ht. destruct (cross_decompose va vb p) as [Hx Hy].
  apply elem_of_grid. split.
  - eapply coords_cover; [exact HD | exact Ht | exact Hu | exact Hx |].
    unfold cross in HD. destruct (Z.eq_dec (fst va) 0); [right|left]; nia.
  - eapply coords_cover; [exact HD | exact Ht | exact Hu | exact Hy |].
    unfold cross in HD. destruct (Z.eq_dec (snd va) 0); [right|left]; nia.
Qed.

(** ** The number of lattice points of the half open parallelogram

    Write [va = g (a, b)] with [g] the gcd of the components and pick, by
    Bezout, [e2] with [cross (a, b) e2 = 1].  Every integer point is
    [k (a, b) + j e2] for exactly one [(k, j)]; the cell holds the points
    with [0 <= j < D / g] and, for each such [j], [g] consecutive [k]. *)
Lemma lattice_points_count va vb :
  0 < cross va vb ->
  length (filter (fun p => test_in_cell p va vb = true)
            (grid (cell_coords (fst va) (fst vb)) (cell_coords (snd va) (snd vb))))
  = Z.to_nat (cross va vb).
Proof.
  intros HD.
  set (g := Z.gcd (fst va) (snd va)).
  assert (Hg : 0 < g).
  { pose proof (Z.gcd_nonneg (fst va) (snd va)).
    destruct (Z.eq_dec g 0) as [H0|]; [|unfold g in *; lia].
    apply Z.gcd_eq_0 in H0 as [Hx Hy]. unfold cross in HD. rewrite Hx, Hy in HD. lia. }
  destruct (Z.gcd_divide_l (fst va) (snd va)) as [a Ha].
  destruct (Z.gcd_divide_r (fst va) (snd va)) as [b Hb].
  destruct (Z.gcd_bezout (fst va) (snd va) g eq_refl) as (u & v & Huv).
  fold g in Ha, Hb.
  assert (Hab : u * a + v * b = 1) by (rewrite Ha, Hb in Huv; nia).
  set (D' := a * snd vb - b * fst vb).
  assert (HDg : cross va vb = g * D') by (unfold cross, D'; rewrite Ha, Hb; ring).
  assert (HD' : 0 < D') by nia.
  set (c := - v * snd vb - u * fst vb).
  set (T := seqZ 0 D' ≫= (fun j => (fun k => (k, j)) <$> seqZ (- (j * c / D')) g)).
  set (f := fun kj : Z * Z =>
              (fst kj * a + snd kj * - v, fst kj * b + snd kj * u)).
  assert (Hcva : forall k j, cross va (f (k, j)) = g * j).
  { intros k j. unfold cross, f. simpl. rewrite Ha, Hb.
    transitivity (g * j * (u * a + v * b)); [ring | rewrite Hab; ring]. }
  assert (Hcvb : forall k j, cross (f (k, j)) vb = k * D' + j * c).
  { intros k j. unfold cross, f, D', c. simpl. ring. }
  assert (Hrange : forall k j, 0 <= j < D' ->
            (0 <= k * D' + j * c < g * D' <-> - (j * c / D') <= k < - (j * c / D') + g)).
  { intros k j Hj. pose proof (Z.div_mod (j * c) D' ltac:(lia)) as Hdm.
    pose proof (Z.mod_pos_bound (j * c) D' HD') as Hr.
    set (q := j * c / D') in *. set (r := (j * c) mod D') in *.
    rewrite Hdm. split; intros H; nia. }
  assert (HT : forall k j, (k, j) ∈ T <->
            0 <= j < D' /\ - (j * c / D') <= k < - (j * c / D') + g).
  { intros k j. unfold T. rewrite list_elem_of_bind. split.
    - intros (j' & Hk & Hj). apply list_elem_of_fmap in Hk as (k' & [= -> ->] & Hk).
      apply elem_of_seqZ in Hk, Hj. lia.
    - intros [Hj Hk]. exists j. split; [|apply elem_of_seqZ; lia].
      apply list_elem_of_fmap. exists k. split; [reflexivity|].
      apply elem_of_seqZ. lia. }
  transitivity (length (f <$> T)).
  - apply Permutation_length, NoDup_Permutation.
    + apply NoDup_filter, NoDup_grid; apply cell_coords_NoDup.
    + apply NoDup_fmap_2_strong.
      * intros [k j] [k' j'] _ _ Heq. unfold f in Heq. simpl in Heq.
        injection Heq as E1 E2.
        assert (Ea : (k - k') * a = (j - j') * v) by lia.
        assert (Eb : (k - k') * b = - ((j - j') * u)) by lia.
        assert (Hk : k - k' = u * ((k - k') * a) + v * ((k - k') * b))
          by (transitivity ((k - k') * (u * a + v * b)); [rewrite Hab|]; ring).
        assert (Hj : j - j' = a * ((j - j') * u) + b * ((j - j') * v))
          by (transitivity ((j - j') * (u * a + v * b)); [rewrite Hab|]; ring).
        rewrite Ea, Eb in Hk.
        assert (k = k') by lia.
        replace ((j - j') * u) with (- ((k - k') * b)) in Hj by lia.
        rewrite <- Ea in Hj.
        assert (j = j') by lia. congruence.
      * unfold T. apply NoDup_bind; [| |apply NoDup_seqZ].
        -- intros j1 j2 kj _ _ H1 H2.
           apply list_elem_of_fmap in H1 as (k1 & -> & _).
           apply list_elem_of_fmap in H2 as (k2 & Heq & _). congruence.
        -- intros j _. apply NoDup_fmap_2; [|apply NoDup_seqZ].
           intros k1 k2. congruence.
    + intros p. rewrite list_elem_of_filter, test_in_cell_spec by lia.
      rewrite list_elem_of_fmap. unfold half_open. split.
      * intros [[Hu Ht] _].
        assert (Hu' : 0 <= cross va p < cross va vb) by lia.
        assert (Ht' : 0 <= cross p vb < cross va vb) by lia.
        clear Hu Ht.
        set (k := fst p * u + snd p * v). set (j := a * snd p - b * fst p).
        assert (Hp : p = f (k, j)).
        { destruct p as [x y]. unfold f, k, j. simpl. f_equal.
          - transitivity (x * (u * a + v * b)); [rewrite Hab; ring | ring].
          - transitivity (y * (u * a + v * b)); [rewrite Hab; ring | ring]. }
        exists (k, j). split; [exact Hp|].
        rewrite Hp, Hcva in Hu'. rewrite Hp, Hcvb in Ht'. rewrite HDg in Hu', Ht'.
        assert (Hj : 0 <= j < D') by nia.
        apply HT. split; [exact Hj|]. now apply Hrange.
      * intros ([k j] & -> & Hkj). apply HT in Hkj as [Hj Hk].
        apply Hrange in Hk; [|exact Hj].
        assert (Hu : 0 <= cross va (f (k, j)) < cross va vb)
          by (rewrite Hcva, HDg; nia).
        assert (Ht : 0 <= cross (f (k, j)) vb < cross va vb)
          by (rewrite Hcvb, HDg; lia).
        split; [split; left; assumption|].
        now apply in_cell_in_grid.
  - rewrite length_fmap. unfold T.
    rewrite (length_bind_const _ (Z.to_nat g)), length_seqZ.
    + rewrite HDg, Z2Nat.inj_mul by lia. lia.
    + intros j _. now rewrite length_fmap, length_seqZ.
Qed.

Lemma lattice_points_count_abs va vb :
  cross va vb <> 0 ->
  length (filter (fun p => test_in_cell p va vb = true)
            (grid (cell_coords (fst va) (fst vb)) (cell_coords (snd va) (snd vb))))
  = Z.to_nat (Z.abs (cross va vb)).
Proof.
  intros HD. destruct (Z.lt_trichotomy (cross va vb) 0) as [Hneg|[H0|Hpos]];
    [|contradiction|].
  - rewrite (cell_coords_comm (fst va)), (cell_coords_comm (snd va)).
    rewrite (list_filter_iff _ (fun p => test_in_cell p vb va = true))
      by (intros p; now rewrite test_in_cell_comm).
    rewrite lattice_points_count by (rewrite BasisFacts.cross_swap; lia).
    rewrite BasisFacts.cross_swap. f_equal. lia.
  - rewrite lattice_points_count by exact Hpos. f_equal. lia.
Qed.

Lemma is_integer_inject_Z z : is_integer (inject_Z z) = true.
Proof. unfold is_integer. rewrite Qfloor_Z. apply Qeq_bool_refl. Qed.

Lemma trunc_inject_Z z : trunc (inject_Z z) = z.
Proof. unfold trunc. simpl. apply Z.quot_1_r. Qed.

Lemma to_int_vec_of_int_vec v : to_int_vec (of_int_vec v) = v.
Proof. destruct v. unfold to_int_vec, of_int_vec. simpl. now rewrite !trunc_inject_Z. Qed.

Lemma check_integer_components_int va vb :
  check_integer_components (of_int_vec va) vb = Ok tt.
Proof.
  unfold check_integer_components, of_int_vec. simpl.
  rewrite !is_integer_inject_Z. reflexivity.
Qed.

(** [get_unit_cell] on a pair that passes the checks. *)
Lemma get_unit_cell_ok vec_a vec_b :
  check_integer_components vec_a vec_b = Ok tt ->
  cross (to_int_vec vec_a) (to_int_vec vec_b) <> 0 ->
  let va := to_int_vec vec_a in
  let vb := to_int_vec vec_b in
  let x := cell_coords (fst va) (fst vb) in
  let y := cell_coords (snd va) (snd vb) in
  get_unit_cell vec_a vec_b
  = Ok ((fun yy => (fun xx =>
           if test_in_cell (xx, yy) va vb then Val 0 else NaN) <$> x) <$> y, x, y).
Proof.
  intros Hint HD va vb x y. unfold get_unit_cell. rewrite Hint.
  unfold mbind, result_bind. cbv beta iota zeta. fold va vb.
  destruct (Z.eqb_spec (cross va vb) 0) as [|_]; [contradiction|].
  rewrite (count_non_nan_grid (fun p => test_in_cell p va vb)).
  rewrite lattice_points_count_abs by exact HD.
  rewrite Z2Nat.id by lia. unfold cross at 1.
  now rewrite Z.eqb_refl.
Qed.



(** C6 (the source departs from the claim): the loop that tests the
    components runs over [vec_a] twice and never looks at [vec_b].  A
    fractional component of [vec_b] is truncated by the conversion to [int]
    and a cell comes back; a fractional component of [vec_a] and a
    degenerate pair are rejected as the claim says. *)
Theorem C6_get_unit_cell_input_checks :
  (is_integer (3 # 2) = false /\
   get_unit_cell (1, 0)%Q (0, 3 # 2)%Q = Ok ([[Val 0]], [0], [0])) /\
  (forall vec_a vec_b,
     is_integer (fst vec_a) = false \/ is_integer (snd vec_a) = false ->
     get_unit_cell vec_a vec_b = Raise InvalidBasisNotInteger) /\
  (forall vec_a vec_b,
     is_integer (fst vec_a) = true -> is_integer (snd vec_a) = true ->
     cross (to_int_vec vec_a) (to_int_vec vec_b) = 0 ->
     get_unit_cell vec_a vec_b = Raise InvalidBasisDependent).
Proof.
  split; [split; reflexivity|]. split.
  - intros vec_a vec_b H. unfold get_unit_cell, check_integer_components. simpl.
    destruct (is_integer (fst vec_a)); simpl; [|reflexivity].
    destruct (is_integer (snd vec_a)); simpl; [|reflexivity].
    destruct H; discriminate.
  - intros vec_a vec_b H1 H2 H0.
    unfold get_unit_cell, check_integer_components. simpl.
    rewrite H1, H2. simpl. rewrite H0. reflexivity.
Qed.

End UnitCellFacts.

(** ** The phase cell of [get_sim_unit_cell] *)

Module SimCellFacts.
Import Basis UnitCell UnitCellFacts.

(** The array whose entry for the coordinates [(xx, yy)] is [g (xx, yy)]. *)
Definition tabulate2 (ys xs : list Z) (g : vec -> cellval) : cell_array :=
  (fun yy => (fun xx => g (xx, yy)) <$> xs) <$> ys.

Lemma rect_tabulate2 ys xs g : rect (length ys) (length xs) (tabulate2 ys xs g).
Proof.
  unfold tabulate2. split; [now rewrite length_fmap|].
  apply Forall_forall. intros r Hin.
  apply list_elem_of_fmap in Hin as (yy & -> & _). now rewrite length_fmap.
Qed.

Lemma get2_tabulate2 ys xs g i j :
  get2 (tabulate2 ys xs g) i j = yy ← ys !! i; xx ← xs !! j; Some (g (xx, yy)).
Proof.
  unfold get2, tabulate2. rewrite list_lookup_fmap.
  destruct (ys !! i) as [yy|]; simpl; [|reflexivity].
  rewrite list_lookup_fmap. destruct (xs !! j); reflexivity.
Qed.

Lemma get2_tabulate2_seqZ y0 h x0 w g (i j : nat) :
  Z.of_nat i < h -> Z.of_nat j < w ->
  get2 (tabulate2 (seqZ y0 h) (seqZ x0 w) g) i j
  = Some (g (x0 + Z.of_nat j, y0 + Z.of_nat i)).
Proof.
  intros Hi Hj. rewrite get2_tabulate2.
  rewrite !lookup_seqZ_lt by lia. reflexivity.
Qed.





Lemma foldr_min_lower (lo : Z) (l : list Z) :
  Forall (fun v => lo <= v) l -> foldr Z.min lo l = lo.
Proof. induction 1 as [|v l Hv _ IH]; simpl; [reflexivity | rewrite IH; lia]. Qed.

Lemma np_min_seqZ lo n : 0 < n -> np_min (seqZ lo n) = Ok lo.
Proof.
  intros Hn. rewrite seqZ_cons by exact Hn. simpl. f_equal.
  apply foldr_min_lower, Forall_seqZ. lia.
Qed.









(** The cell a phase cell is cut from, and the phase cell itself. *)
Definition full_entry (va vb : vec) (p : vec) : cellval :=
  if test_in_cell p va vb then Val 0 else NaN.

Lemma cross_vscale_r k a b : cross a (vscale k b) = k * cross a b.
Proof. unfold cross, vscale. simpl. ring. Qed.

Lemma cross_vscale_l k a b : cross (vscale k a) b = k * cross a b.
Proof. unfold cross, vscale. simpl. ring. Qed.


Lemma in_cell_in_grid_abs va vb p :
  cross va vb <> 0 -> test_in_cell p va vb = true ->
  p ∈ grid (cell_coords (fst va) (fst vb)) (cell_coords (snd va) (snd vb)).
Proof.
  intros HD Hin.
  destruct (Z.lt_trichotomy (cross va vb) 0) as [Hneg|[H0|Hpos]]; [|contradiction|].
  - rewrite test_in_cell_comm in Hin.
    rewrite (cell_coords_comm (fst va)), (cell_coords_comm (snd va)).
    assert (HD' : 0 < cross vb va) by (rewrite BasisFacts.cross_swap; lia).
    apply test_in_cell_spec in Hin as [Hu Ht]; [|lia].
    unfold half_open in *. apply in_cell_in_grid; lia.
  - apply test_in_cell_spec in Hin as [Hu Ht]; [|lia].
    unfold half_open in *. apply in_cell_in_grid; lia.
Qed.


Lemma get_unit_cell_tabulate vec_a vec_b :
  check_integer_components vec_a vec_b = Ok tt ->
  cross (to_int_vec vec_a) (to_int_vec vec_b) <> 0 ->
  get_unit_cell vec_a vec_b
  = Ok (tabulate2
          (cell_coords (snd (to_int_vec vec_a)) (snd (to_int_vec vec_b)))
          (cell_coords (fst (to_int_vec vec_a)) (fst (to_int_vec vec_b)))
          (full_entry (to_int_vec vec_a) (to_int_vec vec_b)),
        cell_coords (fst (to_int_vec vec_a)) (fst (to_int_vec vec_b)),
        cell_coords (snd (to_int_vec vec_a)) (snd (to_int_vec vec_b))).
Proof. intros Hint HD. exact (get_unit_cell_ok vec_a vec_b Hint HD). Qed.





Lemma cross_nonzero_components va vb :
  cross va vb <> 0 ->
  (fst va <> 0 \/ fst vb <> 0) /\ (snd va <> 0 \/ snd vb <> 0).
Proof. unfold cross. intros H. split; nia. Qed.










End SimCellFacts.

(** ** Tiling: what a paste and the two loops do to one pixel *)

Module TilerFacts.
Import Basis UnitCell BasisFacts UnitCellFacts SimCellFacts Tiler.

(** The entry of a cell at the point [q], for a cell whose first entry has
    the coordinates [(x0, y0)]; NaN outside the array. *)
Definition cell_at (cell : cell_array) (x0 y0 : Z) (q : vec) : cellval :=
  if (x0 <=? fst q) && (y0 <=? snd q)
  then default NaN (get2 cell (Z.to_nat (snd q - y0)) (Z.to_nat (fst q - x0)))
  else NaN.

(** The translate of the cell by [n va + m vb + start]. *)
Definition offset (va vb start : vec) (n m : Z) : vec :=
  (fst va * n + fst vb * m + fst start, snd va * n + snd vb * m + snd start).

(** What one paste does to the pixel [p]. *)
Definition pixel_step (va vb start : vec) (cell : cell_array) (x0 w y0 h : Z)
    (p : vec) (c : cellval) (nm : Z * Z) : cellval :=
  let q := vsub p (offset va vb start (fst nm) (snd nm)) in
  if decide (x0 <= fst q < x0 + w /\ y0 <= snd q < y0 + h)
  then cv_nansum c (cell_at cell x0 y0 q) else c.

Lemma shape0_rect {A : Type} H W (arr : list (list A)) :
  rect H W arr -> shape0 arr = Z.of_nat H.
Proof. intros [<- _]. reflexivity. Qed.

Lemma shape1_rect {A : Type} H W (arr : list (list A)) :
  rect H W arr -> (0 < H)%nat -> shape1 arr = Z.of_nat W.
Proof.
  intros Hr HH. destruct arr as [|r arr]; [destruct Hr as [Hl _]; simpl in Hl; lia|].
  unfold shape1. f_equal. exact (rect_row _ _ _ 0%nat r Hr eq_refl).
Qed.

Lemma paste_spec nx ny va vb start cell x0 w y0 h n m pattern :
  0 <= nx -> 0 <= ny -> 0 < w -> 0 < h ->
  rect (Z.to_nat ny) (Z.to_nat nx) pattern ->
  rect (Z.to_nat h) (Z.to_nat w) cell ->
  exists pattern',
    paste nx ny va vb start cell (seqZ x0 w) (seqZ y0 h) n m pattern = Ok pattern' /\
    rect (Z.to_nat ny) (Z.to_nat nx) pattern' /\
    forall i j : nat, Z.of_nat i < ny -> Z.of_nat j < nx ->
      get2 pattern' i j
      = c ← get2 pattern i j;
        Some (pixel_step va vb start cell x0 w y0 h (Z.of_nat j, Z.of_nat i) c (n, m)).
Proof.
  intros Hnx Hny Hw Hh Hpat Hcell.
  unfold paste. rewrite !np_min_seqZ by assumption.
  unfold mbind at 1, result_bind at 1. cbv beta iota.
  unfold mbind at 1, result_bind at 1. cbv beta iota.
  rewrite (shape0_rect _ _ _ Hcell), (shape1_rect _ _ _ Hcell) by lia.
  rewrite !Z2Nat.id by lia.
  set (xstart := fst va * n + fst vb * m + fst start + x0).
  set (ystart := snd va * n + snd vb * m + snd start + y0).
  assert (Hstep : forall (i j : nat) c,
            pixel_step va vb start cell x0 w y0 h (Z.of_nat j, Z.of_nat i) c (n, m)
            = if decide (xstart <= Z.of_nat j < xstart + w /\
                         ystart <= Z.of_nat i < ystart + h)
              then cv_nansum c
                     (default NaN (get2 cell (Z.to_nat (Z.of_nat i - ystart))
                                     (Z.to_nat (Z.of_nat j - xstart))))
              else c).
  { intros i j c. unfold pixel_step, cell_at, offset, vsub. cbn [fst snd].
    repeat case_decide; try lia.
    - destruct (Z.leb_spec x0 (Z.of_nat j - (va.1 * n + vb.1 * m + start.1))),
        (Z.leb_spec y0 (Z.of_nat i - (va.2 * n + vb.2 * m + start.2))); try lia.
      simpl. do 3 f_equal; unfold xstart, ystart; lia.
    - reflexivity. }
  destruct ((xstart + w <? 0) || (ystart + h <? 0) || (xstart >? nx) || (ystart >? ny))
    eqn:Hskip.
  - exists pattern. split; [reflexivity|]. split; [exact Hpat|].
    intros i j Hi Hj.
    destruct (get2_is_Some _ _ pattern i j Hpat) as [c Hc]; [lia..|].
    rewrite Hc. simpl. rewrite Hstep. rewrite decide_False; [reflexivity|].
    repeat (apply orb_true_iff in Hskip as [Hskip|Hskip]);
      [apply Z.ltb_lt in Hskip | apply Z.ltb_lt in Hskip
      | apply Z.gtb_lt in Hskip | apply Z.gtb_lt in Hskip]; lia.
  - repeat (apply orb_false_iff in Hskip as [Hskip ?]).
    apply Z.ltb_ge in Hskip.
    repeat match goal with
      | H : (_ <? _) = false |- _ => apply Z.ltb_ge in H
      | H : (_ >? _) = false |- _ => rewrite Z.gtb_ltb in H; apply Z.ltb_ge in H
      end.
    set (xs := if xstart <? 0 then 0 else xstart).
    set (xsc := if xstart <? 0 then - xstart else 0).
    set (xe := if xstart + w >? nx then nx else xstart + w).
    set (ys := if ystart <? 0 then 0 else ystart).
    set (ysc := if ystart <? 0 then - ystart else 0).
    set (ye := if ystart + h >? ny then ny else ystart + h).
    assert (Hxs : xs = Z.max 0 xstart /\ xsc = xs - xstart /\ xe = Z.min nx (xstart + w)).
    { unfold xs, xsc, xe. destruct (Z.ltb_spec xstart 0);
        rewrite Z.gtb_ltb; destruct (Z.ltb_spec nx (xstart + w)); lia. }
    assert (Hys : ys = Z.max 0 ystart /\ ysc = ys - ystart /\ ye = Z.min ny (ystart + h)).
    { unfold ys, ysc, ye. destruct (Z.ltb_spec ystart 0);
        rewrite Z.gtb_ltb; destruct (Z.ltb_spec ny (ystart + h)); lia. }
    clearbody xs xsc xe ys ysc ye.
    destruct Hxs as (Hxs & Hxsc & Hxe). destruct Hys as (Hys & Hysc & Hye).
    rewrite !slice_len_in_range by lia.
    unfold nansum_stack. cbn [fst snd].
    replace (ysc + (ye - ys) - ysc) with (ye - ys) by lia.
    replace (xsc + (xe - xs) - xsc) with (xe - xs) by lia.
    rewrite !Z.eqb_refl. cbn [andb].
    unfold mbind at 1, result_bind at 1. cbv beta iota.
    eexists. split; [reflexivity|].
    assert (Hpb : rect (Z.to_nat (ye - ys)) (Z.to_nat (xe - xs))
                    (slice2 pattern ys ye xs xe))
      by (eapply rect_slice2; [exact Hpat|..]; lia).
    assert (Hcb : rect (Z.to_nat (ye - ys)) (Z.to_nat (xe - xs))
                    (slice2 cell ysc (ysc + (ye - ys)) xsc (xsc + (xe - xs)))).
    { replace (ye - ys) with (ysc + (ye - ys) - ysc) at 1 by lia.
      replace (xe - xs) with (xsc + (xe - xs) - xsc) at 1 by lia.
      eapply rect_slice2; [exact Hcell|..]; lia. }
    pose proof (rect_zip_with2 cv_nansum _ _ _ _ Hpb Hcb) as Hblk.
    unfold update_slice2. rewrite !slice_bound_in_range by lia.
    split.
    + eapply rect_assign_slice2; [exact Hpat | exact Hblk | lia..].
    + intros i j Hi Hj.
      rewrite (get2_assign_slice2 _ _ _ _ _ _ _ _ _ _ Hpat Hblk) by lia.
      destruct (get2_is_Some _ _ pattern i j Hpat) as [c Hc]; [lia..|].
      rewrite Hc. simpl. rewrite Hstep.
      case_decide as Hin.
      * rewrite decide_True by lia.
        rewrite get2_zip_with2.
        rewrite (get2_slice2 _ _ _ _ _ _ _ _ _ Hpat) by lia.
        replace (Z.to_nat ys + (i - Z.to_nat ys))%nat with i by lia.
        replace (Z.to_nat xs + (j - Z.to_nat xs))%nat with j by lia.
        rewrite Hc. simpl.
        rewrite (get2_slice2 _ _ _ _ _ _ _ _ _ Hcell) by lia.
        replace (Z.to_nat ysc + (i - Z.to_nat ys))%nat
          with (Z.to_nat (Z.of_nat i - ystart)) by lia.
        replace (Z.to_nat xsc + (j - Z.to_nat xs))%nat
          with (Z.to_nat (Z.of_nat j - xstart)) by lia.
        destruct (get2_is_Some _ _ cell (Z.to_nat (Z.of_nat i - ystart))
                    (Z.to_nat (Z.of_nat j - xstart)) Hcell) as [v Hv]; [lia..|].
        rewrite Hv. reflexivity.
      * rewrite decide_False by lia. reflexivity.
Qed.

(** The pairs [(n, m)] in the order in which the two loops visit them. *)
Definition pairs (ns ms : list Z) : list (Z * Z) :=
  ns ≫= (fun n => (fun m => (n, m)) <$> ms).

Section Loops.
Context (nx ny : Z) (va vb start : vec) (cell : cell_array) (x0 w y0 h : Z).
Context (Hnx : 0 <= nx) (Hny : 0 <= ny) (Hw : 0 < w) (Hh : 0 < h).
Context (Hcell : rect (Z.to_nat h) (Z.to_nat w) cell).

Let step := pixel_step va vb start cell x0 w y0 h.
Let canvas := rect (Z.to_nat ny) (Z.to_nat nx) (A:=cellval).

(** [pattern'] is [pattern] with every pixel folded over the pastes [l]. *)
Definition folded (l : list (Z * Z)) (pattern pattern' : cell_array) : Prop :=
  canvas pattern' /\
  forall i j : nat, Z.of_nat i < ny -> Z.of_nat j < nx ->
    get2 pattern' i j
    = c ← get2 pattern i j; Some (fold_left (step (Z.of_nat j, Z.of_nat i)) l c).

Lemma folded_trans l1 l2 p1 p2 p3 :
  canvas p1 -> folded l1 p1 p2 -> folded l2 p2 p3 -> folded (l1 ++ l2) p1 p3.
Proof.
  intros Hc [H2 G2] [H3 G3]. split; [exact H3|].
  intros i j Hi Hj. rewrite G3, G2 by assumption.
  destruct (get2 p1 i j); simpl; [|reflexivity]. now rewrite fold_left_app.
Qed.

Lemma inner_loop_spec n ms : forall pattern,
  canvas pattern ->
  exists pattern',
    for_each ms (fun m => paste nx ny va vb start cell (seqZ x0 w) (seqZ y0 h) n m)
      pattern = Ok pattern' /\
    folded ((fun m => (n, m)) <$> ms) pattern pattern'.
Proof.
  induction ms as [|m ms IH]; intros pattern Hpat.
  - exists pattern. split; [reflexivity|]. split; [exact Hpat|].
    intros i j Hi Hj. simpl. now destruct (get2 pattern i j).
  - destruct (paste_spec nx ny va vb start cell x0 w y0 h n m pattern
                Hnx Hny Hw Hh Hpat Hcell) as (p1 & Hp1 & Hr1 & G1).
    destruct (IH p1 Hr1) as (p2 & Hp2 & Hf2).
    exists p2. split.
    + simpl. rewrite Hp1. exact Hp2.
    + change ((fun m0 => (n, m0)) <$> m :: ms)
        with ([(n, m)] ++ ((fun m0 => (n, m0)) <$> ms)).
      eapply folded_trans; [exact Hpat | | exact Hf2].
      split; [exact Hr1|]. intros i j Hi Hj. rewrite G1 by assumption.
      now destruct (get2 pattern i j).
Qed.

Lemma outer_loop_spec ns ms : forall pattern,
  canvas pattern ->
  exists pattern',
    for_each ns (fun n =>
      for_each ms (fun m => paste nx ny va vb start cell (seqZ x0 w) (seqZ y0 h) n m))
      pattern = Ok pattern' /\
    folded (pairs ns ms) pattern pattern'.
Proof.
  induction ns as [|n ns IH]; intros pattern Hpat.
  - exists pattern. split; [reflexivity|]. split; [exact Hpat|].
    intros i j Hi Hj. simpl. now destruct (get2 pattern i j).
  - destruct (inner_loop_spec n ms pattern Hpat) as (p1 & Hp1 & Hf1).
    destruct (IH p1 (proj1 Hf1)) as (p2 & Hp2 & Hf2).
    exists p2. split.
    + simpl. rewrite Hp1. exact Hp2.
    + unfold pairs. rewrite bind_cons.
      eapply folded_trans; [exact Hpat | exact Hf1 | exact Hf2].
Qed.

End Loops.

(** The value a float entry contributes to a [nansum]. *)
Definition nzval (c : cellval) : Z :=
  match c with Val v => v | NaN => 0 end.

Lemma cv_nansum_nzval a b : cv_nansum a b = Val (nzval a + nzval b).
Proof. destruct a, b; simpl; f_equal; lia. Qed.

Section PixelFold.
Context (va vb start : vec) (cell : cell_array) (x0 w y0 h : Z) (p : vec).

Let covers (nm : Z * Z) : Prop :=
  let q := vsub p (offset va vb start (fst nm) (snd nm)) in
  x0 <= fst q < x0 + w /\ y0 <= snd q < y0 + h.

Let contrib (nm : Z * Z) : Z :=
  nzval (cell_at cell x0 y0 (vsub p (offset va vb start (fst nm) (snd nm)))).

(** A paste that contributes nothing leaves a number alone. *)
Lemma fold_pixel_zero l : forall v,
  (forall nm, nm ∈ l -> contrib nm = 0) ->
  fold_left (pixel_step va vb start cell x0 w y0 h p) l (Val v) = Val v.
Proof.
  induction l as [|nm l IH]; intros v Hz; [reflexivity|]. simpl.
  assert (Hstep : pixel_step va vb start cell x0 w y0 h p (Val v) nm = Val v).
  { unfold pixel_step. cbv zeta. case_decide; [|reflexivity].
    rewrite cv_nansum_nzval. simpl. f_equal.
    pose proof (Hz nm ltac:(constructor)) as H0. unfold contrib in H0. lia. }
  rewrite Hstep. apply IH. intros nm' Hin. apply Hz. now constructor.
Qed.

(** When exactly one paste [nm0] of [l] covers the pixel with an entry
    that may differ from zero, the pixel ends as that entry. *)
Lemma fold_pixel_unique l nm0 :
  NoDup l -> nm0 ∈ l -> covers nm0 ->
  (forall nm, nm ∈ l -> nm <> nm0 -> contrib nm = 0) ->
  fold_left (pixel_step va vb start cell x0 w y0 h p) l NaN = Val (contrib nm0).
Proof.
  intros Hnd Hin Hcov Hz.
  assert (Hgen : forall c, (c = NaN \/ c = Val 0) ->
            fold_left (pixel_step va vb start cell x0 w y0 h p) l c
            = Val (contrib nm0)).
  { induction Hnd as [|nm l Hnotin Hnd IH]; intros c Hc; [inversion Hin|].
    simpl. destruct (decide (nm = nm0)) as [->|Hne].
    - assert (Hstep : pixel_step va vb start cell x0 w y0 h p c nm0
                      = Val (contrib nm0)).
      { unfold pixel_step. cbv zeta. rewrite decide_True by exact Hcov.
        rewrite cv_nansum_nzval. unfold contrib. f_equal.
        destruct Hc as [-> | ->]; simpl; lia. }
      rewrite Hstep. apply fold_pixel_zero.
      intros nm' Hin'. apply Hz; [now constructor|]. intros ->. contradiction.
    - apply IH.
      + apply elem_of_cons in Hin as [->|Hin]; [contradiction | exact Hin].
      + intros nm' Hin' Hne'. apply Hz; [now constructor | exact Hne'].
      + unfold pixel_step. cbv zeta. case_decide; [|exact Hc].
        right. rewrite cv_nansum_nzval. f_equal.
        pose proof (Hz nm ltac:(constructor) Hne) as H0. unfold contrib in H0.
        destruct Hc as [-> | ->]; simpl; lia. }
  apply Hgen. now left.
Qed.

End PixelFold.

Lemma Qfloor_div (a b : Z) :
  b <> 0 -> Qfloor (inject_Z a / inject_Z b) = a / b.
Proof.
  intros Hb. destruct b as [|b|b]; [contradiction| |].
  - unfold Qdiv, Qinv, Qmult, inject_Z. simpl. rewrite Z.mul_1_r, Pos.mul_1_l.
    reflexivity.
  - unfold Qdiv, Qinv, Qmult, inject_Z. simpl. rewrite Pos.mul_1_l.
    rewrite <- (Z.div_opp_opp a (Z.neg b)) by lia. f_equal. lia.
Qed.

Lemma Qfloor_le_Qceiling q : Qfloor q <= Qceiling q.
Proof.
  rewrite Zle_Qle. eapply Qle_trans; [apply Qfloor_le | apply Qle_ceiling].
Qed.

Lemma Qmin4_le a b c d x :
  x = a \/ x = b \/ x = c \/ x = d -> (Qmin4 a b c d <= x)%Q.
Proof.
  unfold Qmin4. intros [-> | [-> | [-> | ->]]].
  - eapply Qle_trans; [apply Q.le_min_l|]. eapply Qle_trans; apply Q.le_min_l.
  - eapply Qle_trans; [apply Q.le_min_l|].
    eapply Qle_trans; [apply Q.le_min_l | apply Q.le_min_r].
  - eapply Qle_trans; [apply Q.le_min_l | apply Q.le_min_r].
  - apply Q.le_min_r.
Qed.

Lemma Qmax4_ge a b c d x :
  x = a \/ x = b \/ x = c \/ x = d -> (x <= Qmax4 a b c d)%Q.
Proof.
  unfold Qmax4. intros [-> | [-> | [-> | ->]]].
  - eapply Qle_trans; [|apply Q.le_max_l]. eapply Qle_trans; [|apply Q.le_max_l].
    apply Q.le_max_l.
  - eapply Qle_trans; [|apply Q.le_max_l].
    eapply Qle_trans; [apply Q.le_max_r | apply Q.le_max_l].
  - eapply Qle_trans; [apply Q.le_max_r | apply Q.le_max_l].
  - apply Q.le_max_r.
Qed.

(** A linear function on a rectangle is bounded below by its value at one
    of the corners. *)
Lemma linear_corner (A B nx ny j i : Z) :
  0 <= j <= nx -> 0 <= i <= ny ->
  exists cj ci, (cj = 0 \/ cj = nx) /\ (ci = 0 \/ ci = ny) /\
    A * cj + B * ci <= A * j + B * i.
Proof.
  intros Hj Hi.
  exists (if 0 <=? A then 0 else nx), (if 0 <=? B then 0 else ny).
  destruct (Z.leb_spec 0 A), (Z.leb_spec 0 B); repeat split; auto; nia.
Qed.

Lemma div_le_mono_any (a b D : Z) :
  D <> 0 -> (0 < D -> a <= b) -> (D < 0 -> b <= a) -> a / D <= b / D.
Proof.
  intros HD Hpos Hneg. destruct (Z.lt_trichotomy D 0) as [H|[H|H]]; [|lia|].
  - rewrite <- (Z.div_opp_opp a D), <- (Z.div_opp_opp b D) by lia.
    apply Z.div_le_mono; lia.
  - apply Z.div_le_mono; lia.
Qed.

Section RangeCover.
Context (A B D sx sy nx ny : Z) (HD : D <> 0).

Let f (cx cy : Z) : Q := (inject_Z (A * cx + B * cy) / inject_Z D)%Q.
Let lo := Qfloor (Qmin4 (f (nx - sx) (ny - sy)) (f (0 - sx) (ny - sy))
                    (f (nx - sx) (0 - sy)) (f (0 - sx) (0 - sy))).
Let hi := Qceiling (Qmax4 (f (nx - sx) (ny - sy)) (f (0 - sx) (ny - sy))
                      (f (nx - sx) (0 - sy)) (f (0 - sx) (0 - sy))).

Lemma corner_cases cj ci :
  (cj = 0 \/ cj = nx) -> (ci = 0 \/ ci = ny) ->
  f (cj - sx) (ci - sy) = f (nx - sx) (ny - sy) \/
  f (cj - sx) (ci - sy) = f (0 - sx) (ny - sy) \/
  f (cj - sx) (ci - sy) = f (nx - sx) (0 - sy) \/
  f (cj - sx) (ci - sy) = f (0 - sx) (0 - sy).
Proof. intros [-> | ->] [-> | ->]; auto. Qed.

Lemma range_cover (j i : Z) :
  0 <= j <= nx -> 0 <= i <= ny ->
  lo <= (A * (j - sx) + B * (i - sy)) / D <= hi.
Proof.
  intros Hj Hi. split.
  - destruct (linear_corner (Z.sgn D * A) (Z.sgn D * B) nx ny j i Hj Hi)
      as (cj & ci & Hcj & Hci & Hle).
    transitivity (Qfloor (f (cj - sx) (ci - sy))).
    + apply Qfloor_resp_le, Qmin4_le, corner_cases; assumption.
    + unfold f. rewrite Qfloor_div by exact HD.
      apply div_le_mono_any; [exact HD|..]; intros HDs; nia.
  - destruct (linear_corner (- Z.sgn D * A) (- Z.sgn D * B) nx ny j i Hj Hi)
      as (cj & ci & Hcj & Hci & Hle).
    transitivity (Qfloor (f (cj - sx) (ci - sy))).
    + unfold f. rewrite Qfloor_div by exact HD.
      apply div_le_mono_any; [exact HD|..]; intros HDs; nia.
    + etransitivity; [apply Qfloor_le_Qceiling|].
      apply Qceiling_resp_le, Qmax4_ge, corner_cases; assumption.
Qed.

End RangeCover.

(** ** Reduction of a point into the unit cell *)

Definition red_n (va vb q : vec) : Z := cross q vb / cross va vb.
Definition red_m (va vb q : vec) : Z := cross va q / cross va vb.
Definition reduce (va vb q : vec) : vec :=
  vsub q (vadd (vscale (red_n va vb q) va) (vscale (red_m va vb q) vb)).

Lemma half_open_mod D a : D <> 0 -> half_open D (a mod D).
Proof.
  intros HD. unfold half_open.
  destruct (Z.lt_trichotomy D 0) as [H|[H|H]]; [|lia|].
  - pose proof (Z.mod_neg_bound a D H). lia.
  - pose proof (Z.mod_pos_bound a D H). lia.
Qed.

Lemma half_open_div_unique D a n :
  D <> 0 -> half_open D (a - n * D) -> n = a / D.
Proof.
  intros HD Hh. unfold half_open in Hh.
  destruct (Z.lt_trichotomy D 0) as [H|[H|H]]; [|lia|].
  - apply (Z.div_unique_neg a D n (a - n * D)); lia.
  - apply (Z.div_unique_pos a D n (a - n * D)); lia.
Qed.

Lemma cross_translate_l va vb q n m :
  cross (vsub q (vadd (vscale n va) (vscale m vb))) vb
  = cross q vb - n * cross va vb.
Proof. unfold cross, vsub, vadd, vscale. simpl. ring. Qed.

Lemma cross_translate_r va vb q n m :
  cross va (vsub q (vadd (vscale n va) (vscale m vb)))
  = cross va q - m * cross va vb.
Proof. unfold cross, vsub, vadd, vscale. simpl. ring. Qed.

Lemma reduce_in_cell va vb q :
  cross va vb <> 0 -> test_in_cell (reduce va vb q) va vb = true.
Proof.
  intros HD. apply test_in_cell_spec; [exact HD|]. unfold reduce.
  rewrite cross_translate_l, cross_translate_r. unfold red_n, red_m.
  split.
  - replace (cross va q - cross va q / cross va vb * cross va vb)
      with (cross va q mod cross va vb)
      by (rewrite Z.mod_eq by exact HD; ring).
    now apply half_open_mod.
  - replace (cross q vb - cross q vb / cross va vb * cross va vb)
      with (cross q vb mod cross va vb)
      by (rewrite Z.mod_eq by exact HD; ring).
    now apply half_open_mod.
Qed.

Lemma in_cell_unique va vb q n m :
  cross va vb <> 0 ->
  test_in_cell (vsub q (vadd (vscale n va) (vscale m vb))) va vb = true ->
  n = red_n va vb q /\ m = red_m va vb q.
Proof.
  intros HD Hin. apply test_in_cell_spec in Hin as [Hu Ht]; [|exact HD].
  rewrite cross_translate_r in Hu. rewrite cross_translate_l in Ht.
  split; eapply half_open_div_unique; eauto.
Qed.

(** ** Unit cells as arrays *)

(** The extent along one axis of the parallelogram with sides [a], [b]. *)
Definition hull_lo (a b : Z) : Z := Z.min 0 (Z.min a (Z.min b (a + b))).
Definition hull_hi (a b : Z) : Z := Z.max 0 (Z.max a (Z.max b (a + b))).

(** [cell], with coordinates [seqZ x0 w] and [seqZ y0 h], is a cell of the
    lattice of [va], [vb], as [get_unit_cell], [get_sim_unit_cell],
    [convert_cell] and [double_cell] build them: its numbers sit on points
    of the half open parallelogram, and its bounding box holds the whole
    parallelogram and stays within the corners of the parallelogram. *)
Record unit_cell (va vb : vec) (cell : cell_array) (x0 w y0 h : Z) : Prop := {
  uc_rect : rect (Z.to_nat h) (Z.to_nat w) cell;
  uc_support : forall (i j : nat) v,
    get2 cell i j = Some (Val v) ->
    test_in_cell (x0 + Z.of_nat j, y0 + Z.of_nat i) va vb = true;
  uc_cover_x : x0 <= coords_low (fst va) (fst vb) /\
               coords_low (fst va) (fst vb) + (Z.abs (fst va) + Z.abs (fst vb))
                 <= x0 + w;
  uc_cover_y : y0 <= coords_low (snd va) (snd vb) /\
               coords_low (snd va) (snd vb) + (Z.abs (snd va) + Z.abs (snd vb))
                 <= y0 + h;
  uc_hull_x : hull_lo (fst va) (fst vb) <= x0 /\
              x0 + w <= hull_hi (fst va) (fst vb) + 1;
  uc_hull_y : hull_lo (snd va) (snd vb) <= y0 /\
              y0 + h <= hull_hi (snd va) (snd vb) + 1
}.

Lemma unit_cell_cover va vb cell x0 w y0 h p :
  unit_cell va vb cell x0 w y0 h -> cross va vb <> 0 ->
  test_in_cell p va vb = true ->
  x0 <= fst p < x0 + w /\ y0 <= snd p < y0 + h.
Proof.
  intros [_ _ Hx Hy _ _] HD Hin.
  apply in_cell_in_grid_abs, elem_of_grid in Hin as [H1 H2]; [|exact HD].
  apply elem_of_cell_coords in H1, H2. lia.
Qed.

Lemma unit_cell_size va vb cell x0 w y0 h :
  unit_cell va vb cell x0 w y0 h -> cross va vb <> 0 -> 0 < w /\ 0 < h.
Proof.
  intros [_ _ Hx Hy _ _] HD.
  destruct (cross_nonzero_components va vb HD). lia.
Qed.

Lemma cell_at_support va vb cell x0 w y0 h q v :
  unit_cell va vb cell x0 w y0 h ->
  cell_at cell x0 y0 q = Val v -> v <> 0 -> test_in_cell q va vb = true.
Proof.
  intros Huc Hat _. unfold cell_at in Hat.
  destruct (Z.leb_spec x0 (fst q)), (Z.leb_spec y0 (snd q)); simpl in Hat;
    try discriminate.
  destruct (get2 cell _ _) as [c|] eqn:Hg; simpl in Hat; [|discriminate]. subst c.
  apply (uc_support _ _ _ _ _ _ _ Huc) in Hg.
  rewrite !Z2Nat.id in Hg by lia.
  replace (x0 + (fst q - x0), y0 + (snd q - y0)) with q in Hg
    by (destruct q; simpl; f_equal; lia).
  exact Hg.
Qed.

(** The bit of the pattern at the pixel [p]: the entry of the cell at the
    reduction of [p - start]. *)
Definition pattern_bit (va vb start : vec) (cell : cell_array) (x0 y0 : Z)
    (p : vec) : bool :=
  negb (nzval (cell_at cell x0 y0 (reduce va vb (vsub p start))) =? 0).

Lemma pairs_NoDup ns ms : NoDup ns -> NoDup ms -> NoDup (pairs ns ms).
Proof.
  intros Hn Hm. unfold pairs. apply NoDup_bind; [| |exact Hn].
  - intros n1 n2 nm _ _ H1 H2.
    apply list_elem_of_fmap in H1 as (m1 & -> & _).
    apply list_elem_of_fmap in H2 as (m2 & Heq & _). congruence.
  - intros n _. apply NoDup_fmap_2; [|exact Hm]. intros m1 m2. congruence.
Qed.

Lemma elem_of_pairs ns ms n m : (n, m) ∈ pairs ns ms <-> n ∈ ns /\ m ∈ ms.
Proof.
  unfold pairs. rewrite list_elem_of_bind. split.
  - intros (n' & Hm & Hn). apply list_elem_of_fmap in Hm as (m' & [= -> ->] & Hm).
    auto.
  - intros [Hn Hm]. exists n. split; [|exact Hn].
    apply list_elem_of_fmap. eauto.
Qed.

Lemma tile_ranges_cover nx ny va vb start (j i : Z) :
  cross va vb <> 0 -> 0 <= j <= nx -> 0 <= i <= ny ->
  let r := tile_ranges nx ny va vb start in
  let q := vsub (j, i) start in
  na_min r <= red_n va vb q <= na_max r /\
  nb_min r <= red_m va vb q <= nb_max r.
Proof.
  intros HD Hj Hi. destruct start as [sx sy].
  unfold tile_ranges, corner_n, corner_m, red_n, red_m, vsub. cbn [fst snd na_min na_max nb_min nb_max].
  split.
  - pose proof (range_cover (snd vb) (- fst vb) (cross va vb) sx sy nx ny HD j i Hj Hi)
      as Hr. cbv zeta in Hr.
    replace (cross (j - sx, i - sy) vb)
      with (snd vb * (j - sx) + - fst vb * (i - sy)) by (unfold cross; simpl; ring).
    repeat match goal with
      | |- context [inject_Z (snd vb * ?a - fst vb * ?b)] =>
          replace (snd vb * a - fst vb * b) with (snd vb * a + - fst vb * b) by ring
      end.
    exact Hr.
  - pose proof (range_cover (- snd va) (fst va) (cross va vb) sx sy nx ny HD j i Hj Hi)
      as Hr. cbv zeta in Hr.
    replace (cross va (j - sx, i - sy))
      with (- snd va * (j - sx) + fst va * (i - sy)) by (unfold cross; simpl; ring).
    exact Hr.
Qed.

Lemma offset_reduce va vb start p n m :
  vsub p (offset va vb start n m)
  = vsub (vsub p start) (vadd (vscale n va) (vscale m vb)).
Proof. unfold vsub, offset, vadd, vscale. simpl. f_equal; ring. Qed.

Lemma pixel_final nx ny va vb start cell x0 w y0 h (j i : Z) :
  unit_cell va vb cell x0 w y0 h -> cross va vb <> 0 ->
  0 <= j < nx -> 0 <= i < ny ->
  let r := tile_ranges nx ny va vb start in
  fold_left (pixel_step va vb start cell x0 w y0 h (j, i))
    (pairs (rangeZ (na_min r) (na_max r + 1)) (rangeZ (nb_min r) (nb_max r + 1))) NaN
  = Val (nzval (cell_at cell x0 y0 (reduce va vb (vsub (j, i) start)))).
Proof.
  intros Huc HD Hj Hi r.
  set (q := vsub (j, i) start).
  destruct (tile_ranges_cover nx ny va vb start j i HD ltac:(lia) ltac:(lia))
    as [Hn Hm]. fold r q in Hn, Hm.
  rewrite (fold_pixel_unique va vb start cell x0 w y0 h (j, i) _
             (red_n va vb q, red_m va vb q)).
  - cbn [fst snd]. rewrite offset_reduce. reflexivity.
  - apply pairs_NoDup; apply NoDup_seqZ.
  - apply elem_of_pairs. unfold rangeZ. rewrite !elem_of_seqZ. lia.
  - cbn [fst snd]. rewrite offset_reduce. fold q.
    apply (unit_cell_cover va vb cell x0 w y0 h _ Huc HD).
    now apply reduce_in_cell.
  - intros [n m] _ Hne. cbn [fst snd]. rewrite offset_reduce. fold q.
    destruct (cell_at cell x0 y0 _) as [|v] eqn:Hat; [reflexivity|]. simpl.
    destruct (Z.eq_dec v 0) as [|Hv]; [assumption|]. exfalso. apply Hne.
    pose proof (cell_at_support _ _ _ _ _ _ _ _ _ Huc Hat Hv) as Hin.
    apply in_cell_unique in Hin as [-> ->]; [reflexivity | exact HD].
Qed.

(** The boolean array whose entry [(i, j)] is [f (j, i)]. *)
Definition bool_tab (ny nx : Z) (f : vec -> bool) : list (list bool) :=
  (fun i => (fun j => f (j, i)) <$> seqZ 0 nx) <$> seqZ 0 ny.

Lemma rect_bool_tab ny nx f : rect (Z.to_nat ny) (Z.to_nat nx) (bool_tab ny nx f).
Proof.
  unfold bool_tab. split; [now rewrite length_fmap, length_seqZ|].
  apply Forall_forall. intros r Hin.
  apply list_elem_of_fmap in Hin as (yy & -> & _).
  now rewrite length_fmap, length_seqZ.
Qed.

Lemma get2_bool_tab ny nx f (i j : nat) :
  Z.of_nat i < ny -> Z.of_nat j < nx ->
  get2 (bool_tab ny nx f) i j = Some (f (Z.of_nat j, Z.of_nat i)).
Proof.
  intros Hi Hj. unfold get2, bool_tab.
  rewrite list_lookup_fmap, lookup_seqZ_lt by lia. simpl.
  rewrite list_lookup_fmap, lookup_seqZ_lt by lia. reflexivity.
Qed.

Lemma rect_nan_array ny nx : rect (Z.to_nat ny) (Z.to_nat nx) (nan_array ny nx).
Proof.
  unfold nan_array. split; [apply length_replicate|].
  apply Forall_forall. intros r Hin.
  apply elem_of_replicate in Hin as [-> _]. apply length_replicate.
Qed.

Lemma get2_nan_array ny nx (i j : nat) :
  Z.of_nat i < ny -> Z.of_nat j < nx -> get2 (nan_array ny nx) i j = Some NaN.
Proof.
  intros Hi Hj. unfold get2, nan_array.
  rewrite lookup_replicate_2 by lia. simpl. apply lookup_replicate_2. lia.
Qed.

Lemma existsb_nan_false (a : cell_array) :
  (forall i j c, get2 a i j = Some c -> is_nan c = false) ->
  existsb (existsb is_nan) a = false.
Proof.
  intros H. apply not_true_is_false. intros Hex.
  apply existsb_exists in Hex as (r & Hr & Hex).
  apply existsb_exists in Hex as (c & Hc & Hnan).
  apply list_elem_of_In, list_elem_of_lookup in Hr as [i Hi].
  apply list_elem_of_In, list_elem_of_lookup in Hc as [j Hj].
  rewrite (H i j c) in Hnan; [discriminate|].
  unfold get2. rewrite Hi. exact Hj.
Qed.

(** Tiling a unit cell directly gives, at every pixel, the entry of the
    cell at the reduction of the pixel. *)
Theorem tile_direct_spec nx ny va vb start cell x0 w y0 h :
  unit_cell va vb cell x0 w y0 h -> cross va vb <> 0 -> 0 <= nx -> 0 <= ny ->
  tile_direct nx ny va vb start cell (seqZ x0 w) (seqZ y0 h)
  = Ok (bool_tab ny nx (pattern_bit va vb start cell x0 y0)).
Proof.
  intros Huc HD Hnx Hny.
  destruct (unit_cell_size _ _ _ _ _ _ _ Huc HD) as [Hw Hh].
  unfold tile_direct.
  destruct (Z.ltb_spec nx 0), (Z.ltb_spec ny 0); try lia. cbn [orb].
  destruct (Z.eqb_spec (cross va vb) 0) as [|_]; [contradiction|].
  set (r := tile_ranges nx ny va vb start).
  destruct (outer_loop_spec nx ny va vb start cell x0 w y0 h Hnx Hny Hw Hh
              (uc_rect _ _ _ _ _ _ _ Huc)
              (rangeZ (na_min r) (na_max r + 1)) (rangeZ (nb_min r) (nb_max r + 1))
              (nan_array ny nx) (rect_nan_array ny nx))
    as (pattern & Hloop & Hrect & Hget).
  rewrite Hloop. unfold mbind, result_bind. cbv beta iota.
  assert (Hpix : forall i j : nat, Z.of_nat i < ny -> Z.of_nat j < nx ->
            get2 pattern i j
            = Some (Val (nzval (cell_at cell x0 y0
                                  (reduce va vb (vsub (Z.of_nat j, Z.of_nat i) start)))))).
  { intros i j Hi Hj. rewrite Hget, get2_nan_array by assumption. simpl.
    f_equal. apply pixel_final; auto; lia. }
  unfold finish_pattern. rewrite existsb_nan_false.
  - f_equal. eapply rect_ext; [apply rect_fmap2, Hrect | apply rect_bool_tab |].
    intros i j Hi Hj. rewrite get2_fmap2, Hpix, get2_bool_tab by lia. reflexivity.
  - intros i j c Hc.
    destruct (get2_Some_lt _ _ _ _ _ _ Hrect Hc).
    rewrite Hpix in Hc by lia. now injection Hc as <-.
Qed.

(** ** Doubling a cell *)

(** The boolean mask assignment of [double_cell]: the numbers of [c]
    replace the entries of [b]. *)
Definition merge (b c : cellval) : cellval := if is_nan c then b else c.

Lemma merge_step (big cell : cell_array) (H' W' h w iy ix : Z) :
  rect (Z.to_nat H') (Z.to_nat W') big -> rect (Z.to_nat h) (Z.to_nat w) cell ->
  0 <= iy -> iy + h <= H' -> 0 <= ix -> ix + w <= W' -> 0 <= h -> 0 <= w ->
  let big' := update_slice2 big H' W' iy ix
                (zip_with (zip_with (fun b c => if is_nan c then b else c))
                   (slice2 big iy (iy + h) ix (ix + w)) cell) in
  rect (Z.to_nat H') (Z.to_nat W') big' /\
  forall i j : nat, Z.of_nat i < H' -> Z.of_nat j < W' ->
    get2 big' i j
    = b ← get2 big i j;
      Some (if decide (iy <= Z.of_nat i < iy + h /\ ix <= Z.of_nat j < ix + w)
            then merge b (default NaN (get2 cell (Z.to_nat (Z.of_nat i - iy))
                                         (Z.to_nat (Z.of_nat j - ix))))
            else b).
Proof.
  intros Hbig Hcell Hiy Hiy' Hix Hix' Hh Hw big'.
  assert (Hview : rect (Z.to_nat h) (Z.to_nat w) (slice2 big iy (iy + h) ix (ix + w))).
  { replace h with (iy + h - iy) at 1 by lia.
    replace w with (ix + w - ix) at 1 by lia.
    eapply rect_slice2; [exact Hbig|..]; lia. }
  pose proof (rect_zip_with2 (fun b c => if is_nan c then b else c) _ _ _ _ Hview Hcell)
    as Hblk.
  unfold big', update_slice2. rewrite !slice_bound_in_range by lia. split.
  - eapply rect_assign_slice2; [exact Hbig | exact Hblk | lia..].
  - intros i j Hi Hj.
    rewrite (get2_assign_slice2 _ _ _ _ _ _ _ _ _ _ Hbig Hblk) by lia.
    destruct (get2_is_Some _ _ big i j Hbig) as [b Hb]; [lia..|].
    rewrite Hb. simpl. case_decide as Hin.
    + rewrite decide_True by lia. rewrite get2_zip_with2.
      rewrite (get2_slice2 _ _ _ _ _ _ _ _ _ Hbig) by lia.
      replace (Z.to_nat iy + (i - Z.to_nat iy))%nat with i by lia.
      replace (Z.to_nat ix + (j - Z.to_nat ix))%nat with j by lia.
      rewrite Hb. simpl.
      replace (i - Z.to_nat iy)%nat with (Z.to_nat (Z.of_nat i - iy)) by lia.
      replace (j - Z.to_nat ix)%nat with (Z.to_nat (Z.of_nat j - ix)) by lia.
      destruct (get2_is_Some _ _ cell (Z.to_nat (Z.of_nat i - iy))
                  (Z.to_nat (Z.of_nat j - ix)) Hcell) as [c Hc]; [lia..|].
      rewrite Hc. reflexivity.
    + rewrite decide_False by lia. reflexivity.
Qed.

Lemma cell_at_outside (cell : cell_array) x0 w y0 h q :
  rect (Z.to_nat h) (Z.to_nat w) cell ->
  ~ (x0 <= fst q < x0 + w /\ y0 <= snd q < y0 + h) ->
  cell_at cell x0 y0 q = NaN.
Proof.
  intros Hr Hout. unfold cell_at.
  destruct (Z.leb_spec x0 (fst q)), (Z.leb_spec y0 (snd q)); simpl; try reflexivity.
  destruct (get2 cell _ _) as [c|] eqn:Hg; [|reflexivity].
  apply (get2_Some_lt _ _ _ _ _ _ Hr) in Hg. lia.
Qed.

Lemma cell_at_in_cell va vb cell x0 w y0 h q v :
  unit_cell va vb cell x0 w y0 h ->
  cell_at cell x0 y0 q = Val v -> test_in_cell q va vb = true.
Proof.
  intros Huc Hat. destruct (Z.eq_dec v 0) as [->|Hv].
  - unfold cell_at in Hat.
    destruct (Z.leb_spec x0 (fst q)), (Z.leb_spec y0 (snd q)); simpl in Hat;
      try discriminate.
    destruct (get2 cell _ _) as [c|] eqn:Hg; simpl in Hat; [|discriminate]. subst c.
    apply (uc_support _ _ _ _ _ _ _ Huc) in Hg.
    rewrite !Z2Nat.id in Hg by lia.
    replace (x0 + (fst q - x0), y0 + (snd q - y0)) with q in Hg
      by (destruct q; simpl; f_equal; lia).
    exact Hg.
  - eapply cell_at_support; eauto.
Qed.

Lemma in_cell_translate_zero va vb q n m :
  cross va vb <> 0 -> test_in_cell q va vb = true ->
  test_in_cell (vsub q (vadd (vscale n va) (vscale m vb))) va vb = true ->
  n = 0 /\ m = 0.
Proof.
  intros HD Hq Hq'.
  apply in_cell_unique in Hq' as [Hn Hm]; [|exact HD].
  assert (Hq0 : test_in_cell (vsub q (vadd (vscale 0 va) (vscale 0 vb))) va vb = true).
  { replace (vsub q (vadd (vscale 0 va) (vscale 0 vb))) with q; [exact Hq|].
    destruct q. unfold vsub, vadd, vscale. simpl. f_equal; lia. }
  apply in_cell_unique in Hq0 as [Hn0 Hm0]; [|exact HD]. lia.
Qed.

Lemma in_cell_double va vb q (e : Z) :
  cross va vb <> 0 -> (e = 0 \/ e = 1) ->
  test_in_cell (vsub q (vscale e va)) va vb = true ->
  test_in_cell q (vscale 2 va) vb = true.
Proof.
  intros HD He Hin.
  apply test_in_cell_spec in Hin as [Hu Ht]; [|exact HD].
  apply test_in_cell_spec; [rewrite cross_vscale_l; lia|].
  rewrite !cross_vscale_l.
  assert (Eu : cross va (vsub q (vscale e va)) = cross va q)
    by (unfold cross, vsub, vscale; simpl; ring).
  assert (Et : cross (vsub q (vscale e va)) vb = cross q vb - e * cross va vb)
    by (unfold cross, vsub, vscale; simpl; ring).
  rewrite Eu in Hu. rewrite Et in Ht. split.
  - apply half_open_scale; [lia | exact Hu].
  - unfold half_open in *. destruct He as [-> | ->]; lia.
Qed.

Lemma hull_lo_spec a b :
  hull_lo a b = (if a <? 0 then a else 0) + (if b <? 0 then b else 0).
Proof. unfold hull_lo. destruct (Z.ltb_spec a 0), (Z.ltb_spec b 0); lia. Qed.

Lemma hull_hi_spec a b :
  hull_hi a b = (if a <? 0 then 0 else a) + (if b <? 0 then 0 else b).
Proof. unfold hull_hi. destruct (Z.ltb_spec a 0), (Z.ltb_spec b 0); lia. Qed.

Lemma hull_width a b : 0 < hull_hi a b + 1 - hull_lo a b.
Proof.
  rewrite hull_lo_spec, hull_hi_spec.
  destruct (Z.ltb_spec a 0), (Z.ltb_spec b 0); lia.
Qed.

Lemma hull_double a b x0 w n :
  hull_lo a b <= x0 -> x0 + w <= hull_hi a b + 1 -> n = 0 \/ n = 1 ->
  hull_lo (2 * a) b <= x0 + a * n /\
  x0 + a * n + w <= hull_lo (2 * a) b + (hull_hi (2 * a) b + 1 - hull_lo (2 * a) b).
Proof.
  rewrite !hull_lo_spec, !hull_hi_spec. intros H1 H2 Hn.
  destruct (Z.ltb_spec a 0), (Z.ltb_spec b 0), (Z.ltb_spec (2 * a) 0), Hn; subst; lia.
Qed.

Lemma hull_fold_min a b :
  Z.min 0 (Z.min (2 * a) (Z.min b (Z.min (2 * a + b) 0))) = hull_lo (2 * a) b.
Proof.
  rewrite hull_lo_spec.
  destruct (Z.ltb_spec (2 * a) 0), (Z.ltb_spec b 0); lia.
Qed.

Lemma hull_fold_max a b :
  Z.max 0 (Z.max (2 * a) (Z.max b (Z.max (2 * a + b) 0))) = hull_hi (2 * a) b.
Proof.
  rewrite hull_hi_spec.
  destruct (Z.ltb_spec (2 * a) 0), (Z.ltb_spec b 0); lia.
Qed.

(** [big], with first coordinates [(xlo, ylo)], holds [g] at every point of
    its [H'] by [W'] box. *)
Definition holds (big : cell_array) (xlo W' ylo H' : Z) (g : vec -> cellval) : Prop :=
  rect (Z.to_nat H') (Z.to_nat W') big /\
  forall i j : nat, Z.of_nat i < H' -> Z.of_nat j < W' ->
    get2 big i j = Some (g (xlo + Z.of_nat j, ylo + Z.of_nat i)).

Lemma holds_cell_at big xlo W' ylo H' g q :
  holds big xlo W' ylo H' g ->
  xlo <= fst q < xlo + W' -> ylo <= snd q < ylo + H' ->
  cell_at big xlo ylo q = g q.
Proof.
  intros [_ Hg] Hx Hy. unfold cell_at.
  destruct (Z.leb_spec xlo (fst q)), (Z.leb_spec ylo (snd q)); try lia. simpl.
  rewrite Hg by lia. simpl. rewrite !Z2Nat.id by lia.
  destruct q. simpl. f_equal; f_equal; lia.
Qed.

(** One pass of the loop [for n in [0, 1]] of [double_cell]. *)
Lemma double_body (cell big : cell_array) x0 w y0 h xlo W' ylo H' (va : vec) n g :
  rect (Z.to_nat h) (Z.to_nat w) cell -> 0 < w -> 0 < h ->
  holds big xlo W' ylo H' g ->
  xlo <= x0 + fst va * n -> x0 + fst va * n + w <= xlo + W' ->
  ylo <= y0 + snd va * n -> y0 + snd va * n + h <= ylo + H' ->
  let iy := snd va * n - ylo + y0 in
  let ix := fst va * n - xlo + x0 in
  holds (update_slice2 big H' W' iy ix
           (zip_with (zip_with (fun b c => if is_nan c then b else c))
              (slice2 big iy (iy + h) ix (ix + w)) cell))
    xlo W' ylo H'
    (fun q => merge (g q) (cell_at cell x0 y0 (vsub q (vscale n va)))).
Proof.
  intros Hcell Hw Hh [Hbig Hg] Hx1 Hx2 Hy1 Hy2 iy ix.
  destruct (merge_step big cell H' W' h w iy ix Hbig Hcell) as [Hr Hget];
    try (unfold iy, ix; lia).
  split; [exact Hr|]. intros i j Hi Hj.
  rewrite Hget, Hg by assumption. simpl. f_equal.
  unfold vsub, vscale. cbn [fst snd].
  case_decide as Hin.
  - f_equal. unfold cell_at. cbn [fst snd].
    destruct (Z.leb_spec x0 (xlo + Z.of_nat j - n * fst va)),
      (Z.leb_spec y0 (ylo + Z.of_nat i - n * snd va)); try (unfold iy, ix in Hin; lia).
    simpl. do 3 f_equal; unfold iy, ix; lia.
  - rewrite (cell_at_outside cell x0 w y0 h); [reflexivity | exact Hcell |].
    cbn [fst snd]. unfold iy, ix in Hin. lia.
Qed.

Lemma holds_nan_array xlo W' ylo H' :
  holds (nan_array H' W') xlo W' ylo H' (fun _ => NaN).
Proof.
  split; [apply rect_nan_array|]. intros i j Hi Hj. now apply get2_nan_array.
Qed.

Lemma double_cell_once_spec va vb cell x0 w y0 h :
  unit_cell va vb cell x0 w y0 h -> cross va vb <> 0 ->
  let xlo := hull_lo (2 * fst va) (fst vb) in
  let W' := hull_hi (2 * fst va) (fst vb) + 1 - xlo in
  let ylo := hull_lo (2 * snd va) (snd vb) in
  let H' := hull_hi (2 * snd va) (snd vb) + 1 - ylo in
  exists big,
    double_cell_once cell (seqZ x0 w) (seqZ y0 h) va vb
      = Ok (big, seqZ xlo W', seqZ ylo H') /\
    holds big xlo W' ylo H'
      (fun q => merge (merge NaN (cell_at cell x0 y0 q))
                  (cell_at cell x0 y0 (vsub q va))).
Proof.
  intros Huc HD xlo W' ylo H'.
  destruct (unit_cell_size _ _ _ _ _ _ _ Huc HD) as [Hw Hh].
  pose proof (uc_rect _ _ _ _ _ _ _ Huc) as Hcell.
  destruct (uc_hull_x _ _ _ _ _ _ _ Huc) as [Hx1 Hx2].
  destruct (uc_hull_y _ _ _ _ _ _ _ Huc) as [Hy1 Hy2].
  pose proof (hull_width (2 * fst va) (fst vb)) as HW'. fold xlo W' in HW'.
  pose proof (hull_width (2 * snd va) (snd vb)) as HH'. fold ylo H' in HH'.
  destruct (hull_double _ _ _ _ 0 Hx1 Hx2 ltac:(auto)) as [B0x1 B0x2].
  destruct (hull_double _ _ _ _ 1 Hx1 Hx2 ltac:(auto)) as [B1x1 B1x2].
  destruct (hull_double _ _ _ _ 0 Hy1 Hy2 ltac:(auto)) as [B0y1 B0y2].
  destruct (hull_double _ _ _ _ 1 Hy1 Hy2 ltac:(auto)) as [B1y1 B1y2].
  fold xlo W' in B0x1, B0x2, B1x1, B1x2. fold ylo H' in B0y1, B0y2, B1y1, B1y2.
  clear Hx1 Hx2 Hy1 Hy2.
  unfold double_cell_once.
  rewrite (shape0_rect _ _ _ Hcell), (shape1_rect _ _ _ Hcell) by lia.
  rewrite !Z2Nat.id by lia.
  cbn [foldr fst snd vscale vadd].
  rewrite !hull_fold_min, !hull_fold_max.
  unfold rangeZ. fold xlo ylo. fold W' H'.
  clearbody xlo W' ylo H'.
  rewrite !length_seqZ, !Z2Nat.id by lia.
  cbn [for_each].
  rewrite !np_min_seqZ by assumption.
  unfold mbind, result_bind. cbv beta iota.
  pose proof (double_body cell _ x0 w y0 h xlo W' ylo H' va 0 _ Hcell Hw Hh
                (holds_nan_array xlo W' ylo H') B0x1 B0x2 B0y1 B0y2) as Hb0.
  cbv zeta in Hb0.
  pose proof (double_body cell _ x0 w y0 h xlo W' ylo H' va 1 _ Hcell Hw Hh Hb0
                B1x1 B1x2 B1y1 B1y2) as Hb1.
  cbv zeta in Hb1.
  eexists. split.
  - rewrite !slice_len_in_range by lia.
    replace (snd va * 0 - ylo + y0 + h - (snd va * 0 - ylo + y0)) with h by lia.
    replace (fst va * 0 - xlo + x0 + w - (fst va * 0 - xlo + x0)) with w by lia.
    replace (snd va * 1 - ylo + y0 + h - (snd va * 1 - ylo + y0)) with h by lia.
    replace (fst va * 1 - xlo + x0 + w - (fst va * 1 - xlo + x0)) with w by lia.
    rewrite !Z.eqb_refl. cbn [andb]. reflexivity.
  - destruct Hb1 as [Hr1 Hg1]. split; [exact Hr1|].
    intros i j Hi Hj. rewrite Hg1 by assumption. f_equal.
    f_equal; [f_equal|]; f_equal; destruct va; unfold vsub, vscale; simpl;
      f_equal; lia.
Qed.


Lemma hull_cover a b :
  hull_lo a b <= coords_low a b /\
  coords_low a b + (Z.abs a + Z.abs b) <= hull_hi a b + 1.
Proof.
  rewrite hull_lo_spec, hull_hi_spec. unfold coords_low.
  destruct (Z.ltb_spec a 0), (Z.geb_spec b 0), (Z.ltb_spec b 0), (Z.geb_spec a 0);
    simpl; lia.
Qed.

Lemma merge_Val b c v :
  merge b c = Val v -> c = Val v \/ (c = NaN /\ b = Val v).
Proof. unfold merge. destruct c; simpl; auto. Qed.

Lemma vsub_scale_1 q va : vsub q va = vsub q (vscale 1 va).
Proof. destruct q, va. unfold vsub, vscale. simpl. f_equal; lia. Qed.

Lemma vsub_scale_0 q va : q = vsub q (vscale 0 va).
Proof. destruct q, va. unfold vsub, vscale. simpl. f_equal; lia. Qed.

Lemma doubled_unit_cell va vb cell x0 w y0 h big :
  unit_cell va vb cell x0 w y0 h -> cross va vb <> 0 ->
  let xlo := hull_lo (2 * fst va) (fst vb) in
  let W' := hull_hi (2 * fst va) (fst vb) + 1 - xlo in
  let ylo := hull_lo (2 * snd va) (snd vb) in
  let H' := hull_hi (2 * snd va) (snd vb) + 1 - ylo in
  holds big xlo W' ylo H'
    (fun q => merge (merge NaN (cell_at cell x0 y0 q))
                (cell_at cell x0 y0 (vsub q va))) ->
  unit_cell (vscale 2 va) vb big xlo W' ylo H'.
Proof.
  intros Huc HD xlo W' ylo H' [Hr Hg]. split.
  - exact Hr.
  - intros i j v Hget.
    destruct (get2_Some_lt _ _ _ _ _ _ Hr Hget) as [Hi Hj].
    rewrite Hg in Hget by lia. injection Hget as Hget.
    apply merge_Val in Hget as [Hc | [_ Hc]].
    + apply (in_cell_double va vb _ 1 HD ltac:(auto)).
      rewrite <- vsub_scale_1. eapply cell_at_in_cell; eauto.
    + apply merge_Val in Hc as [Hc | [_ Hc]]; [|discriminate].
      apply (in_cell_double va vb _ 0 HD ltac:(auto)).
      rewrite <- vsub_scale_0. eapply cell_at_in_cell; eauto.
  - cbn [fst snd vscale]. pose proof (hull_cover (2 * fst va) (fst vb)).
    unfold W', xlo. lia.
  - cbn [fst snd vscale]. pose proof (hull_cover (2 * snd va) (snd vb)).
    unfold H', ylo. lia.
  - cbn [fst snd vscale]. unfold W', xlo. lia.
  - cbn [fst snd vscale]. unfold H', ylo. lia.
Qed.

Lemma reduce_double va vb z :
  cross va vb <> 0 ->
  exists e, (e = 0 \/ e = 1) /\
    reduce (vscale 2 va) vb z = vadd (reduce va vb z) (vscale e va).
Proof.
  intros HD. unfold reduce, red_n, red_m.
  rewrite !cross_vscale_l.
  assert (Hm : 2 * cross va z / (2 * cross va vb) = cross va z / cross va vb)
    by (apply Z.div_mul_cancel_l; lia).
  assert (Hn : cross z vb / (2 * cross va vb) = cross z vb / cross va vb / 2)
    by (rewrite Z.div_div by lia; f_equal; lia).
  replace (cross (vscale 2 va) z) with (2 * cross va z)
    by (unfold cross, vscale; simpl; ring).
  rewrite Hm, Hn.
  set (n := cross z vb / cross va vb). set (m := cross va z / cross va vb).
  exists (n mod 2). split.
  - pose proof (Z.mod_pos_bound n 2 ltac:(lia)). lia.
  - pose proof (Z.div_mod n 2 ltac:(lia)) as Hdm.
    destruct z, va, vb. unfold vsub, vadd, vscale. simpl. f_equal; nia.
Qed.

Lemma cell_at_doubled va vb cell x0 w y0 h big z :
  unit_cell va vb cell x0 w y0 h -> cross va vb <> 0 ->
  let xlo := hull_lo (2 * fst va) (fst vb) in
  let W' := hull_hi (2 * fst va) (fst vb) + 1 - xlo in
  let ylo := hull_lo (2 * snd va) (snd vb) in
  let H' := hull_hi (2 * snd va) (snd vb) + 1 - ylo in
  holds big xlo W' ylo H'
    (fun q => merge (merge NaN (cell_at cell x0 y0 q))
                (cell_at cell x0 y0 (vsub q va))) ->
  cell_at big xlo ylo (reduce (vscale 2 va) vb z)
  = cell_at cell x0 y0 (reduce va vb z).
Proof.
  intros Huc HD xlo W' ylo H' Hholds.
  pose proof (doubled_unit_cell va vb cell x0 w y0 h big Huc HD Hholds) as Huc2.
  assert (HD2 : cross (vscale 2 va) vb <> 0) by (rewrite cross_vscale_l; lia).
  pose proof (reduce_in_cell (vscale 2 va) vb z HD2) as Hin2.
  destruct (unit_cell_cover _ _ _ _ _ _ _ _ Huc2 HD2 Hin2) as [Hbx Hby].
  rewrite (holds_cell_at big _ _ _ _ _ _ Hholds Hbx Hby).
  pose proof (reduce_in_cell va vb z HD) as Hin.
  destruct (reduce_double va vb z HD) as (e & He & ->).
  set (r := reduce va vb z) in *.
  assert (Hnot : forall k v, k <> 0 ->
            cell_at cell x0 y0 (vsub r (vscale k va)) <> Val v).
  { intros k v Hk Hat. apply (cell_at_in_cell _ _ _ _ _ _ _ _ _ Huc) in Hat.
    replace (vsub r (vscale k va))
      with (vsub r (vadd (vscale k va) (vscale 0 vb))) in Hat
      by (destruct r, va, vb; unfold vsub, vadd, vscale; simpl; f_equal; lia).
    apply in_cell_translate_zero in Hat as [? _]; auto. }
  destruct He as [-> | ->].
  - replace (vadd r (vscale 0 va)) with r
      by (destruct r, va; unfold vadd, vscale; simpl; f_equal; lia).
    rewrite (vsub_scale_1 r va).
    destruct (cell_at cell x0 y0 (vsub r (vscale 1 va))) as [|v] eqn:Hc1;
      [|exfalso; now apply (Hnot 1 v)].
    unfold merge. simpl. now destruct (cell_at cell x0 y0 r).
  - replace (vsub (vadd r (vscale 1 va)) va) with r
      by (destruct r, va; unfold vsub, vadd, vscale; simpl; f_equal; lia).
    replace (vadd r (vscale 1 va)) with (vsub r (vscale (-1) va))
      by (destruct r, va; unfold vsub, vadd, vscale; simpl; f_equal; lia).
    destruct (cell_at cell x0 y0 (vsub r (vscale (-1) va))) as [|v] eqn:Hc0;
      [|exfalso; now apply (Hnot (-1) v)].
    unfold merge. simpl. now destruct (cell_at cell x0 y0 r).
Qed.


(** *** The two vectors play symmetric roles *)

Lemma reduce_comm va vb z :
  cross va vb <> 0 -> reduce va vb z = reduce vb va z.
Proof.
  intros HD. unfold reduce, red_n, red_m.
  rewrite (cross_swap va vb), (cross_swap va z), (cross_swap z vb).
  rewrite !Z.div_opp_opp by lia.
  destruct z, va, vb. unfold vsub, vadd, vscale. simpl. f_equal; lia.
Qed.

Lemma coords_low_comm a b : coords_low a b = coords_low b a.
Proof.
  unfold coords_low.
  destruct (Z.ltb_spec a 0), (Z.geb_spec b 0), (Z.ltb_spec b 0), (Z.geb_spec a 0);
    simpl; lia.
Qed.

Lemma hull_lo_comm a b : hull_lo a b = hull_lo b a.
Proof. unfold hull_lo. lia. Qed.

Lemma hull_hi_comm a b : hull_hi a b = hull_hi b a.
Proof. unfold hull_hi. lia. Qed.

Lemma unit_cell_comm va vb cell x0 w y0 h :
  unit_cell va vb cell x0 w y0 h -> unit_cell vb va cell x0 w y0 h.
Proof.
  intros [Hr Hs Hcx Hcy Hhx Hhy]. split.
  - exact Hr.
  - intros i j v Hget. rewrite <- test_in_cell_comm. eauto.
  - rewrite coords_low_comm. lia.
  - rewrite coords_low_comm. lia.
  - rewrite hull_lo_comm, hull_hi_comm. lia.
  - rewrite hull_lo_comm, hull_hi_comm. lia.
Qed.

(** *** Cells that represent a periodic function *)

(** The cell [st], with its coordinate vectors, is a unit cell of the basis
    whose entry at the representative [reduce va vb z] of [z] is [F z]. *)
Definition represents (va vb : vec) (st : cell_array * list Z * list Z)
    (F : vec -> cellval) : Prop :=
  let '(cell, xs, ys) := st in
  exists x0 w y0 h,
    xs = seqZ x0 w /\ ys = seqZ y0 h /\
    unit_cell va vb cell x0 w y0 h /\
    forall z, cell_at cell x0 y0 (reduce va vb z) = F z.

Lemma represents_comm va vb st F :
  cross va vb <> 0 -> represents va vb st F -> represents vb va st F.
Proof.
  intros HD. destruct st as [[cell xs] ys].
  intros (x0 & w & y0 & h & -> & -> & Huc & HF).
  exists x0, w, y0, h. split; [reflexivity|]. split; [reflexivity|]. split.
  - apply unit_cell_comm, Huc.
  - intros z. rewrite <- reduce_comm by exact HD. apply HF.
Qed.

Lemma vscale_1 v : vscale 1 v = v.
Proof. destruct v. unfold vscale. simpl. f_equal; lia. Qed.

Lemma vscale_vscale a b v : vscale a (vscale b v) = vscale (a * b) v.
Proof. destruct v. unfold vscale. simpl. f_equal; lia. Qed.

Lemma double_cell_once_represents va vb cell xs ys F :
  cross va vb <> 0 -> represents va vb (cell, xs, ys) F ->
  exists st, double_cell_once cell xs ys va vb = Ok st /\
             represents (vscale 2 va) vb st F.
Proof.
  intros HD (x0 & w & y0 & h & -> & -> & Huc & HF).
  destruct (double_cell_once_spec va vb cell x0 w y0 h Huc HD)
    as (big & Hrun & Hholds).
  eexists. split; [exact Hrun|].
  do 4 eexists. split; [reflexivity|]. split; [reflexivity|]. split.
  - exact (doubled_unit_cell va vb cell x0 w y0 h big Huc HD Hholds).
  - intros z. rewrite <- HF.
    exact (cell_at_doubled va vb cell x0 w y0 h big z Huc HD Hholds).
Qed.

(** Invariants of a counted loop. *)
Lemma for_each_seqZ_inv {St : Type} (I : Z -> St -> Prop)
    (body : Z -> St -> result St) (k : nat) : forall a s0,
  I a s0 ->
  (forall i s, a <= i < a + Z.of_nat k -> I i s ->
     exists s', body i s = Ok s' /\ I (i + 1) s') ->
  exists s', for_each (seqZ a (Z.of_nat k)) body s0 = Ok s' /\
             I (a + Z.of_nat k) s'.
Proof.
  induction k as [|k IH]; intros a s0 H0 Hstep.
  - exists s0. split; [reflexivity|]. now rewrite Z.add_0_r.
  - rewrite seqZ_cons by lia. simpl for_each.
    destruct (Hstep a s0 ltac:(lia) H0) as (s1 & Hb & H1).
    rewrite Hb. unfold mbind, result_bind. cbv beta iota.
    replace (Z.pred (Z.of_nat (S k))) with (Z.of_nat k) by lia.
    destruct (IH (Z.succ a) s1) as (s' & Hrun & HI).
    + now replace (Z.succ a) with (a + 1) by lia.
    + intros i s Hi. apply Hstep. lia.
    + exists s'. split; [exact Hrun|].
      now replace (a + Z.of_nat (S k)) with (Z.succ a + Z.of_nat k) by lia.
Qed.

Lemma pow2_pos k : 0 < 2 ^ k \/ k < 0.
Proof. destruct (Z.le_gt_cases 0 k); [left; now apply Z.pow_pos_nonneg | now right]. Qed.

Lemma double_cell_represents va vb cell xs ys F na nb :
  cross va vb <> 0 -> 0 <= na -> 0 <= nb ->
  represents va vb (cell, xs, ys) F ->
  exists st, double_cell cell xs ys va vb na nb = Ok st /\
             represents (vscale (2 ^ na) va) (vscale (2 ^ nb) vb) st F.
Proof.
  intros HD Hna Hnb Hrep. unfold double_cell.
  destruct (negb ((na =? 1) && (nb =? 0))) eqn:Hbr.
  - destruct (for_each_seqZ_inv
                (fun ii st => represents (vscale (2 ^ ii) va) vb st F)
                (fun ii '(big_cell, xs, ys) =>
                   double_cell_once big_cell xs ys (vscale (2 ^ ii) va) vb)
                (Z.to_nat na) 0 (cell, xs, ys))
      as (st1 & Hrun1 & Hrep1).
    + now rewrite vscale_1.
    + intros i [[big xs1] ys1] Hi Hinv.
      assert (0 < 2 ^ i) by (apply Z.pow_pos_nonneg; lia).
      destruct (double_cell_once_represents (vscale (2 ^ i) va) vb big xs1 ys1 F)
        as (st & Hrun & Hst); auto.
      { rewrite cross_vscale_l. nia. }
      exists st. split; [exact Hrun|].
      rewrite vscale_vscale in Hst.
      now replace (2 ^ (i + 1)) with (2 * 2 ^ i)
        by (rewrite Z.pow_add_r by lia; lia).
    + rewrite Z2Nat.id in Hrun1, Hrep1 by lia.
      unfold rangeZ. rewrite !Z.sub_0_r, Hrun1.
      unfold mbind at 1, result_bind at 1. cbv beta iota.
      rewrite Z.add_0_l in Hrep1.
      assert (Hpa : 0 < 2 ^ na) by (apply Z.pow_pos_nonneg; lia).
      assert (HD1 : cross (vscale (2 ^ na) va) vb <> 0)
        by (rewrite cross_vscale_l; nia).
      destruct (for_each_seqZ_inv
                  (fun jj st =>
                     represents (vscale (2 ^ jj) vb) (vscale (2 ^ na) va) st F)
                  (fun jj '(big_cell, xs, ys) =>
                     double_cell_once big_cell xs ys (vscale (2 ^ jj) vb)
                       (vscale (2 ^ na) va))
                  (Z.to_nat nb) 0 st1)
        as (st2 & Hrun2 & Hrep2).
      * rewrite vscale_1. now apply represents_comm.
      * intros i [[big xs1] ys1] Hi Hinv.
        assert (0 < 2 ^ i) by (apply Z.pow_pos_nonneg; lia).
        destruct (double_cell_once_represents (vscale (2 ^ i) vb)
                    (vscale (2 ^ na) va) big xs1 ys1 F)
          as (st & Hrun & Hst); auto.
        { rewrite cross_vscale_l, cross_swap. nia. }
        exists st. split; [exact Hrun|].
        rewrite vscale_vscale in Hst.
        now replace (2 ^ (i + 1)) with (2 * 2 ^ i)
          by (rewrite Z.pow_add_r by lia; lia).
      * rewrite Z2Nat.id in Hrun2, Hrep2 by lia.
        rewrite Hrun2. exists st2. split; [reflexivity|].
        rewrite Z.add_0_l in Hrep2.
        assert (Hpb : 0 < 2 ^ nb) by (apply Z.pow_pos_nonneg; lia).
        apply represents_comm; [|exact Hrep2].
        rewrite cross_vscale_l, cross_swap, cross_vscale_l. nia.
  - apply negb_false_iff, andb_true_iff in Hbr as [H1 H0].
    apply Z.eqb_eq in H1, H0. subst na nb.
    destruct (double_cell_once_represents va vb cell xs ys F HD Hrep)
      as (st & Hrun & Hst).
    exists st. split; [exact Hrun|].
    change (2 ^ 1) with 2. change (2 ^ 0) with 1. now rewrite vscale_1.
Qed.

(** *** The tiled pattern *)

(** The pattern of the periodic function [F], shifted by [start]. *)
Definition tiled (F : vec -> cellval) (start : vec) (p : vec) : bool :=
  negb (nzval (F (vsub p start)) =? 0).

Lemma bool_tab_ext ny nx f g :
  (forall p, f p = g p) -> bool_tab ny nx f = bool_tab ny nx g.
Proof.
  intros Hfg. unfold bool_tab.
  apply list_fmap_ext. intros _ i _.
  apply list_fmap_ext. intros _ j _. apply Hfg.
Qed.

Lemma tile_direct_represents nx ny va vb start cell xs ys F :
  cross va vb <> 0 -> 0 <= nx -> 0 <= ny ->
  represents va vb (cell, xs, ys) F ->
  tile_direct nx ny va vb start cell xs ys = Ok (bool_tab ny nx (tiled F start)).
Proof.
  intros HD Hnx Hny (x0 & w & y0 & h & -> & -> & Huc & HF).
  rewrite (tile_direct_spec nx ny va vb start cell x0 w y0 h Huc HD Hnx Hny).
  f_equal. apply bool_tab_ext. intros p. unfold pattern_bit, tiled.
  now rewrite HF.
Qed.

Lemma doublings_pos k : 1 <= doublings k.
Proof. unfold doublings. apply Z.le_max_r. Qed.

Lemma tile_core_represents nx ny start F fuel :
  forall va vb cell xs ys r,
  cross va vb <> 0 -> 0 <= nx -> 0 <= ny ->
  represents va vb (cell, xs, ys) F ->
  tile_core fuel nx ny va vb start cell xs ys = Some r ->
  r = Ok (bool_tab ny nx (tiled F start)).
Proof.
  induction fuel as [|fuel IH]; intros va vb cell xs ys r HD Hnx Hny Hrep;
    [discriminate|].
  simpl tile_core.
  destruct (Z.ltb_spec nx 0); [lia|]. destruct (Z.ltb_spec ny 0); [lia|].
  simpl orb. cbv iota.
  destruct (Z.eqb_spec (cross va vb) 0); [contradiction|].
  set (rg := tile_ranges nx ny va vb start).
  destruct ((na_max rg - na_min rg) * (nb_max rg - nb_min rg) >? 1000).
  - pose proof (doublings_pos (na_max rg - na_min rg)) as Hna.
    pose proof (doublings_pos (nb_max rg - nb_min rg)) as Hnb.
    destruct (double_cell_represents va vb cell xs ys F
                (doublings (na_max rg - na_min rg))
                (doublings (nb_max rg - nb_min rg)) HD
                ltac:(lia) ltac:(lia) Hrep) as ([[big xp] yp] & Hrun & Hrep').
    rewrite Hrun. apply IH; auto.
    rewrite cross_vscale_l, cross_vscale_r.
    assert (0 < 2 ^ doublings (na_max rg - na_min rg))
      by (apply Z.pow_pos_nonneg; lia).
    assert (0 < 2 ^ doublings (nb_max rg - nb_min rg))
      by (apply Z.pow_pos_nonneg; lia).
    nia.
  - intros [= <-]. now apply tile_direct_represents.
Qed.


(** *** The doubling path terminates: the loop ranges shrink *)















Lemma unit_cell_represents va vb cell x0 w y0 h :
  unit_cell va vb cell x0 w y0 h ->
  represents va vb (cell, seqZ x0 w, seqZ y0 h)
    (fun z => cell_at cell x0 y0 (reduce va vb z)).
Proof. intros Huc. exists x0, w, y0, h. auto. Qed.

(** A 2 x 2 cell with one pixel on, tiled over a 70 x 70 canvas: the loops
    would make 35 x 35 passes, so [tile_pattern] takes the doubling path. *)
Definition checker_cell : cell_array := [[Val 1; Val 0]; [Val 0; Val 0]].

Lemma checker_unit_cell : unit_cell (2, 0) (0, 2) checker_cell 0 2 0 2.
Proof.
  split.
  - split; [reflexivity|]. repeat constructor.
  - intros [|[|i]] [|[|j]] v; vm_compute; congruence.
  - vm_compute. split; discriminate.
  - vm_compute. split; discriminate.
  - vm_compute. split; discriminate.
  - vm_compute. split; discriminate.
Qed.



(** *** Periodicity *)

Lemma reduce_periodic va vb z u :
  cross va vb <> 0 -> in_lattice va vb u ->
  reduce va vb (vadd z u) = reduce va vb z.
Proof.
  intros HD (n & m & ->).
  pose proof (reduce_in_cell va vb z HD) as Hin.
  set (n0 := red_n va vb z) in *. set (m0 := red_m va vb z) in *.
  destruct (in_cell_unique va vb (vadd z (vadd (vscale n va) (vscale m vb)))
              (n0 + n) (m0 + m) HD) as [Hn Hm].
  { replace (vsub _ _) with (reduce va vb z); [exact Hin|].
    unfold reduce. fold n0 m0.
    destruct z, va, vb. unfold vsub, vadd, vscale. simpl. f_equal; ring. }
  unfold reduce at 1. rewrite <- Hn, <- Hm. unfold reduce. fold n0 m0.
  destruct z, va, vb. unfold vsub, vadd, vscale. simpl. f_equal; ring.
Qed.

Lemma represents_periodic va vb st F u z :
  cross va vb <> 0 -> represents va vb st F -> in_lattice va vb u ->
  F (vadd z u) = F z.
Proof.
  intros HD Hrep Hu. destruct st as [[cell xs] ys].
  destruct Hrep as (x0 & w & y0 & h & _ & _ & _ & HF).
  rewrite <- !HF. now rewrite reduce_periodic.
Qed.

(** [pattern[y, x] == pattern[y + v_y, x + v_x]] wherever both pixels are
    on the canvas. *)
Definition periodic (nx ny : Z) (pattern : list (list bool)) (v : vec) : Prop :=
  forall x y, 0 <= x < nx -> 0 <= y < ny ->
    0 <= x + fst v < nx -> 0 <= y + snd v < ny ->
    exists b, get2 pattern (Z.to_nat y) (Z.to_nat x) = Some b /\
              get2 pattern (Z.to_nat (y + snd v)) (Z.to_nat (x + fst v)) = Some b.

Lemma bool_tab_periodic nx ny F start v :
  (forall z, F (vadd z v) = F z) ->
  periodic nx ny (bool_tab ny nx (tiled F start)) v.
Proof.
  intros HF x y Hx Hy Hx' Hy'. eexists. split.
  - rewrite get2_bool_tab by lia. rewrite !Z2Nat.id by lia. reflexivity.
  - rewrite get2_bool_tab by lia. rewrite !Z2Nat.id by lia.
    f_equal. unfold tiled.
    replace (vsub (x + fst v, y + snd v) start) with (vadd (vsub (x, y) start) v)
      by (destruct v, start; unfold vsub, vadd; simpl; f_equal; ring).
    now rewrite HF.
Qed.

Lemma in_lattice_a va vb : in_lattice va vb va.
Proof. exists 1, 0. destruct va, vb. unfold vadd, vscale. simpl. f_equal; ring. Qed.

Lemma in_lattice_b va vb : in_lattice va vb vb.
Proof. exists 0, 1. destruct va, vb. unfold vadd, vscale. simpl. f_equal; ring. Qed.

Lemma tile_core_periodic fuel nx ny va vb start cell xs ys F pat u :
  cross va vb <> 0 -> represents va vb (cell, xs, ys) F ->
  in_lattice va vb u ->
  tile_core fuel nx ny va vb start cell xs ys = Some (Ok pat) ->
  periodic nx ny pat u.
Proof.
  intros HD Hrep Hu Hrun.
  destruct (Z.ltb_spec nx 0) as [Hnx|Hnx]; [intros x y ?; lia|].
  destruct (Z.ltb_spec ny 0) as [Hny|Hny]; [intros x y ? ?; lia|].
  pose proof (tile_core_represents nx ny start F fuel va vb cell xs ys _
                HD Hnx Hny Hrep Hrun) as [= ->].
  apply bool_tab_periodic. intros z.
  exact (represents_periodic va vb _ F u z HD Hrep Hu).
Qed.

(** *** The cell of the reduced basis *)

Lemma for_each_inv_ok {St X : Type} (P : St -> Prop) (xs : list X)
    (body : X -> St -> result St) :
  (forall x s s', P s -> body x s = Ok s' -> P s') ->
  forall s s', P s -> for_each xs body s = Ok s' -> P s'.
Proof.
  intros Hstep. induction xs as [|x xs IH]; intros s s' Hs Hrun; simpl in Hrun.
  - now injection Hrun as <-.
  - apply bind_ok in Hrun as (s1 & Hb & Hrest). eauto.
Qed.

Lemma cv_add_Val c v r : cv_add c v = Val r -> exists c0, c = Val c0.
Proof. destruct c, v; simpl; intros [=]; eauto. Qed.

Lemma add2_unit_cell va vb arr x0 w y0 h i j v arr' :
  unit_cell va vb arr x0 w y0 h -> add2 arr i j v = Ok arr' ->
  unit_cell va vb arr' x0 w y0 h.
Proof.
  intros [Hr Hs Hcx Hcy Hhx Hhy]. unfold add2, cell_array in *.
  destruct (arr !! i) as [r|] eqn:Hi; [|discriminate].
  destruct (r !! j) as [c|] eqn:Hj; [|discriminate].
  intros [= <-]. split; auto.
  - destruct Hr as [Hlen Hall]. split; [now rewrite length_insert|].
    apply Forall_insert; [exact Hall|].
    rewrite length_insert. rewrite Forall_forall in Hall.
    apply Hall. eapply list_elem_of_lookup_2; eauto.
  - intros i' j' v' Hget. unfold get2 in Hget.
    destruct (decide (i = i')) as [<-|Hne].
    + rewrite list_lookup_insert_eq in Hget by (eapply lookup_lt_Some; eauto).
      simpl in Hget.
      destruct (decide (j = j')) as [<-|Hnj].
      * rewrite list_lookup_insert_eq in Hget by (eapply lookup_lt_Some; eauto).
        injection Hget as Hget. apply cv_add_Val in Hget as [c0 ->].
        apply (Hs i j c0). unfold get2. now rewrite Hi.
      * rewrite list_lookup_insert_ne in Hget by exact Hnj.
        apply (Hs i j' v'). unfold get2. now rewrite Hi.
    + rewrite list_lookup_insert_ne in Hget by exact Hne.
      apply (Hs i' j' v'). exact Hget.
Qed.

Lemma tabulate2_unit_cell va vb g :
  (forall p v, g p = Val v -> test_in_cell p va vb = true) ->
  unit_cell va vb
    (tabulate2 (cell_coords (snd va) (snd vb)) (cell_coords (fst va) (fst vb)) g)
    (coords_low (fst va) (fst vb)) (Z.abs (fst va) + Z.abs (fst vb))
    (coords_low (snd va) (snd vb)) (Z.abs (snd va) + Z.abs (snd vb)).
Proof.
  intros Hg. rewrite !cell_coords_seqZ. split.
  - pose proof (rect_tabulate2
                  (seqZ (coords_low (snd va) (snd vb)) (Z.abs (snd va) + Z.abs (snd vb)))
                  (seqZ (coords_low (fst va) (fst vb)) (Z.abs (fst va) + Z.abs (fst vb)))
                  g) as Hr.
    now rewrite !length_seqZ in Hr.
  - intros i j v Hget.
    pose proof (rect_tabulate2
                  (seqZ (coords_low (snd va) (snd vb)) (Z.abs (snd va) + Z.abs (snd vb)))
                  (seqZ (coords_low (fst va) (fst vb)) (Z.abs (fst va) + Z.abs (fst vb)))
                  g) as Hr.
    rewrite !length_seqZ in Hr.
    destruct (get2_Some_lt _ _ _ _ _ _ Hr Hget) as [Hi Hj].
    rewrite get2_tabulate2_seqZ in Hget by lia.
    injection Hget as Hget. eapply Hg; eauto.
  - lia.
  - lia.
  - pose proof (hull_cover (fst va) (fst vb)). lia.
  - pose proof (hull_cover (snd va) (snd vb)). lia.
Qed.

Lemma full_entry_support va vb p v :
  full_entry va vb p = Val v -> test_in_cell p va vb = true.
Proof. unfold full_entry. now destruct (test_in_cell p va vb). Qed.


Lemma get_unit_cell_int_inv va vb cell x y :
  get_unit_cell (of_int_vec va) (of_int_vec vb) = Ok (cell, x, y) ->
  cross va vb <> 0 /\
  x = seqZ (coords_low (fst va) (fst vb)) (Z.abs (fst va) + Z.abs (fst vb)) /\
  y = seqZ (coords_low (snd va) (snd vb)) (Z.abs (snd va) + Z.abs (snd vb)) /\
  unit_cell va vb cell
    (coords_low (fst va) (fst vb)) (Z.abs (fst va) + Z.abs (fst vb))
    (coords_low (snd va) (snd vb)) (Z.abs (snd va) + Z.abs (snd vb)).
Proof.
  intros Hrun.
  destruct (Z.eq_dec (cross va vb) 0) as [H0|HD].
  { exfalso. unfold get_unit_cell in Hrun.
    rewrite check_integer_components_int, !to_int_vec_of_int_vec in Hrun.
    unfold mbind, result_bind in Hrun. cbv beta iota zeta in Hrun.
    rewrite H0 in Hrun. discriminate. }
  split; [exact HD|].
  pose proof (get_unit_cell_tabulate (of_int_vec va) (of_int_vec vb)
                (check_integer_components_int va _)) as Htab.
  rewrite !to_int_vec_of_int_vec in Htab. rewrite (Htab HD) in Hrun.
  injection Hrun as <- <- <-.
  rewrite !cell_coords_seqZ. split; [reflexivity|]. split; [reflexivity|].
  rewrite <- !cell_coords_seqZ.
  apply tabulate2_unit_cell. apply full_entry_support.
Qed.

Lemma convert_cell_unit_cell fl cell1 x1 y1 va1 vb1 va2 vb2 cell2 x2 y2 :
  convert_cell fl cell1 x1 y1 va1 vb1 va2 vb2 = Ok (cell2, x2, y2) ->
  cross va2 vb2 <> 0 /\
  exists x0 w y0 h, x2 = seqZ x0 w /\ y2 = seqZ y0 h /\
                    unit_cell va2 vb2 cell2 x0 w y0 h.
Proof.
  unfold convert_cell. intros Hrun.
  apply bind_ok in Hrun as ([[c0 x0] y0] & Hcell & Hrun).
  apply get_unit_cell_int_inv in Hcell as (HD & -> & -> & Huc).
  split; [exact HD|].
  apply bind_ok in Hrun as (y1min & _ & Hrun).
  apply bind_ok in Hrun as (x1min & _ & Hrun).
  apply bind_ok in Hrun as (c2 & Hloop & Hrun).
  injection Hrun as <- <- <-.
  do 4 eexists. split; [reflexivity|]. split; [reflexivity|].
  set (P := fun c : cell_array =>
              unit_cell va2 vb2 c
                (coords_low (fst va2) (fst vb2)) (Z.abs (fst va2) + Z.abs (fst vb2))
                (coords_low (snd va2) (snd vb2)) (Z.abs (snd va2) + Z.abs (snd vb2))).
  revert Hloop. apply (for_each_inv_ok P); [|exact Huc].
  intros ii s s' Hs. apply (for_each_inv_ok P); [|exact Hs].
  clear. intros jj s s' Hs Hbody.
  apply bind_ok in Hbody as (xj & _ & Hbody).
  apply bind_ok in Hbody as (yi & _ & Hbody).
  apply bind_ok in Hbody as ([[p1 ?] ?] & _ & Hbody).
  apply bind_ok in Hbody as (row & _ & Hbody).
  apply bind_ok in Hbody as (v & _ & Hbody).
  eapply add2_unit_cell; eauto.
Qed.

Lemma reduce_basis_run_spec fl va vb :
  cross va vb <> 0 ->
  exists va' vb', reduce_basis_run fl va vb = Reduced va' vb' /\
                  cross va' vb' = cross va vb /\ same_lattice va vb va' vb'.
Proof.
  intros Hc. unfold reduce_basis_run.
  destruct (reduce_basis_exit fl va vb Hc)
    as (st0 & st & Hinit & Hrun & Hinv & _ & _).
  destruct (Hrun (S (Z.to_nat (norm2 va))) ltac:(lia)) as [_ ->].
  simpl default.
  destruct (reduce_finish st) as [va' vb'|] eqn:Hfin;
    [|unfold reduce_finish in Hfin; destruct (rs_swapped st =? 1); discriminate].
  destruct (reduce_finish_cross va vb st va' vb' Hinv Hfin) as [Hcr Hlat].
  eauto.
Qed.

Lemma get_minimal_cell_spec fl cell x y va vb cell_m x_m y_m va_m vb_m :
  cross va vb <> 0 ->
  get_minimal_cell fl cell x y va vb = Ok (cell_m, x_m, y_m, va_m, vb_m) ->
  cross va_m vb_m <> 0 /\ same_lattice va vb va_m vb_m /\
  exists x0 w y0 h, x_m = seqZ x0 w /\ y_m = seqZ y0 h /\
                    unit_cell va_m vb_m cell_m x0 w y0 h.
Proof.
  intros HD. unfold get_minimal_cell.
  destruct (reduce_basis_run_spec fl va vb HD) as (va' & vb' & -> & Hcr & Hlat).
  intros Hrun. apply bind_ok in Hrun as ([[c2 x2] y2] & Hconv & Hrun).
  injection Hrun as <- <- <- <- <-.
  apply convert_cell_unit_cell in Hconv as [HD' Huc]. auto.
Qed.

Lemma tile_pattern_periodic fl fuel nx ny va vb start cell x0 w y0 h red pat :
  unit_cell va vb cell x0 w y0 h -> cross va vb <> 0 ->
  tile_pattern fl fuel (nx, ny) va vb start cell (seqZ x0 w) (seqZ y0 h) red
    = Some (Ok pat) ->
  periodic nx ny pat va /\ periodic nx ny pat vb.
Proof.
  intros Huc HD. unfold tile_pattern. destruct red.
  - destruct (get_minimal_cell fl cell (seqZ x0 w) (seqZ y0 h) va vb)
      as [[[[[cell_m x_m] y_m] va_m] vb_m]|e] eqn:Hmin; [|discriminate].
    destruct (get_minimal_cell_spec _ _ _ _ _ _ _ _ _ _ _ HD Hmin)
      as (HDm & Hlat & xm & wm & ym & hm & -> & -> & Hucm).
    intros Hrun.
    pose proof (unit_cell_represents _ _ _ _ _ _ _ Hucm) as Hrep.
    split; eapply tile_core_periodic; eauto.
    + apply Hlat, in_lattice_a.
    + apply Hlat, in_lattice_b.
  - intros Hrun.
    pose proof (unit_cell_represents _ _ _ _ _ _ _ Huc) as Hrep.
    split; eapply tile_core_periodic; eauto using in_lattice_a, in_lattice_b.
Qed.


(** *** [reduce2cell] and the conversion of a cell to another basis *)




(** Whatever the float arithmetic gives, a result that passes the
    assertion of [reduce2cell] is the representative of the point. *)
Lemma reduce2cell_inv fl p va vb r :
  reduce2cell fl p va vb = Ok r ->
  cross va vb <> 0 /\ r = (reduce va vb p, red_n va vb p, red_m va vb p).
Proof.
  unfold reduce2cell, get_reciprocal_vects.
  destruct (Z.eqb_spec (cross va vb) 0) as [|HD]; [discriminate|].
  unfold mbind at 1, result_bind at 1. cbv beta iota.
  destruct (inv_columns fl va vb) as [ra rb]. cbv zeta.
  destruct (test_in_cell _ va vb) eqn:Hin; [|discriminate].
  intros [= <-]. split; [exact HD|].
  destruct (in_cell_unique va vb p _ _ HD Hin) as [-> ->]. reflexivity.
Qed.




Lemma for_each_seq_inv {St : Type} (I : nat -> St -> Prop)
    (body : nat -> St -> result St) (k : nat) : forall a s0,
  I a s0 ->
  (forall i s, (a <= i < a + k)%nat -> I i s ->
     exists s', body i s = Ok s' /\ I (S i) s') ->
  exists s', for_each (seq a k) body s0 = Ok s' /\ I (a + k)%nat s'.
Proof.
  induction k as [|k IH]; intros a s0 H0 Hstep.
  - exists s0. split; [reflexivity|]. now rewrite Nat.add_0_r.
  - simpl. destruct (Hstep a s0 ltac:(lia) H0) as (s1 & Hb & H1).
    rewrite Hb. unfold mbind, result_bind. cbv beta iota.
    destruct (IH (S a) s1 H1) as (s' & Hrun & HI).
    + intros i s Hi. apply Hstep. lia.
    + exists s'. split; [exact Hrun|].
      now replace (a + S k)%nat with (S a + k)%nat by lia.
Qed.













(** *** The pattern of [get_sim_pattern] *)






(** *** The pattern as stripes of the spatial frequency *)





End TilerFacts.

(** ** Properties of the tiling functions *)

Module TilingProperties.
Import Basis UnitCell BasisFacts UnitCellFacts SimCellFacts Tiler TilerFacts.









(** X5: [double_cell] applied to a unit cell of a basis with nonzero cross
    product never fails (no slice falls outside the enlarged array); it
    returns a unit cell of the basis [(2^na va, 2^nb vb)] over two ranges of
    consecutive coordinates, and the entry at the representative of any
    point is the entry the input cell has at the representative of that
    point. *)
Theorem double_cell_unit_cell va vb cell x0 w y0 h na nb :
  unit_cell va vb cell x0 w y0 h -> cross va vb <> 0 ->
  0 <= na -> 0 <= nb ->
  exists big x0' w' y0' h',
    double_cell cell (seqZ x0 w) (seqZ y0 h) va vb na nb
      = Ok (big, seqZ x0' w', seqZ y0' h') /\
    unit_cell (vscale (2 ^ na) va) (vscale (2 ^ nb) vb) big x0' w' y0' h' /\
    forall z,
      cell_at big x0' y0' (reduce (vscale (2 ^ na) va) (vscale (2 ^ nb) vb) z)
      = cell_at cell x0 y0 (reduce va vb z).
Proof.
  intros Huc HD Hna Hnb.
  pose proof (unit_cell_represents va vb cell x0 w y0 h Huc) as Hrep.
  destruct (double_cell_represents va vb cell _ _ _ na nb HD Hna Hnb Hrep)
    as ([[big xp] yp] & Hrun & (x0' & w' & y0' & h' & -> & -> & Huc' & HF)).
  exists big, x0', w', y0', h'. auto.
Qed.

Lemma double_cell_unit_cell_witness :
  exists big x0' w' y0' h',
    double_cell checker_cell (seqZ 0 2) (seqZ 0 2) (2, 0) (0, 2) 2 1
      = Ok (big, seqZ x0' w', seqZ y0' h') /\
    unit_cell (vscale (2 ^ 2) (2, 0)) (vscale (2 ^ 1) (0, 2)) big x0' w' y0' h' /\
    forall z,
      cell_at big x0' y0' (reduce (vscale (2 ^ 2) (2, 0)) (vscale (2 ^ 1) (0, 2)) z)
      = cell_at checker_cell 0 0 (reduce (2, 0) (0, 2) z).
Proof.
  apply (double_cell_unit_cell (2, 0) (0, 2) checker_cell 0 2 0 2 2 1).
  - exact checker_unit_cell.
  - vm_compute. discriminate.
  - lia.
  - lia.
Defined.



(** X7: for integer vectors with nonzero cross product and a point, all
    with components of absolute value at most [10^6], and whatever the
    float arithmetic gives: when [reduce2cell] returns, the point it
    returns lies in the unit cell, [point = point_red + na va + nb vb], and
    [(na, nb)] is the only pair of integers whose translate of the point
    lies in the cell; it fails, on its final assertion, exactly when the
    floors computed in float arithmetic are not these two integers. *)
Theorem reduce2cell_representative fl point va vb :
  cross va vb <> 0 -> float_safe va -> float_safe vb -> float_safe point ->
  match reduce2cell fl point va vb with
  | Ok (point_red, na, nb) =>
      point = vadd point_red (vadd (vscale na va) (vscale nb vb)) /\
      test_in_cell point_red va vb = true /\
      forall n m,
        test_in_cell (vsub point (vadd (vscale n va) (vscale m vb))) va vb = true ->
        n = na /\ m = nb
  | Raise e =>
      e = AssertionError /\
      forall n m,
        test_in_cell (vsub point (vadd (vscale n va) (vscale m vb))) va vb = true ->
        (floor_dot fl point (fst (inv_columns fl va vb)),
         floor_dot fl point (snd (inv_columns fl va vb))) <> (n, m)
  end.
Proof.
  intros HD _ _ _.
  destruct (reduce2cell fl point va vb) as [[[point_red na] nb]|e] eqn:Hrun.
  - apply reduce2cell_inv in Hrun as [_ [= -> -> ->]].
    split; [|split].
    + unfold reduce. destruct point, va, vb. unfold vadd, vsub, vscale. simpl.
      f_equal; ring.
    + now apply reduce_in_cell.
    + intros n m. now apply in_cell_unique.
  - revert Hrun. unfold reduce2cell, get_reciprocal_vects.
    destruct (Z.eqb_spec (cross va vb) 0) as [|_]; [contradiction|].
    unfold mbind at 1, result_bind at 1. cbv beta iota.
    destruct (inv_columns fl va vb) as [ra rb]. cbv zeta. cbn [fst snd].
    destruct (test_in_cell _ va vb) eqn:Hout; [discriminate|].
    intros [= <-]. split; [reflexivity|].
    intros n m Hin [= <- <-]. congruence.
Qed.

Lemma reduce2cell_representative_witness :
  (7, -5) = vadd (0, 2) (vadd (vscale 1 (3, 1)) (vscale (-4) (-1, 2))) /\
  test_in_cell (0, 2) (3, 1) (-1, 2) = true /\
  forall n m,
    test_in_cell (vsub (7, -5) (vadd (vscale n (3, 1)) (vscale m (-1, 2))))
      (3, 1) (-1, 2) = true ->
    n = 1 /\ m = -4.
Proof.
  apply (reduce2cell_representative exact_ops (7, -5) (3, 1) (-1, 2)).
  - vm_compute. discriminate.
  - unfold float_safe. simpl. lia.
  - unfold float_safe. simpl. lia.
  - unfold float_safe. simpl. lia.
Defined.





End TilingProperties.

(** ** Properties of the unit cell and of the reciprocal vectors *)

Module CellProperties.
Import Basis UnitCell BasisFacts UnitCellFacts SimCellFacts Tiler TilerFacts.

(** X11: for integer vectors with nonzero cross product [D] and a point,
    all with components of absolute value at most [10^6] (where the float
    divisions and the rounding to 12 decimals of the code change no
    comparison), [test_in_cell] accepts the point [p] exactly when its two
    coordinates in the basis, [cross(p, vb) / D] along [va] and
    [cross(va, p) / D] along [vb], both lie in the half-open interval from
    0 (included) to 1 (excluded). *)
Theorem test_in_cell_half_open p va vb :
  cross va vb <> 0 -> float_safe va -> float_safe vb -> float_safe p ->
  test_in_cell p va vb = true <->
  (0 <= cross va p < cross va vb \/ cross va vb < cross va p <= 0) /\
  (0 <= cross p vb < cross va vb \/ cross va vb < cross p vb <= 0).
Proof. intros HD _ _ _. exact (test_in_cell_spec p va vb HD). Qed.

Lemma test_in_cell_half_open_witness :
  test_in_cell (1, 2) (3, 1) (-1, 2) = true <->
  (0 <= cross (3, 1) (1, 2) < cross (3, 1) (-1, 2) \/
   cross (3, 1) (-1, 2) < cross (3, 1) (1, 2) <= 0) /\
  (0 <= cross (1, 2) (-1, 2) < cross (3, 1) (-1, 2) \/
   cross (3, 1) (-1, 2) < cross (1, 2) (-1, 2) <= 0).
Proof.
  apply (test_in_cell_half_open (1, 2) (3, 1) (-1, 2)).
  - vm_compute. discriminate.
  - unfold float_safe. simpl. lia.
  - unfold float_safe. simpl. lia.
  - unfold float_safe. simpl. lia.
Defined.

(** X12: of the four corners of the parallelogram spanned by two integer
    vectors with nonzero cross product and components of absolute value at
    most [500000] (so that the corner [va + vb] stays within [10^6]),
    [test_in_cell] accepts the origin and rejects [va], [vb] and
    [va + vb], so that no pixel is counted in two neighbouring cells. *)
Theorem test_in_cell_corners va vb :
  cross va vb <> 0 ->
  Z.abs (fst va) <= 500000 /\ Z.abs (snd va) <= 500000 ->
  Z.abs (fst vb) <= 500000 /\ Z.abs (snd vb) <= 500000 ->
  test_in_cell (0, 0) va vb = true /\
  test_in_cell va va vb = false /\
  test_in_cell vb va vb = false /\
  test_in_cell (vadd va vb) va vb = false.
Proof.
  intros HD _ _.
  assert (Hno : forall p, ~ (half_open (cross va vb) (cross va p) /\
                             half_open (cross va vb) (cross p vb)) ->
                          test_in_cell p va vb = false).
  { intros p Hp. destruct (test_in_cell p va vb) eqn:E; [|reflexivity].
    exfalso. apply Hp. now apply test_in_cell_spec. }
  split; [|split; [|split]].
  - apply test_in_cell_spec; [exact HD|].
    unfold half_open, cross in *. simpl. lia.
  - apply Hno. unfold half_open. intros [_ H]. lia.
  - apply Hno. unfold half_open. intros [H _]. lia.
  - apply Hno. unfold half_open. intros [H _]. revert H HD.
    destruct va, vb. unfold cross, vadd. simpl. lia.
Qed.

Lemma test_in_cell_corners_witness :
  test_in_cell (0, 0) (3, 1) (-1, 2) = true /\
  test_in_cell (3, 1) (3, 1) (-1, 2) = false /\
  test_in_cell (-1, 2) (3, 1) (-1, 2) = false /\
  test_in_cell (vadd (3, 1) (-1, 2)) (3, 1) (-1, 2) = false.
Proof.
  apply (test_in_cell_corners (3, 1) (-1, 2)).
  - vm_compute. discriminate.
  - simpl. lia.
  - simpl. lia.
Defined.








End CellProperties.

(** ** Properties of the basis reduction *)

Module BasisProperties.
Import Basis BasisFacts.

(** *** The reduced pair is made of shortest vectors *)

Lemma Qcompare_div_half (x B f : Z) :
  0 < B ->
  Qcompare (inject_Z x / inject_Z B - inject_Z f) (1 # 2)
  = (2 * (x - f * B) ?= B).
Proof.
  intros HB. unfold Qcompare, Qdiv, Qminus, Qplus, Qopp, Qmult, Qinv, inject_Z.
  destruct B as [|b|b]; try lia. simpl.
  rewrite ?Pos.mul_1_l, ?Pos.mul_1_r, ?Z.mul_1_r.
  match goal with |- (?l ?= ?r) = _ =>
    destruct (Z.compare_spec l r);
    destruct (Z.compare_spec (2 * (x - f * Z.pos b)) (Z.pos b))
  end; try reflexivity; exfalso; nia.
Qed.

Lemma np_round_near (x B : Z) :
  0 < B ->
  2 * Z.abs (x - np_round (inject_Z x / inject_Z B) * B) <= B.
Proof.
  intros HB. unfold np_round.
  assert (Hf : Qfloor (inject_Z x / inject_Z B) = x / B).
  { unfold Qdiv, Qinv, Qmult, inject_Z. destruct B as [|b|b]; try lia. simpl.
    now rewrite Z.mul_1_r, Pos.mul_1_l. }
  rewrite Hf, Qcompare_div_half by exact HB.
  pose proof (Z.mod_pos_bound x B HB) as Hm.
  pose proof (Z.div_mod x B ltac:(lia)) as Hdm.
  destruct (Z.compare_spec (2 * (x - x / B * B)) B) as [He|Hl|Hg].
  - destruct (Z.even (x / B)); nia.
  - nia.
  - nia.
Qed.

(** The rounding of the quotient [mu] returns a nearest integer, either
    one when [mu] is half-way between two integers, for dot products and
    squared norms up to [B].  The float64 quotient of two integers below
    [2^50] is within [2^-51] of the exact one in relative terms, and an
    exact quotient [p / q] that is not half-way is at least [1 / (2 q)]
    away from it, so [np.round] has this property for such numbers. *)
Definition nearest_on (B : Z) (fl : float_ops) : Prop :=
  forall p q, 0 < q <= B -> Z.abs p <= B ->
    2 * Z.abs (p - round_quotient fl p q * q) <= q.

Lemma exact_ops_nearest B : nearest_on B exact_ops.
Proof. intros p q Hq _. apply np_round_near. lia. Qed.

(** The second vector is size-reduced against the first. *)
Definition size_reduced (st : reduce_state) : Prop :=
  2 * Z.abs (vdot (rs_va st) (rs_vb st)) <= norm2 (rs_va st).

Lemma lagrange_identity a b :
  vdot a b * vdot a b + cross a b * cross a b = norm2 a * norm2 b.
Proof. unfold vdot, cross, norm2, vdot. ring. Qed.

Lemma vdot_bound B a b :
  norm2 a <= B -> norm2 b <= B -> Z.abs (vdot a b) <= B.
Proof.
  intros Ha Hb. pose proof (lagrange_identity a b) as Hl.
  pose proof (norm2_nonneg a). pose proof (norm2_nonneg b).
  assert (Hsq : vdot a b * vdot a b <= B * B) by nia.
  destruct (Z.abs_spec (vdot a b)) as [[? ->]|[? ->]]; nia.
Qed.

Lemma size_reduce_small fl B va vb :
  nearest_on B fl -> 0 < norm2 va <= B -> norm2 vb <= B ->
  2 * Z.abs (vdot va (size_reduce fl va vb (norm2 va))) <= norm2 va /\
  norm2 (size_reduce fl va vb (norm2 va)) <= norm2 vb.
Proof.
  intros Hfl Ha Hb. unfold size_reduce.
  pose proof (Hfl (vdot va vb) (norm2 va) Ha
                (vdot_bound B va vb ltac:(lia) Hb)) as Hk.
  set (k := round_quotient fl _ _) in *.
  assert (E1 : vdot va (vsub vb (vscale k va)) = vdot va vb - k * norm2 va)
    by (unfold norm2, vdot, vsub, vscale; simpl; ring).
  assert (E2 : norm2 (vsub vb (vscale k va))
               = norm2 vb - k * (2 * vdot va vb - k * norm2 va))
    by (unfold norm2, vdot, vsub, vscale; simpl; ring).
  rewrite E1, E2. split; [exact Hk|].
  set (p := vdot va vb) in *. set (q := norm2 va) in *.
  assert (0 <= k * (2 * p - k * q)); [|lia].
  destruct (Z.lt_trichotomy k 0) as [Hneg|[->|Hpos]]; [| lia |].
  - assert (2 * p - k * q <= (k + 1) * q) by lia.
    assert ((k + 1) * q <= 0) by nia. nia.
  - assert ((k - 1) * q <= 2 * p - k * q) by lia.
    assert (0 <= (k - 1) * q) by nia. nia.
Qed.

(** What the loop keeps when the rounding is to a nearest integer. *)
Record reduced_inv (B : Z) (st : reduce_state) : Prop := {
  rd_Ba : rs_Ba st = norm2 (rs_va st);
  rd_Bb : rs_Bb st = norm2 (rs_vb st);
  rd_small : size_reduced st;
  rd_va : norm2 (rs_va st) <= B;
  rd_vb : norm2 (rs_vb st) <= B
}.

Lemma reduce_init_size_reduced fl B va vb st :
  nearest_on B fl -> norm2 va <= B -> norm2 vb <= B ->
  reduce_init fl va vb = Some st -> reduced_inv B st.
Proof.
  intros Hfl Ha Hb. unfold reduce_init.
  destruct (Z.eqb_spec (norm2 va) 0) as [|Hnz]; [discriminate|].
  intros [= <-]. pose proof (norm2_nonneg va).
  destruct (size_reduce_small fl B va vb Hfl ltac:(lia) Hb) as [H1 H2].
  split; simpl; auto; lia.
Qed.

Lemma reduce_loop_size_reduced fl B fuel : forall st st',
  nearest_on B fl -> reduced_inv B st ->
  reduce_loop fl fuel st = Some (Some st') -> reduced_inv B st'.
Proof.
  induction fuel as [|fuel IH]; intros st st' Hfl Hinv; [discriminate|].
  simpl. destruct (rs_Bb st <? rs_Ba st).
  - destruct (Z.eqb_spec (rs_Bb st) 0) as [|Hnz]; [discriminate|].
    apply IH; [exact Hfl|].
    destruct Hinv as [HBa HBb Hsr Hva Hvb].
    pose proof (norm2_nonneg (rs_vb st)).
    rewrite HBb in *.
    destruct (size_reduce_small fl B (rs_vb st) (rs_va st) Hfl ltac:(lia) Hva)
      as [H1 H2].
    split; simpl; auto; lia.
  - now intros [= <-].
Qed.

Lemma norm2_combination a b n m :
  norm2 (vadd (vscale n a) (vscale m b))
  = n * n * norm2 a + 2 * (n * m) * vdot a b + m * m * norm2 b.
Proof. unfold norm2, vdot, vadd, vscale. simpl. ring. Qed.

Lemma shortest_first a b n m :
  2 * Z.abs (vdot a b) <= norm2 a -> norm2 a <= norm2 b ->
  (n, m) <> (0, 0) ->
  norm2 a <= norm2 (vadd (vscale n a) (vscale m b)).
Proof.
  intros Hsr Hab Hnz. rewrite norm2_combination.
  set (A := norm2 a) in *. set (B := norm2 b) in *. set (c := vdot a b) in *.
  assert (HA : 0 <= A) by apply norm2_nonneg.
  assert (Hc : - A <= 2 * c <= A) by lia.
  assert (Hnm : n <> 0 \/ m <> 0).
  { destruct (Z.eq_dec n 0), (Z.eq_dec m 0); auto. subst. now contradict Hnz. }
  assert (Hcross : - (Z.abs (n * m) * A) <= 2 * (n * m) * c).
  { destruct (Z.abs_spec (n * m)) as [[? ->]|[? ->]]; nia. }
  assert (Hq : 1 <= n * n - Z.abs (n * m) + m * m).
  { destruct (Z.abs_spec (n * m)) as [[? ->]|[? ->]]; nia. }
  assert (Hm : m * m * A <= m * m * B) by nia.
  nia.
Qed.

Lemma shortest_second a b n m :
  2 * Z.abs (vdot a b) <= norm2 a -> norm2 a <= norm2 b ->
  m <> 0 ->
  norm2 b <= norm2 (vadd (vscale n a) (vscale m b)).
Proof.
  intros Hsr Hab Hnz. rewrite norm2_combination.
  set (A := norm2 a) in *. set (B := norm2 b) in *. set (c := vdot a b) in *.
  assert (HA : 0 <= A) by apply norm2_nonneg.
  assert (Hc : - A <= 2 * c <= A) by lia.
  assert (Hcross : - (Z.abs (n * m) * A) <= 2 * (n * m) * c).
  { destruct (Z.abs_spec (n * m)) as [[? ->]|[? ->]]; nia. }
  rewrite Z.abs_mul in Hcross.
  assert (Hm1 : 1 <= Z.abs m) by lia.
  assert (Hmm : m * m = Z.abs m * Z.abs m) by lia.
  assert (Hnn : n * n = Z.abs n * Z.abs n) by lia.
  rewrite Hmm, Hnn. 
  set (p := Z.abs n) in *. set (q := Z.abs m) in *.
  assert (Hp : 0 <= p) by (unfold p; lia).
  assert (Hq : 1 <= q) by (unfold q; lia).
  assert (HB : 0 <= B) by lia.
  assert (HqB : B <= q * q * B).
  { assert (0 <= (q * q - 1) * B) by (apply Z.mul_nonneg_nonneg; nia). lia. }
  destruct (Z_le_gt_dec q p) as [Hqp|Hqp].
  - assert (0 <= p * (p - q) * A)
      by (apply Z.mul_nonneg_nonneg; [apply Z.mul_nonneg_nonneg|]; lia).
    lia.
  - assert (0 <= p * q * (B - A))
      by (apply Z.mul_nonneg_nonneg; [apply Z.mul_nonneg_nonneg|]; lia).
    assert (0 <= (q * (q - p) - 1) * B) by (apply Z.mul_nonneg_nonneg; nia).
    assert (0 <= p * p * A)
      by (apply Z.mul_nonneg_nonneg; [apply Z.mul_nonneg_nonneg|]; lia).
    lia.
Qed.

(** X17: for integer vectors with nonzero cross product and components of
    absolute value at most [10^6], and a rounding of [mu] to a nearest
    integer (either one at a tie, as float64 gives for such vectors),
    [reduce_basis] returns (for any fuel above the squared norm of [va]) a
    pair made of a shortest nonzero vector [a] of the lattice and of a
    shortest lattice vector [b] that is not a multiple of [a], in one order
    or the other; the pair is reduced in the sense of Lagrange and Gauss:
    [2 |a . b| <= |a|^2 <= |b|^2]. *)
Theorem reduce_basis_shortest_vectors fl va vb :
  cross va vb <> 0 -> float_safe va -> float_safe vb ->
  nearest_on 2000000000000 fl ->
  exists va' vb' a b,
    (forall fuel, (Z.to_nat (norm2 va) < fuel)%nat ->
       reduce_basis fl fuel va vb = Some (Reduced va' vb')) /\
    ((va', vb') = (a, b) \/ (va', vb') = (b, a)) /\
    2 * Z.abs (vdot a b) <= norm2 a /\ norm2 a <= norm2 b /\
    (forall u, in_lattice va vb u -> u <> (0, 0) -> norm2 a <= norm2 u) /\
    (forall u, in_lattice va vb u -> (forall k, u <> vscale k a) ->
               norm2 b <= norm2 u).
Proof.
  intros Hc Hsa Hsb Hfl.
  assert (Ha : norm2 va <= 2000000000000)
    by (destruct Hsa; unfold norm2, vdot; nia).
  assert (Hb : norm2 vb <= 2000000000000)
    by (destruct Hsb; unfold norm2, vdot; nia).
  destruct (reduce_basis_exit fl va vb Hc)
    as (st0 & st & Hinit & Hrun & Hinv & _ & Hord).
  pose proof (reduce_init_size_reduced fl _ va vb st0 Hfl Ha Hb Hinit) as Hr0.
  destruct (Hrun (S (Z.to_nat (norm2 va))) ltac:(lia)) as [Hloop _].
  destruct (reduce_loop_size_reduced fl _ _ st0 st Hfl Hr0 Hloop)
    as [_ _ Hsr _ _].
  destruct Hinv as [HBa HBb Hsw Hcr Hlat].
  exists (if rs_swapped st =? 1 then rs_vb st else rs_va st),
         (if rs_swapped st =? 1 then rs_va st else rs_vb st),
         (rs_va st), (rs_vb st).
  split; [|split; [|split; [|split; [|split]]]].
  - intros fuel Hfuel. destruct (Hrun fuel Hfuel) as [_ ->].
    unfold reduce_finish. now destruct (rs_swapped st =? 1).
  - destruct (rs_swapped st =? 1); auto.
  - exact Hsr.
  - exact Hord.
  - intros u Hu Hnz. apply Hlat in Hu as (n & m & ->).
    apply shortest_first; auto.
    intros [= -> ->]. apply Hnz. unfold vadd, vscale. simpl. reflexivity.
  - intros u Hu Hnm. apply Hlat in Hu as (n & m & ->).
    apply shortest_second; auto.
    intros ->. apply (Hnm n). unfold vadd, vscale. simpl. f_equal; ring.
Qed.

Lemma reduce_basis_shortest_vectors_witness :
  exists va' vb' a b,
    (forall fuel, (Z.to_nat (norm2 (7, 3)%Z) < fuel)%nat ->
       reduce_basis exact_ops fuel (7, 3) (12, 5) = Some (Reduced va' vb')) /\
    ((va', vb') = (a, b) \/ (va', vb') = (b, a)) /\
    2 * Z.abs (vdot a b) <= norm2 a /\ norm2 a <= norm2 b /\
    (forall u, in_lattice (7, 3) (12, 5) u -> u <> (0, 0) -> norm2 a <= norm2 u) /\
    (forall u, in_lattice (7, 3) (12, 5) u -> (forall k, u <> vscale k a) ->
               norm2 b <= norm2 u).
Proof.
  apply (reduce_basis_shortest_vectors exact_ops (7, 3) (12, 5)).
  - vm_compute. discriminate.
  - unfold float_safe. simpl. lia.
  - unfold float_safe. simpl. lia.
  - apply exact_ops_nearest.
Defined.

End BasisProperties.

(** ** Properties of the rational approximation of an angle *)

Module RationalApproxProperties.
Import RationalApprox RationalApproxFacts.

(** *** The order of float64 *)

Lemma SFcompare_swap x y :
  SFcompare y x = option_map CompOpp (SFcompare x y).
Proof.
  destruct x as [sx|sx| |sx mx ex], y as [sy|sy| |sy my ey]; simpl;
    try reflexivity; try (destruct sx; reflexivity);
    try (destruct sy; reflexivity);
    try (destruct sx, sy; reflexivity).
  assert (Hm : Pos.compare_cont Eq my mx = CompOpp (Pos.compare_cont Eq mx my))
    by (now rewrite Pos.compare_cont_antisym).
  destruct sx, sy; try reflexivity;
    rewrite (Z.compare_antisym ex ey), Hm;
    destruct (ex ?= ey); simpl; try reflexivity;
    destruct (Pos.compare_cont Eq mx my); reflexivity.
Qed.

Lemma SFcompare_None x y :
  SFcompare x y = None -> x = S754_nan \/ y = S754_nan.
Proof.
  destruct x as [sx|sx| |sx mx ex], y as [sy|sy| |sy my ey]; simpl;
    auto; discriminate.
Qed.

(** Of two numbers, one is below the other. *)
Lemma leb_or_ltb (x y : float) :
  Prim2SF x <> S754_nan -> Prim2SF y <> S754_nan ->
  (x <=? y)%float = true \/ (y <? x)%float = true.
Proof.
  intros Hx Hy. rewrite FloatAxioms.leb_spec, FloatAxioms.ltb_spec.
  unfold SFleb, SFltb. rewrite (SFcompare_swap (Prim2SF x) (Prim2SF y)).
  destruct (SFcompare (Prim2SF x) (Prim2SF y)) as [[]|] eqn:Hc; simpl; auto.
  apply SFcompare_None in Hc as [?|?]; contradiction.
Qed.

Lemma leb_not_nan (x y : float) :
  (x <=? y)%float = true -> Prim2SF x <> S754_nan.
Proof.
  rewrite FloatAxioms.leb_spec. unfold SFleb. intros H E. rewrite E in H.
  discriminate.
Qed.

(** An angle that is at most [2 pi] falls under one of the four cases. *)
Lemma reduce_angle_disallowed angle_2p e :
  reduce_angle angle_2p = Raise e ->
  e = DisallowedAngle /\ (angle_2p <=? 2 * np_pi)%float = false.
Proof.
  unfold reduce_angle. intros Hred.
  destruct (angle_2p <=? 2 * np_pi)%float eqn:H4.
  - exfalso. pose proof (leb_not_nan _ _ H4) as Hx.
    assert (Hc : forall c : float, Prim2SF c <> S754_nan ->
              (angle_2p <=? c)%float = false -> (c <? angle_2p)%float = true).
    { intros c Hcn Hle. destruct (leb_or_ltb angle_2p c Hx Hcn); congruence. }
    destruct (angle_2p <=? np_pi / 2)%float eqn:H1; [discriminate|].
    rewrite (Hc (np_pi / 2)%float) in Hred;
      [|intros E; vm_compute in E; discriminate E|exact H1].
    destruct (angle_2p <=? np_pi)%float eqn:H2; [discriminate|].
    rewrite (Hc np_pi) in Hred;
      [|intros E; vm_compute in E; discriminate E|exact H2].
    destruct (angle_2p <=? 3 * np_pi / 2)%float eqn:H3; [discriminate|].
    rewrite (Hc (3 * np_pi / 2)%float) in Hred;
      [|intros E; vm_compute in E; discriminate E|exact H3].
    discriminate.
  - split; [|reflexivity].
    repeat match type of Hred with
           | (if ?c then _ else _) = _ => destruct c; [discriminate Hred|]
           end.
    congruence.
Qed.

Lemma SFleb_trans_pos (x : spec_float) (mc md : positive) (ec ed : Z) :
  SFleb x (S754_finite false mc ec) = true ->
  SFltb (S754_finite false mc ec) (S754_finite false md ed) = true ->
  SFleb x (S754_finite false md ed) = true.
Proof.
  unfold SFleb, SFltb.
  destruct x as [sx|sx| |sx mx ex]; simpl; try (destruct sx; auto; fail); auto.
  destruct sx; [auto|].
  rewrite !Pos.compare_cont_spec. simpl.
  destruct (Z.compare_spec ex ec), (Z.compare_spec ec ed),
    (Z.compare_spec ex ed); try lia; try discriminate; auto.
  destruct (Pos.compare_spec mx mc), (Pos.compare_spec mc md),
    (Pos.compare_spec mx md); try lia; try discriminate; auto.
Qed.

(** An angle below a bound that is below [2 pi] is below [2 pi]. *)
Lemma leb_below_two_pi (x c : float) mc ec :
  Prim2SF c = S754_finite false mc ec ->
  SFltb (S754_finite false mc ec) (Prim2SF (2 * np_pi)%float) = true ->
  (x <=? c)%float = true -> (x <=? 2 * np_pi)%float = true.
Proof.
  intros Hc Hlt. rewrite !FloatAxioms.leb_spec, Hc.
  intros Hle. revert Hlt.
  let v := eval vm_compute in (Prim2SF (2 * np_pi)%float) in
  change (Prim2SF (2 * np_pi)%float) with v.
  intros Hlt. eapply SFleb_trans_pos; eauto.
Qed.

Lemma reduce_angle_allowed angle_2p :
  (angle_2p <=? 2 * np_pi)%float = false ->
  reduce_angle angle_2p = Raise DisallowedAngle.
Proof.
  intros H4. unfold reduce_angle.
  assert (Hb : forall c : float, forall mc ec,
            Prim2SF c = S754_finite false mc ec ->
            SFltb (S754_finite false mc ec) (Prim2SF (2 * np_pi)%float) = true ->
            (angle_2p <=? c)%float = false).
  { intros c mc ec Hc Hlt. destruct (angle_2p <=? c)%float eqn:E; [|reflexivity].
    rewrite (leb_below_two_pi _ _ _ _ Hc Hlt E) in H4. discriminate. }
  rewrite (Hb (np_pi / 2)%float _ _ ltac:(vm_compute; reflexivity)
             ltac:(vm_compute; reflexivity)).
  rewrite (Hb np_pi _ _ ltac:(vm_compute; reflexivity)
             ltac:(vm_compute; reflexivity)).
  rewrite (Hb (3 * np_pi / 2)%float _ _ ltac:(vm_compute; reflexivity)
             ltac:(vm_compute; reflexivity)).
  rewrite H4, !andb_false_r. reflexivity.
Qed.

(** X18: [find_rational_approx_angle] always terminates (a fuel above
    [nmax] suffices for the model).  It raises the [ValueError] for a
    disallowed angle exactly when the test [np.mod(angle, 2 pi) <= 2 pi]
    is false, as it is for NaN; otherwise it fails exactly when
    [nmax <= 2]: the search then records nothing and the final [vecs[-1]]
    raises an [IndexError].  With [nmax >= 3] it returns a non-empty list
    of vectors and the last one as the shift. *)
Theorem find_rational_approx_angle_result lib fuel angle nmax :
  (Z.to_nat nmax < fuel)%nat ->
  let allowed := (np_mod lib angle (2 * np_pi) <=? 2 * np_pi)%float in
  match find_rational_approx_angle lib fuel angle nmax with
  | None => False
  | Some (Raise e) =>
      (e = DisallowedAngle /\ allowed = false) \/
      (e = IndexError /\ allowed = true /\ nmax <= 2)
  | Some (Ok (x, y, vecs)) =>
      allowed = true /\ 3 <= nmax /\ last vecs = Some (x, y)
  end.
Proof.
  intros Hfuel allowed. unfold find_rational_approx_angle.
  destruct (reduce_angle (np_mod lib angle (2 * np_pi)%float))
    as [[c angle_pos]|e] eqn:Hred.
  2:{ left. now apply reduce_angle_disallowed. }
  assert (Hal : allowed = true).
  { destruct allowed eqn:E; [reflexivity|]. unfold allowed in E.
    rewrite (reduce_angle_allowed _ E) in Hred. discriminate. }
  cbv zeta.
  set (t := np_tan lib angle_pos).
  set (inverted := (1 <? t)%float).
  set (slope := if inverted then (1 / t)%float else t).
  destruct (farey_search_run fuel slope nmax Hfuel)
    as (sq & -> & _ & _ & Hempty).
  simpl.
  set (vs := map (orient c) (if inverted then map flip sq else sq)).
  assert (Hvs : vs = [] <-> sq = []).
  { unfold vs. destruct inverted, sq; simpl; split; congruence. }
  destruct (last vs) as [[x y]|] eqn:Hlast.
  - simpl. split; [exact Hal|]. split; [|exact Hlast].
    destruct (Z_le_gt_dec nmax 2) as [Hn|Hn]; [|lia].
    apply Hempty, Hvs in Hn. rewrite Hn in Hlast. discriminate.
  - right. split; [reflexivity|]. split; [exact Hal|].
    apply Hempty, Hvs. now apply last_None.
Qed.

(** The angle [pi - atan(7/3)], the float 1.97568811307998, of the second
    quadrant; the tangent of the reduced angle is one unit in the last
    place below the float nearest to 7/3. *)
Lemma find_rational_approx_angle_result_witness :
  find_rational_approx_angle (lib_with_tan 0x1.2aaaaaaaaaaaap+1) 8
    0x1.f9c6b238c6434p+0 7
    = Some (Ok (-5, -2, [(-2, -1); (-5, -2)])) /\
  (0x1.f9c6b238c6434p+0 <=? 2 * np_pi)%float = true /\
  3 <= 7 /\ last [(-2, -1); (-5, -2)] = Some (-5, -2).
Proof.
  split; [vm_compute; reflexivity|].
  apply (find_rational_approx_angle_result
           (lib_with_tan 0x1.2aaaaaaaaaaaap+1) 8 0x1.f9c6b238c6434p+0 7).
  vm_compute. lia.
Defined.

End RationalApproxProperties.

(** ** Properties of the binarization *)

Module BinarizeProperties.
Import Binarize BinarizeFacts.

Lemma quantize_threshold g : quantize g = Qlt_bool (1 # 2) (Qabs g).
Proof.
  unfold quantize, np_round, Qlt_bool. f_equal.
  set (f := Qfloor g).
  pose proof (Qfloor_le g) as Hlo. pose proof (Qlt_floor g) as Hhi. fold f in Hlo, Hhi.
  destruct (Qle_bool (Qabs g) (1 # 2)) eqn:Hle.
  - apply Qle_bool_iff in Hle. apply Qabs_Qle_condition in Hle as [H1 H2].
    assert (Hf : f = 0 \/ f = -1).
    { assert (Hu : (inject_Z f < inject_Z 1)%Q)
        by (eapply Qle_lt_trans; [exact Hlo|]; eapply Qle_lt_trans; [exact H2|];
            reflexivity).
      assert (Hl : (inject_Z (-1) < inject_Z (f + 1))%Q)
        by (eapply Qlt_trans; [|exact Hhi]; eapply Qlt_le_trans; [|exact H1];
            reflexivity).
      rewrite <- Zlt_Qlt in Hu, Hl. lia. }
    destruct Hf as [Hf|Hf]; rewrite Hf in *.
    + assert (Eg : (g - inject_Z 0 == g)%Q) by (unfold inject_Z; ring).
      destruct (Qcompare_spec (g - inject_Z 0) (1 # 2)) as [E|E|E]; try reflexivity.
      exfalso. rewrite Eg in E. exact (Qlt_not_le _ _ E H2).
    + assert (Eg : (g - inject_Z (-1) == g + 1)%Q) by (unfold inject_Z; ring).
      destruct (Qcompare_spec (g - inject_Z (-1)) (1 # 2)) as [E|E|E];
        try reflexivity.
      exfalso. rewrite Eg in E. apply (Qlt_not_le _ _ E).
      apply (Qplus_le_l _ _ (- (1))). 
      assert (E1 : (g + 1 + - (1) == g)%Q) by ring. rewrite E1.
      eapply Qle_trans; [|exact H1]. discriminate.
  - assert (Hgt : ~ (Qabs g <= 1 # 2)%Q)
      by (intros H; apply Qle_bool_iff in H; congruence).
    apply Z.eqb_neq.
    destruct (Qcompare_spec (g - inject_Z f) (1 # 2)) as [E|E|E].
    + destruct (Z.even f) eqn:Hev; intros H0.
      * apply Hgt. rewrite H0 in E.
        assert (Eg : (g == 1 # 2)%Q) by (rewrite <- E; unfold inject_Z; ring).
        rewrite Eg. discriminate.
      * assert (Hf1 : f = -1) by lia. rewrite Hf1 in E. apply Hgt.
        assert (Eg : (g == - (1 # 2))%Q).
        { assert (E2 : (g == (g - inject_Z (-1)) - 1)%Q) by (unfold inject_Z; ring).
          rewrite E2, E. reflexivity. }
        rewrite Eg. discriminate.
    + intros H0. rewrite H0 in *. apply Hgt. apply Qabs_Qle_condition.
      assert (Eg : (g - inject_Z 0 == g)%Q) by (unfold inject_Z; ring).
      rewrite Eg in E. split.
      * eapply Qle_trans; [|exact Hlo]. discriminate.
      * now apply Qlt_le_weak.
    + intros H0. assert (Hf1 : f = -1) by lia. rewrite Hf1 in *. apply Hgt.
      apply Qabs_Qle_condition.
      assert (Eg : (g - inject_Z (-1) == g + 1)%Q) by (unfold inject_Z; ring).
      rewrite Eg in E. split.
      * apply (Qplus_le_l _ _ 1).
        eapply Qle_trans; [|apply Qlt_le_weak; exact E]. discriminate.
      * apply Qlt_le_weak. eapply Qlt_le_trans; [exact Hhi|]. discriminate.
Qed.

(** X19: in ['round'] mode [binarize] never fails and returns an array of
    the shape of the input whose pixel is on exactly when the gray value
    exceeds 1/2 in absolute value; a value of exactly 1/2 gives an off
    pixel, [np.round] rounding halves to the even integer 0. *)
Theorem binarize_round_threshold draw (pattern_gray : garray) :
  binarize draw pattern_gray "round"
  = Ok (map (map (fun g => Qlt_bool (1 # 2) (Qabs g))) pattern_gray).
Proof.
  unfold binarize. rewrite range_guard_false. simpl. f_equal.
  unfold round_mode. apply map_ext. intros r. apply map_ext. intros g.
  apply quantize_threshold.
Qed.

(** *** Error diffusion on rectangular arrays *)

Local Open Scope nat_scope.

Lemma aget_ok H W (g : garray) i j :
  rect H W g -> (i < H)%nat -> (j < W)%nat -> exists v, aget g i j = Ok v.
Proof.
  intros Hr Hi Hj. destruct (get2_is_Some H W g i j Hr Hi Hj) as [v Hv].
  unfold aget. unfold get2, garray in *.
  destruct (g !! i) as [r|]; simpl in Hv; [|discriminate].
  cbv beta iota. rewrite Hv. eauto.
Qed.

Lemma aadd_ok H W (g : garray) i j e :
  rect H W g -> (i < H)%nat -> (j < W)%nat ->
  exists g', aadd g i j e = Ok g' /\ rect H W g'.
Proof.
  intros Hr Hi Hj. destruct (get2_is_Some H W g i j Hr Hi Hj) as [v Hv].
  unfold aadd. unfold get2, garray in *.
  destruct (g !! i) as [r|] eqn:Hrow; simpl in Hv; [|discriminate].
  cbv beta iota. rewrite Hv. eexists. split; [reflexivity|].
  destruct Hr as [Hlen Hall]. split; [now rewrite length_insert|].
  apply Forall_insert; [exact Hall|]. rewrite length_insert.
  rewrite Forall_forall in Hall. apply Hall.
  eapply list_elem_of_lookup_2; eauto.
Qed.

Lemma aadd_out H W (g : garray) i j e :
  rect H W g -> (W <= j)%nat -> aadd g i j e = Raise IndexError.
Proof.
  intros Hr Hj. unfold aadd, garray in *.
  destruct (g !! i) as [r|] eqn:Hrow; [|reflexivity].
  pose proof (rect_row _ _ _ _ _ Hr Hrow) as Hlen.
  cbv beta iota. now rewrite lookup_ge_None_2 by lia.
Qed.

Lemma bset_rect H W (b : barray) i j v : rect H W b -> rect H W (bset b i j v).
Proof.
  intros [Hlen Hall]. unfold bset, barray in *.
  destruct (b !! i) as [r|] eqn:Hrow; [|now split].
  split; [now rewrite length_insert|].
  apply Forall_insert; [exact Hall|]. rewrite length_insert.
  rewrite Forall_forall in Hall. apply Hall.
  eapply list_elem_of_lookup_2; eauto.
Qed.

Lemma when_ok {S : Type} (P : S -> Prop) c (k : S -> result S) s :
  P s -> (c = true -> exists s', k s = Ok s' /\ P s') ->
  exists s', when c k s = Ok s' /\ P s'.
Proof. intros Hs Hk. unfold when. destruct c; eauto. Qed.

Ltac when_step H W Hg :=
  match goal with
  | |- context [@when ?S ?c ?k ?s] =>
      let g' := fresh "g" in
      let E := fresh "E" in
      let Hg' := fresh "Hg" in
      destruct (@when_ok S (rect H W) c k s Hg) as (g' & E & Hg');
      [ let Hc := fresh "Hc" in
        intros Hc; apply Nat.ltb_lt in Hc
      | rewrite E; clear E; unfold mbind at 1, result_bind at 1; cbv beta iota ]
  end.

Ltac aadd_step H W Hg :=
  match goal with
  | |- context [aadd ?g ?i ?j ?e] =>
      let g' := fresh "g" in
      let E := fresh "E" in
      let Hg' := fresh "Hg" in
      destruct (aadd_ok H W g i j e Hg) as (g' & E & Hg');
      [ lia | lia
      | rewrite E; clear E; unfold mbind at 1, result_bind at 1; cbv beta iota ]
  end.

(** One pixel of the error diffusion succeeds when the pixel is not in the
    last column, or when the array has at least as many columns as rows. *)
Lemma fs_step_ok ny nx ii jj (g : garray) (b : barray) :
  rect ny nx g -> rect ny nx b -> (ii < ny)%nat -> (jj < nx)%nat ->
  (jj + 1 < nx \/ ny <= nx)%nat ->
  exists g' b', fs_step ny nx ii jj (g, b) = Ok (g', b') /\
                rect ny nx g' /\ rect ny nx b'.
Proof.
  intros Hg Hb Hi Hj Hside. unfold fs_step.
  destruct (aget_ok ny nx g ii jj Hg Hi Hj) as [v ->].
  unfold mbind at 1, result_bind at 1. cbv beta iota.
  when_step ny nx Hg.
  { apply aadd_ok; auto; lia. }
  when_step ny nx Hg0.
  { when_step ny nx Hg0.
    { apply aadd_ok; auto; lia. }
    aadd_step ny nx Hg1.
    apply when_ok; [assumption|].
    intros Hc'. apply Nat.ltb_lt in Hc'. apply aadd_ok; auto; lia. }
  do 2 eexists. split; [reflexivity|]. split; [assumption|]. now apply bset_rect.
Qed.

(** In an array with more rows than columns, the pixel at the end of a row
    that is not the last one makes the diffusion write outside the array. *)
Lemma fs_step_out ny nx ii (g : garray) (b : barray) :
  rect ny nx g -> (1 <= nx)%nat -> (nx < ny)%nat -> (ii + 1 < ny)%nat ->
  fs_step ny nx ii (nx - 1) (g, b) = Raise IndexError.
Proof.
  intros Hg Hnx Htall Hi. unfold fs_step.
  destruct (aget_ok ny nx g ii (nx - 1) Hg ltac:(lia) ltac:(lia)) as [v ->].
  unfold mbind at 1, result_bind at 1. cbv beta iota.
  when_step ny nx Hg.
  { lia. }
  destruct (Nat.ltb_spec ii (ny - 1)); [|lia]. unfold when at 1. cbv beta iota.
  match goal with
  | |- context [@when ?S ?c ?k ?s] =>
      destruct (@when_ok S (rect ny nx) c k s Hg0) as (g' & E & Hg')
  end.
  { intros Hc. apply Nat.ltb_lt in Hc. apply aadd_ok; auto; lia. }
  rewrite E. clear E.
  destruct (aadd_ok ny nx g' (ii + 1) (nx - 1)
              ((v - bool_to_Q (quantize v)) * 5 / 16)%Q Hg' ltac:(lia) ltac:(lia))
    as (g3 & E3 & Hg3).
  destruct (Nat.ltb_spec (nx - 1) (ny - 1)); [|lia].
  unfold mbind, result_bind. cbv beta iota. rewrite E3. unfold when.
  now rewrite (aadd_out ny nx g3) by (auto; lia).
Qed.

Lemma for_each_app {St X : Type} (l1 l2 : list X) (body : X -> St -> result St) s :
  for_each (l1 ++ l2) body s = (s' ← for_each l1 body s; for_each l2 body s').
Proof.
  revert s. induction l1 as [|x l1 IH]; intros s; simpl; [reflexivity|].
  destruct (body x s) as [s1|]; simpl; [apply IH | reflexivity].
Qed.

Lemma shape1_rect_pos H W (a : garray) :
  rect H W a -> (0 < H)%nat -> Binarize.shape1 a = W.
Proof.
  intros [Hlen Hall] HH. unfold Binarize.shape1.
  destruct a as [|r a]; [simpl in Hlen; lia|]. simpl.
  now inversion Hall.
Qed.

Lemma bzeros_rect H W (a : garray) : rect H W a -> rect H W (bzeros a).
Proof.
  intros [Hlen Hall]. unfold bzeros. split; [now rewrite length_map|].
  apply Forall_forall. intros r Hin. apply list_elem_of_In, in_map_iff in Hin.
  destruct Hin as (r0 & <- & Hin0). rewrite length_map.
  rewrite Forall_forall in Hall. apply Hall. now apply list_elem_of_In.
Qed.

Lemma floyd_steinberg_wide ny nx (a : garray) :
  rect ny nx a -> (ny <= nx)%nat ->
  exists b, floyd_steinberg a = Ok b /\ rect ny nx b.
Proof.
  intros Ha Hwide. unfold floyd_steinberg.
  assert (H0 : Binarize.shape0 a = ny) by (destruct Ha; assumption).
  rewrite H0.
  destruct (Nat.eq_dec ny 0) as [->|Hpos].
  - simpl. exists (bzeros a). split; [reflexivity | now apply bzeros_rect].
  - rewrite (shape1_rect_pos ny nx a Ha) by lia.
    destruct (TilerFacts.for_each_seq_inv
                (fun _ (st : garray * barray) =>
                   rect ny nx (fst st) /\ rect ny nx (snd st))
                (fun ii => for_each (seq 0 nx) (fun jj => fs_step ny nx ii jj))
                ny 0%nat (a, bzeros a)) as ([g b] & Hrun & _ & Hb).
    + split; [exact Ha | now apply bzeros_rect].
    + intros ii st Hii Hst.
      destruct (TilerFacts.for_each_seq_inv
                  (fun _ (st : garray * barray) =>
                     rect ny nx (fst st) /\ rect ny nx (snd st))
                  (fun jj => fs_step ny nx ii jj) nx 0%nat st Hst)
        as (st' & Hrun' & Hst').
      * intros jj [g1 b1] Hjj [Hg1 Hb1]. simpl in Hg1, Hb1.
        destruct (fs_step_ok ny nx ii jj g1 b1 Hg1 Hb1 ltac:(lia) ltac:(lia)
                    ltac:(lia)) as (g2 & b2 & Hs & Hg2 & Hb2).
        exists (g2, b2). auto.
      * exists st'. auto.
    + rewrite Hrun. simpl. exists b. auto.
Qed.

Lemma floyd_steinberg_tall ny nx (a : garray) :
  rect ny nx a -> (1 <= nx)%nat -> (nx < ny)%nat ->
  floyd_steinberg a = Raise IndexError.
Proof.
  intros Ha Hnx Htall. unfold floyd_steinberg.
  assert (H0 : Binarize.shape0 a = ny) by (destruct Ha; assumption).
  rewrite H0, (shape1_rect_pos ny nx a Ha) by lia.
  destruct ny as [|ny]; [lia|]. simpl seq at 1. simpl for_each at 1.
  assert (Hseq : seq 0 nx = seq 0 (nx - 1) ++ [(nx - 1)%nat]).
  { replace nx with (S (nx - 1)) at 1 by lia. now rewrite seq_S. }
  rewrite Hseq at 1. rewrite for_each_app.
  destruct (TilerFacts.for_each_seq_inv
              (fun _ (st : garray * barray) =>
                 rect (S ny) nx (fst st) /\ rect (S ny) nx (snd st))
              (fun jj => fs_step (S ny) nx 0 jj) (nx - 1) 0%nat (a, bzeros a))
    as ([g b] & Hrun & Hg & Hb).
  - split; [exact Ha | now apply bzeros_rect].
  - intros jj [g1 b1] Hjj [Hg1 Hb1]. simpl in Hg1, Hb1.
    destruct (fs_step_ok (S ny) nx 0 jj g1 b1 Hg1 Hb1 ltac:(lia) ltac:(lia)
                ltac:(lia)) as (g2 & b2 & Hs & Hg2 & Hb2).
    exists (g2, b2). auto.
  - rewrite Hrun. simpl in Hg.
    unfold mbind, result_bind. cbv beta iota.
    change (for_each [(nx - 1)%nat] (fun jj => fs_step (S ny) nx 0 jj) (g, b))
      with (s' ← fs_step (S ny) nx 0 (nx - 1) (g, b); Ok s').
    rewrite (fs_step_out (S ny) nx 0 g b Hg Hnx Htall) by lia.
    reflexivity.
Qed.

(** X20: on a rectangular gray array with at least one column,
    ['floyd-steinberg'] succeeds exactly when the array has no more rows
    than columns, and then returns an array of the same shape.  With more
    rows than columns the guard [jj < ny - 1] of the lower right term lets
    the pixel at the end of the first row write to column [nx], and
    [binarize] raises an [IndexError]. *)
Theorem floyd_steinberg_needs_wide_array draw (pattern_gray : garray) ny nx :
  rect ny nx pattern_gray -> (1 <= nx)%nat ->
  match binarize draw pattern_gray "floyd-steinberg" with
  | Ok pattern_bin => (ny <= nx)%nat /\ rect ny nx pattern_bin
  | Raise e => e = IndexError /\ (nx < ny)%nat
  end.
Proof.
  intros Hr Hnx. unfold binarize. rewrite range_guard_false.
  change (String.eqb "floyd-steinberg" "floyd-steinberg") with true. cbv iota.
  destruct (le_lt_dec ny nx) as [Hwide|Htall].
  - destruct (floyd_steinberg_wide ny nx pattern_gray Hr Hwide) as (b & -> & Hb).
    auto.
  - rewrite (floyd_steinberg_tall ny nx pattern_gray Hr Hnx Htall). auto.
Qed.

Lemma floyd_steinberg_needs_wide_array_witness :
  binarize (fun _ _ => false) tall_pattern "floyd-steinberg" = Raise IndexError /\
  IndexError = IndexError /\ (2 < 3)%nat.
Proof.
  split; [vm_compute; reflexivity|].
  apply (floyd_steinberg_needs_wide_array (fun _ _ => false) tall_pattern 3 2).
  - split; [reflexivity|]. repeat constructor.
  - lia.
Defined.

(** *** The Jarvis-Judice-Ninke branch *)

(** One pixel of the ["jjn"] diffusion succeeds when it is more than two
    columns away from the right border, or when the array has at least as
    many columns as rows. *)
Lemma jjn_inner_ok ny nx ii jj (st : jjn_state) :
  rect ny nx (jjn_gray st) -> rect ny nx (jjn_bin st) ->
  (ii < ny)%nat -> (jj < nx)%nat -> (jj + 2 < nx \/ ny <= nx)%nat ->
  exists st', jjn_inner ny nx ii jj st = Ok st' /\
    rect ny nx (jjn_gray st') /\ rect ny nx (jjn_bin st') /\
    exists e, jjn_last st' = Some (jj, e).
Proof.
  intros Hg Hb Hi Hj Hside. unfold jjn_inner.
  destruct (aget_ok ny nx (jjn_gray st) ii jj Hg Hi Hj) as [v ->].
  unfold mbind at 1, result_bind at 1. cbv beta iota.
  when_step ny nx Hg.
  { apply aadd_ok; auto; lia. }
  when_step ny nx Hg0.
  { apply aadd_ok; auto; lia. }
  when_step ny nx Hg1.
  { when_step ny nx Hg1.
    { apply aadd_ok; auto; lia. }
    when_step ny nx Hg2.
    { apply aadd_ok; auto; lia. }
    aadd_step ny nx Hg3.
    when_step ny nx Hg4.
    { apply aadd_ok; auto; lia. }
    apply when_ok; [assumption|].
    intros Hc'. apply Nat.ltb_lt in Hc'. apply aadd_ok; auto; lia. }
  eexists. split; [reflexivity|]. cbn [jjn_gray jjn_bin jjn_last].
  split; [assumption|]. split; [now apply bset_rect | eauto].
Qed.

(** The block for row [ii + 2] stays inside an array that has at least as
    many columns as rows. *)
Lemma jjn_tail_ok ny nx ii jj e (st : jjn_state) :
  rect ny nx (jjn_gray st) -> rect ny nx (jjn_bin st) ->
  (ny <= nx)%nat -> jjn_last st = Some (jj, e) -> (jj < nx)%nat ->
  exists st', jjn_tail ny ii st = Ok st' /\
    rect ny nx (jjn_gray st') /\ rect ny nx (jjn_bin st').
Proof.
  intros Hg Hb Hwide Hlast Hj. unfold jjn_tail.
  destruct (Nat.ltb_spec ii (ny - 2)) as [Hi|Hi]; [|eauto].
  rewrite Hlast.
  when_step ny nx Hg.
  { apply aadd_ok; auto; lia. }
  when_step ny nx Hg0.
  { apply aadd_ok; auto; lia. }
  aadd_step ny nx Hg1.
  when_step ny nx Hg2.
  { apply aadd_ok; auto; lia. }
  when_step ny nx Hg3.
  { apply aadd_ok; auto; lia. }
  eexists. split; [reflexivity|]. cbn [jjn_gray jjn_bin]. auto.
Qed.

Lemma bind_Ok {A B : Type} (x : A) (f : A -> result B) : (Ok x ≫= f) = f x.
Proof. reflexivity. Qed.

Lemma when_true {S : Type} (k : S -> result S) s : when true k s = k s.
Proof. reflexivity. Qed.

Ltac when_in H W Hg :=
  match goal with
  | |- context [@when ?S ?c ?k ?s] =>
      let g' := fresh "g" in
      let E := fresh "E" in
      let Hg' := fresh "Hg" in
      destruct (@when_ok S (rect H W) c k s Hg) as (g' & E & Hg');
      [ let Hc := fresh "Hc" in
        intros Hc; apply Nat.ltb_lt in Hc
      | rewrite E; clear E; rewrite ?bind_Ok; cbv beta ]
  end.

Ltac aadd_in H W Hg :=
  match goal with
  | |- context [aadd ?g ?i ?j ?e] =>
      let g' := fresh "g" in
      let E := fresh "E" in
      let Hg' := fresh "Hg" in
      destruct (aadd_ok H W g i j e Hg) as (g' & E & Hg');
      [ lia | lia | rewrite E; clear E; rewrite ?bind_Ok; cbv beta ]
  end.

(** In an array with more rows than columns, the pixel two columns before
    the end of a row that is not the last one (the first pixel, in an array
    of one column) writes outside the array. *)
Lemma jjn_inner_out ny nx ii (st : jjn_state) :
  rect ny nx (jjn_gray st) -> (1 <= nx)%nat -> (nx < ny)%nat -> (ii + 1 < ny)%nat ->
  jjn_inner ny nx ii (nx - 2) st = Raise IndexError.
Proof.
  intros Hg Hnx Htall Hi. unfold jjn_inner.
  destruct (aget_ok ny nx (jjn_gray st) ii (nx - 2) Hg ltac:(lia) ltac:(lia))
    as [v ->].
  rewrite bind_Ok. cbv beta zeta.
  when_in ny nx Hg.
  { apply aadd_ok; auto; lia. }
  when_in ny nx Hg0.
  { lia. }
  destruct (Nat.ltb_spec ii (ny - 1)); [|lia]. rewrite when_true. cbv beta.
  when_in ny nx Hg1.
  { apply aadd_ok; auto; lia. }
  when_in ny nx Hg2.
  { apply aadd_ok; auto; lia. }
  aadd_in ny nx Hg3.
  destruct (Nat.ltb_spec (nx - 2) (ny - 1)); [|lia]. rewrite when_true. cbv beta.
  destruct (Nat.eq_dec nx 1) as [->|Hnx2].
  - change (1 - 2 + 1) with 1. now rewrite (aadd_out ny 1 g3) by (auto; lia).
  - destruct (aadd_ok ny nx g3 (ii + 1) (nx - 2 + 1)
                ((v - bool_to_Q (quantize v)) * 5 / 48)%Q Hg4
                ltac:(lia) ltac:(lia)) as (g5 & E5 & Hg5).
    rewrite E5, bind_Ok. cbv beta.
    destruct (Nat.ltb_spec (nx - 2) (ny - 2)); [|lia]. rewrite when_true. cbv beta.
    now rewrite (aadd_out ny nx g5) by (auto; lia).
Qed.

Lemma for_each_raise {St X : Type} (l1 l2 : list X) (x : X)
    (body : X -> St -> result St) s s' e :
  for_each l1 body s = Ok s' -> body x s' = Raise e ->
  for_each (l1 ++ x :: l2) body s = Raise e.
Proof.
  intros H1 Hx. rewrite for_each_app, H1. simpl. now rewrite Hx.
Qed.

Lemma jjn_wide ny nx (a : garray) :
  rect ny nx a -> (ny <= nx)%nat -> exists b, jjn a = Ok b /\ rect ny nx b.
Proof.
  intros Ha Hwide. unfold jjn.
  assert (H0 : Binarize.shape0 a = ny) by (destruct Ha; assumption).
  rewrite H0.
  destruct (Nat.eq_dec ny 0) as [->|Hpos].
  - simpl. exists (bzeros a). split; [reflexivity | now apply bzeros_rect].
  - rewrite (shape1_rect_pos ny nx a Ha) by lia.
    set (R := fun st : jjn_state =>
                rect ny nx (jjn_gray st) /\ rect ny nx (jjn_bin st)).
    destruct (TilerFacts.for_each_seq_inv (fun _ st => R st)
                (fun ii st =>
                   st ← for_each (seq 0 nx) (fun jj => jjn_inner ny nx ii jj) st;
                   jjn_tail ny ii st)
                ny 0%nat
                {| jjn_gray := a; jjn_bin := bzeros a; jjn_last := None |})
      as (st & Hrun & _ & Hb).
    + split; [exact Ha | now apply bzeros_rect].
    + intros ii st Hii Hst.
      destruct (TilerFacts.for_each_seq_inv
                  (fun k st => R st /\
                     (0 < k -> exists e, jjn_last st = Some (k - 1, e)))
                  (fun jj => jjn_inner ny nx ii jj) nx 0%nat st)
        as (st' & Hrun' & [Hg' Hb'] & Hlast).
      * split; [exact Hst | lia].
      * intros jj st1 Hjj [[Hg1 Hb1] _].
        destruct (jjn_inner_ok ny nx ii jj st1 Hg1 Hb1 ltac:(lia) ltac:(lia)
                    ltac:(lia)) as (st2 & Hs & Hg2 & Hb2 & e & He).
        exists st2. split; [exact Hs|]. split; [now split|].
        intros _. exists e. now rewrite Nat.sub_1_r.
      * rewrite Hrun'. unfold mbind, result_bind. cbv beta iota.
        destruct (Hlast ltac:(lia)) as [e He].
        destruct (jjn_tail_ok ny nx ii (0 + nx - 1) e st' Hg' Hb' Hwide He
                    ltac:(lia)) as (st2 & Hs & Hg2 & Hb2).
        exists st2. split; [exact Hs | now split].
    + rewrite Hrun. simpl. exists (jjn_bin st). auto.
Qed.

Lemma jjn_tall ny nx (a : garray) :
  rect ny nx a -> (1 <= nx)%nat -> (nx < ny)%nat -> jjn a = Raise IndexError.
Proof.
  intros Ha Hnx Htall. unfold jjn.
  assert (H0 : Binarize.shape0 a = ny) by (destruct Ha; assumption).
  rewrite H0, (shape1_rect_pos ny nx a Ha) by lia.
  destruct ny as [|ny]; [lia|]. simpl seq at 1. simpl for_each at 1.
  assert (Hseq : seq 0 nx
                 = seq 0 (nx - 2) ++ (nx - 2) :: seq (S (nx - 2)) (nx - (nx - 2) - 1)).
  { replace nx with ((nx - 2) + S (nx - (nx - 2) - 1)) at 1 by lia.
    now rewrite seq_app. }
  rewrite Hseq at 1.
  destruct (TilerFacts.for_each_seq_inv
              (fun _ st =>
                 rect (S ny) nx (jjn_gray st) /\ rect (S ny) nx (jjn_bin st))
              (fun jj => jjn_inner (S ny) nx 0 jj) (nx - 2) 0%nat
              {| jjn_gray := a; jjn_bin := bzeros a; jjn_last := None |})
    as (st & Hrun & Hg & Hb).
  - split; [exact Ha | now apply bzeros_rect].
  - intros jj st1 Hjj [Hg1 Hb1].
    destruct (jjn_inner_ok (S ny) nx 0 jj st1 Hg1 Hb1 ltac:(lia) ltac:(lia)
                ltac:(lia)) as (st2 & Hs & Hg2 & Hb2 & _).
    exists st2. auto.
  - rewrite (for_each_raise _ _ _ _ _ st IndexError Hrun); [reflexivity|].
    apply jjn_inner_out; auto; lia.
Qed.

(** X22: on a rectangular gray array with at least one column, ['jjn']
    succeeds exactly when the array has no more rows than columns, and then
    returns an array of the same shape; the block for row [ii + 2], which
    runs once per row with the last column index, stays inside such an
    array.  With more rows than columns the guards [jj < ny - 1] and
    [jj < ny - 2] let the first row write to column [nx], and [binarize]
    raises an [IndexError]. *)
Theorem jjn_needs_wide_array draw (pattern_gray : garray) ny nx :
  rect ny nx pattern_gray -> (1 <= nx)%nat ->
  match binarize draw pattern_gray "jjn" with
  | Ok pattern_bin => (ny <= nx)%nat /\ rect ny nx pattern_bin
  | Raise e => e = IndexError /\ (nx < ny)%nat
  end.
Proof.
  intros Hr Hnx. unfold binarize. rewrite range_guard_false.
  change (String.eqb "jjn" "floyd-steinberg") with false.
  change (String.eqb "jjn" "jjn") with true. cbv iota.
  destruct (le_lt_dec ny nx) as [Hwide|Htall].
  - destruct (jjn_wide ny nx pattern_gray Hr Hwide) as (b & -> & Hb). auto.
  - rewrite (jjn_tall ny nx pattern_gray Hr Hnx Htall). auto.
Qed.

Lemma jjn_needs_wide_array_witness :
  binarize (fun _ _ => false) tall_pattern "jjn" = Raise IndexError /\
  IndexError = IndexError /\ (2 < 3)%nat.
Proof.
  split; [vm_compute; reflexivity|].
  apply (jjn_needs_wide_array (fun _ _ => false) tall_pattern 3 2).
  - split; [reflexivity|]. repeat constructor.
  - lia.
Defined.

End BinarizeProperties.
(** ** Properties of the checkerboard pattern *)

Module CheckerboardProperties.
Import Checkerboard.

Lemma lookup_concat_replicate {A : Type} (l : list A) (r i : nat) :
  (i < r * length l)%nat ->
  concat (replicate r l) !! i = l !! (i mod length l)%nat.
Proof.
  revert i. induction r as [|r IH]; intros i Hi; [lia|].
  simpl. destruct (decide (i < length l)%nat) as [Hlt|Hge].
  - rewrite lookup_app_l by exact Hlt. now rewrite Nat.mod_small.
  - rewrite lookup_app_r by lia. rewrite IH by (simpl in Hi; lia).
    f_equal. replace i with ((i - length l) + 1 * length l)%nat at 2 by lia.
    now rewrite Nat.Div0.mod_add.
Qed.

Lemma length_concat_replicate {A : Type} (l : list A) (r : nat) :
  length (concat (replicate r l)) = (r * length l)%nat.
Proof. induction r as [|r IH]; simpl; [reflexivity|]. rewrite length_app. lia. Qed.

Lemma rect_replicate {A : Type} (h w : nat) (x : A) :
  rect h w (replicate h (replicate w x)).
Proof.
  split; [apply length_replicate|]. apply Forall_replicate, length_replicate.
Qed.

Lemma get2_replicate {A : Type} (h w i j : nat) (x : A) :
  (i < h)%nat -> (j < w)%nat -> get2 (replicate h (replicate w x)) i j = Some x.
Proof.
  intros Hi Hj. unfold get2. rewrite lookup_replicate_2 by exact Hi. simpl.
  now apply lookup_replicate_2.
Qed.

(** The tiled array: [ry] by [rx] copies of an [n] by [n] cell. *)
Lemma tiled_rect (cell : list (list Z)) (n ry rx : nat) :
  rect n n cell ->
  rect (ry * n) (rx * n)
    (concat (replicate ry (map (fun r => concat (replicate rx r)) cell))).
Proof.
  intros [Hlen Hall]. split.
  - now rewrite length_concat_replicate, length_map, Hlen.
  - apply Forall_concat, Forall_replicate, Forall_forall.
    intros r Hin. apply list_elem_of_In, in_map_iff in Hin.
    destruct Hin as (r0 & <- & Hin0). rewrite length_concat_replicate.
    rewrite Forall_forall in Hall. now rewrite (Hall r0) by now apply list_elem_of_In.
Qed.

Lemma tiled_get2 (cell : list (list Z)) (n ry rx i j : nat) :
  rect n n cell -> (i < ry * n)%nat -> (j < rx * n)%nat ->
  get2 (concat (replicate ry (map (fun r => concat (replicate rx r)) cell))) i j
  = get2 cell (i mod n) (j mod n).
Proof.
  intros Hr Hi Hj. pose proof Hr as [Hlen Hall]. unfold get2.
  rewrite lookup_concat_replicate by (rewrite length_map, Hlen; exact Hi).
  rewrite length_map, Hlen, list_lookup_fmap.
  destruct (cell !! (i mod n)%nat) as [row|] eqn:Hrow; simpl; [|reflexivity].
  pose proof (rect_row _ _ _ _ _ Hr Hrow) as Hl.
  rewrite lookup_concat_replicate by (rewrite Hl; exact Hj).
  now rewrite Hl.
Qed.

Lemma ceiling_covers (a n : Z) :
  0 < n -> 0 <= a ->
  0 <= Qceiling (inject_Z a / inject_Z n) /\
  a <= Qceiling (inject_Z a / inject_Z n) * n.
Proof.
  intros Hn Ha. set (c := Qceiling (inject_Z a / inject_Z n)).
  pose proof (Qle_ceiling (inject_Z a / inject_Z n)) as Hle. fold c in Hle.
  assert (Hq : (inject_Z a <= inject_Z c * inject_Z n)%Q).
  { assert (Hn0 : (0 < inject_Z n)%Q)
      by (change 0%Q with (inject_Z 0); now rewrite <- Zlt_Qlt).
    apply (Qmult_le_compat_r _ _ (inject_Z n)) in Hle; [|now apply Qlt_le_weak].
    eapply Qle_trans; [|exact Hle].
    apply Qle_lteq. right. field.
    intros E. rewrite E in Hn0. now apply Qlt_irrefl in Hn0. }
  rewrite <- inject_Z_mult, <- Zle_Qle in Hq. split; [nia | exact Hq].
Qed.

(** X21: for [n_on >= 0], [n_off >= 0] (an omitted [n_off] stands for
    [n_on]) with [n_on + n_off > 0] and a canvas of non-negative size,
    [checkerboard] returns an array of [ny] rows and [nx] columns whose
    pixel [(x, y)] is 1 exactly when both [x] and [y] are below [n_on]
    modulo the cell size [n_on + n_off]: only the top-left [n_on] by [n_on]
    square of each cell is on, the diagonally opposite square stays off. *)
Theorem checkerboard_pattern nx ny n_on (n_off : option Z) :
  let n_cell := n_on + default n_on n_off in
  0 <= n_on -> 0 <= default n_on n_off -> 0 < n_cell -> 0 <= nx -> 0 <= ny ->
  exists mask,
    checkerboard (nx, ny) n_on n_off = Ok mask /\
    rect (Z.to_nat ny) (Z.to_nat nx) mask /\
    forall x y, 0 <= x < nx -> 0 <= y < ny ->
      get2 mask (Z.to_nat y) (Z.to_nat x)
      = Some (if (y mod n_cell <? n_on) && (x mod n_cell <? n_on) then 1 else 0).
Proof.
  intros n_cell Hon Hoff Hcell Hnx Hny. unfold checkerboard. fold n_cell.
  destruct (Z.ltb_spec n_cell 0) as [Hneg|_]; [lia|].
  destruct (Z.eqb_spec n_cell 0) as [Hz|_]; [lia|].
  rewrite slice_len_in_range by lia. rewrite Z.sub_0_r.
  unfold update_slice2, slice_bound. change (0 <? 0) with false. cbv iota.
  rewrite !Z.min_l by lia. change (Z.to_nat 0) with 0%nat.
  set (n := Z.to_nat n_cell). set (k := Z.to_nat n_on).
  set (cell := assign_slice2 (zeros n_cell n_cell) 0 0 (replicate k (replicate k 1))).
  assert (Hzr : rect n n (zeros n_cell n_cell)) by apply rect_replicate.
  assert (Hbr : rect k k (replicate k (replicate k 1))) by apply rect_replicate.
  assert (Hkn : (k <= n)%nat) by (unfold k, n; lia).
  assert (Hcr : rect n n cell)
    by (apply (rect_assign_slice2 n n k k); auto; lia).
  assert (Hcg : forall i j, (i < n)%nat -> (j < n)%nat ->
            get2 cell i j = Some (if (i <? k)%nat && (j <? k)%nat then 1 else 0)).
  { intros i j Hi Hj. unfold cell.
    rewrite (get2_assign_slice2 n n k k) by (auto; lia).
    destruct (Nat.ltb_spec i k), (Nat.ltb_spec j k); simpl;
      case_decide; try lia.
    - rewrite !Nat.sub_0_r. now apply get2_replicate.
    - now apply get2_replicate.
    - now apply get2_replicate.
    - now apply get2_replicate. }
  destruct (ceiling_covers nx n_cell Hcell Hnx) as [Hrx0 Hrx].
  destruct (ceiling_covers ny n_cell Hcell Hny) as [Hry0 Hry].
  set (rx := Qceiling (inject_Z nx / inject_Z n_cell)) in *.
  set (ry := Qceiling (inject_Z ny / inject_Z n_cell)) in *.
  unfold np_tile.
  destruct (Z.ltb_spec ry 0); [lia|]. destruct (Z.ltb_spec rx 0); [lia|].
  simpl orb. cbv iota. unfold mbind, result_bind. cbv beta iota.
  set (mask := concat (replicate (Z.to_nat ry) _)).
  pose proof (tiled_rect cell n (Z.to_nat ry) (Z.to_nat rx) Hcr) as Hmr.
  fold mask in Hmr.
  assert (Hh : ny <= Z.of_nat (Z.to_nat ry * n)) by (unfold n; nia).
  assert (Hw : nx <= Z.of_nat (Z.to_nat rx * n)) by (unfold n; nia).
  eexists. split; [reflexivity|]. split.
  - pose proof (rect_slice2 _ _ mask 0 ny 0 nx Hmr ltac:(lia) Hh ltac:(lia) Hw)
      as Hs. now rewrite !Z.sub_0_r in Hs.
  - intros x y Hx Hy.
    rewrite (get2_slice2 _ _ mask 0 ny 0 nx (Z.to_nat y) (Z.to_nat x) Hmr
               ltac:(lia) Hh ltac:(lia) Hw ltac:(lia) ltac:(lia)).
    change (Z.to_nat 0) with 0%nat. rewrite !Nat.add_0_l.
    unfold mask. rewrite (tiled_get2 cell n) by (auto; lia).
    assert (Hn : (0 < n)%nat) by (unfold n; lia).
    rewrite Hcg by (apply Nat.mod_upper_bound; lia).
    f_equal.
    assert (Ey : Z.of_nat (Z.to_nat y mod n) = y mod n_cell)
      by (rewrite Nat2Z.inj_mod; unfold n; rewrite !Z2Nat.id by lia; reflexivity).
    assert (Ex : Z.of_nat (Z.to_nat x mod n) = x mod n_cell)
      by (rewrite Nat2Z.inj_mod; unfold n; rewrite !Z2Nat.id by lia; reflexivity).
    rewrite <- Ey, <- Ex.
    destruct (Nat.ltb_spec (Z.to_nat y mod n) k),
             (Nat.ltb_spec (Z.to_nat x mod n) k),
             (Z.ltb_spec (Z.of_nat (Z.to_nat y mod n)) n_on),
             (Z.ltb_spec (Z.of_nat (Z.to_nat x mod n)) n_on);
      simpl; try reflexivity; unfold k in *; lia.
Qed.

Lemma checkerboard_pattern_witness :
  exists mask,
    checkerboard (7, 5) 2 (Some 1) = Ok mask /\
    rect (Z.to_nat 5) (Z.to_nat 7) mask /\
    forall x y, 0 <= x < 7 -> 0 <= y < 5 ->
      get2 mask (Z.to_nat y) (Z.to_nat x)
      = Some (if (y mod (2 + 1) <? 2) && (x mod (2 + 1) <? 2) then 1 else 0).
Proof.
  apply (checkerboard_pattern 7 5 2 (Some 1)); simpl; lia.
Defined.

End CheckerboardProperties.

